(** * SCF.cpp: self-consistent field loop with plain and DIIS (Pulay) mixing

    Shallow embedding of [src/jdftx/electronic/SCF.cpp].

    Numbers.  The C++ code computes in [double]; here a [double] is an exact
    rational ([Q]), so every equation between field samples below is an
    equation of exact arithmetic ([Qeq], written [==]).  Rounding, infinities
    and NaN are outside this model.  The one division of the file
    ([weight = c_j / norm] in [mixDIIS]) is total in [Q] with [x / 0 == 0];
    every statement that depends on its value says what [norm] is.  Where
    rounding decides whether a statement holds of the code, the scalar
    arithmetic of the lines in question is repeated on binary64 numbers in
    the module [Double].

    Fields.  A [DataRptr] is the list of samples of one scalar field on the
    real-space grid; a [DataRptrCollection] ([std::vector<DataRptr>]) has one
    field per spin channel.  [clone] is the identity on these values; the
    aliasing that the C++ references [variable_n] and [variable_tau] create
    with the members of [e.eVars] is kept: they are selectors into the
    record, not copies. *)

From Stdlib Require Import QArith Qabs List Lia Lqa ZArith Bool Arith Setoid Morphisms.
From Stdlib Require Import Qpower.
From Stdlib Require Import Floats.
Import ListNotations.

Local Open Scope Q_scope.

(** ** Scalar fields and the operators of core/Operators.h used by SCF.cpp *)

Abbreviation DataRptr := (list Q) (only parsing).
Abbreviation DataRptrCollection := (list (list Q)) (only parsing).

Fixpoint zipWith (f : Q -> Q -> Q) (X Y : DataRptr) : DataRptr :=
  match X, Y with
  | x :: X', y :: Y' => f x y :: zipWith f X' Y'
  | _, _ => []
  end.

(** [a * X] for a [double] a. *)
Definition scale (a : Q) (X : DataRptr) : DataRptr := map (Qmult a) X.

(** [X + Y], sample by sample. *)
Definition add (X Y : DataRptr) : DataRptr := zipWith Qplus X Y.

(** [X * Y], sample by sample. *)
Definition mul (X Y : DataRptr) : DataRptr := zipWith Qmult X Y.

Fixpoint sum (X : DataRptr) : Q :=
  match X with
  | [] => 0
  | x :: X' => x + sum X'
  end.

(** Modelled from the spec: [integral] is declared in core/Operators.h, which
    is not under src/.  The spec calls the inner product "the
    point-wise product integrated over the domain, i.e. a weighted dot
    product": the integral of a field is the sum of its samples times the
    volume element [dV] of the grid. *)
Definition integral (dV : Q) (X : DataRptr) : Q := dV * sum X.

(** [c[s]] and [c[s] = v] on a collection.  Out of range the C++ behaviour
    is undefined; the model reads the empty field and leaves the collection
    unchanged. *)
Definition at_ (c : DataRptrCollection) (s : nat) : DataRptr := nth s c [].

Fixpoint assign (s : nat) (v : DataRptr) (c : DataRptrCollection) : DataRptrCollection :=
  match c, s with
  | [], _ => []
  | _ :: c', O => v :: c'
  | x :: c', S s' => x :: assign s' v c'
  end.

(** [axpy(a, X, Y)]: [Y += a*X], field by field. *)
Fixpoint axpy (a : Q) (X Y : DataRptrCollection) : DataRptrCollection :=
  match X, Y with
  | x :: X', y :: Y' => add y (scale a x) :: axpy a X' Y'
  | _, _ => Y
  end.

(** [std::vector::back()]; on an empty vector (undefined in C++) the model
    returns the empty collection. *)
Definition back (h : list DataRptrCollection) : DataRptrCollection := last h [].

(** The macro [overlapResiduals(r1, r2)]. *)
Definition overlapResiduals (dV : Q) (r1 r2 : DataRptrCollection) : Q :=
  integral dV (mul (at_ r1 0) (at_ r2 0))
  + (if Nat.eqb (length r1) 2 then integral dV (mul (at_ r1 1) (at_ r2 1)) else 0).

(** ** The part of [Everything] that SCF.cpp touches *)

Inductive MixedVariable := density | potential.
Inductive VectorExtrapolationMethod := plainMixing | DIIS.

Module ElecVars.
Record t := mk
  { n : DataRptrCollection;
    Vscloc : DataRptrCollection;
    tau : DataRptrCollection;
    Vtau : DataRptrCollection }.
Definition set_n v e := mk v (Vscloc e) (tau e) (Vtau e).
Definition set_Vscloc v e := mk (n e) v (tau e) (Vtau e).
Definition set_tau v e := mk (n e) (Vscloc e) v (Vtau e).
Definition set_Vtau v e := mk (n e) (Vscloc e) (tau e) v.
End ElecVars.

Record ResidualMinimizerParams := mkRP
  { nIterations : Z;
    history : nat;
    energyDiffThreshold : Q;
    vectorExtrapolationMethod : VectorExtrapolationMethod;
    mixedVariable : MixedVariable }.

(** [needsKEdensity] is [e.exCorr.needsKEdensity()], [dV] the volume element
    of [e.gInfo]. *)
Record Everything := mkE
  { eVars : ElecVars.t;
    residualMinimizerParams : ResidualMinimizerParams;
    needsKEdensity : bool;
    dV : Q }.

Definition with_eVars (e : Everything) (ev : ElecVars.t) : Everything :=
  mkE ev (residualMinimizerParams e) (needsKEdensity e) (dV e).

(** The references [variable_n] and [variable_tau] of [SCF::minimize]
    (lines 47-48): which member of [eVars] they alias. *)
Definition variable_n (mv : MixedVariable) (ev : ElecVars.t) : DataRptrCollection :=
  match mv with density => ElecVars.n ev | potential => ElecVars.Vscloc ev end.

Definition variable_tau (mv : MixedVariable) (ev : ElecVars.t) : DataRptrCollection :=
  match mv with density => ElecVars.tau ev | potential => ElecVars.Vtau ev end.

Definition set_variable_n (mv : MixedVariable) (v : DataRptrCollection) (ev : ElecVars.t) :=
  match mv with density => ElecVars.set_n v ev | potential => ElecVars.set_Vscloc v ev end.

Definition set_variable_tau (mv : MixedVariable) (v : DataRptrCollection) (ev : ElecVars.t) :=
  match mv with density => ElecVars.set_tau v ev | potential => ElecVars.set_Vtau v ev end.

(** ** SCF::mixPlain (lines 111-119) *)

(** One pass of the loop body, for spin channel [s].  The first statement
    writes through the reference [variable_n]; the second writes
    [e.eVars.tau[s]] and reads through the reference [variable_tau]. *)
Definition mixPlain_body (mixFraction : Q) (mv : MixedVariable)
    (prevVariable_n prevVariable_tau : DataRptrCollection)
    (e : Everything) (s : nat) : Everything :=
  let ev := eVars e in
  let ev1 :=
    set_variable_n mv
      (assign s (add (scale mixFraction (at_ (variable_n mv ev) s))
                     (scale (1 - mixFraction) (at_ prevVariable_n s)))
              (variable_n mv ev)) ev in
  let ev2 :=
    if needsKEdensity e
    then ElecVars.set_tau
           (assign s (add (scale mixFraction (at_ (variable_tau mv ev1) s))
                          (scale (1 - mixFraction) (at_ prevVariable_tau s)))
                   (ElecVars.tau ev1)) ev1
    else ev1 in
  with_eVars e ev2.

(** [for(size_t s=0; s<e.eVars.n.size(); s++)]; no pass changes the size
    of [e.eVars.n], so the bound is read once. *)
Definition mixPlain (mixFraction : Q) (mv : MixedVariable)
    (prevVariable_n prevVariable_tau : DataRptrCollection)
    (e : Everything) : Everything :=
  fold_left (mixPlain_body mixFraction mv prevVariable_n prevVariable_tau)
            (seq 0 (length (ElecVars.n (eVars e)))) e.

(** ** What the spec calls [mix(newField, oldField, alpha)] *)

(** Follows the spec's words: [alpha * new + (1 - alpha) * old], field by
    field and sample by sample. *)
Definition mix_field (alpha : Q) (newF oldF : DataRptr) : DataRptr :=
  zipWith (fun x y => alpha * x + (1 - alpha) * y) newF oldF.

Fixpoint mix_spec (alpha : Q) (newC oldC : DataRptrCollection) : DataRptrCollection :=
  match newC, oldC with
  | x :: newC', y :: oldC' => mix_field alpha x y :: mix_spec alpha newC' oldC'
  | _, _ => []
  end.

(** Two field sets have the same shape: as many fields, and field by field
    as many samples. *)
Definition same_shape (a b : DataRptrCollection) : Prop :=
  Forall2 (fun x y => length x = length y) a b.

(** Equality of field sets as exact numbers. *)
Definition Feq (X Y : DataRptr) : Prop := Forall2 Qeq X Y.
Definition Ceq (a b : DataRptrCollection) : Prop := Forall2 Feq a b.

(** ** Matrices *)

(** [std::complex<double>], its [.real()] and the conversion from [double]. *)
Definition complex := (Q * Q)%type.
Definition real (c : complex) : Q := fst c.
Definition of_double (x : Q) : complex := (x, 0).

(** Modelled from the spec: the class [matrix] (core/matrix.h) is not
    under src/.  The spec describes the overlap matrix as a matrix "of
    size <= H x H" with an "entry (i,j)"; a matrix is its two dimensions and
    its entries, [entry m i j] standing for [m.data()[m.index(i,j)]]. *)
Record matrix := mkMatrix
  { nRows : nat;
    nCols : nat;
    entry : nat -> nat -> complex }.

(** [m.set(i, j, v)]; outside the dimensions the model leaves [m] as it is. *)
Definition mset (i j : nat) (v : complex) (m : matrix) : matrix :=
  if (i <? nRows m)%nat && (j <? nCols m)%nat
  then mkMatrix (nRows m) (nCols m)
         (fun i' j' => if (i' =? i)%nat && (j' =? j)%nat then v else entry m i' j')
  else m.

(** [m(iStart, iStop, jStart, jStop)]. *)
Definition submatrix (m : matrix) (iStart iStop jStart jStop : nat) : matrix :=
  mkMatrix (iStop - iStart) (jStop - jStart)
           (fun i j => entry m (iStart + i) (jStart + j)).

(** ** The SCF object and the history vectors of [SCF::minimize] *)

(** The member [overlap] as the constructor (line 22) leaves it: [history]
    rows and columns, holding whatever [mem] the allocation returned. *)
Definition SCF_overlap (e : Everything) (mem : nat -> nat -> complex) : matrix :=
  mkMatrix (history (residualMinimizerParams e)) (history (residualMinimizerParams e)) mem.

Record SCFState := mkSCF
  { e : Everything;
    overlap : matrix;
    pastVariables_n : list DataRptrCollection;
    pastVariables_tau : list DataRptrCollection;
    pastResiduals : list DataRptrCollection }.

Definition rp (st : SCFState) : ResidualMinimizerParams := residualMinimizerParams (e st).

Definition with_e (st : SCFState) (e' : Everything) : SCFState :=
  mkSCF e' (overlap st) (pastVariables_n st) (pastVariables_tau st) (pastResiduals st).

(** ** SCF::mixDIIS (lines 121-187) *)

(** Lines 137-141, one pass for index [j]; [ndim] is the number of residuals
    after the new one has been pushed. *)
Definition overlap_body (dV : Q) (pastResiduals : list DataRptrCollection)
    (ov : matrix) (j : nat) : matrix :=
  let ndim := length pastResiduals in
  let tempOverlap := overlapResiduals dV (nth j pastResiduals []) (back pastResiduals) in
  let ov1 := mset j (ndim - 1) (of_double tempOverlap) ov in
  if negb (j =? ndim - 1)%nat then mset (ndim - 1) j (of_double tempOverlap) ov1 else ov1.

Definition updateOverlap (dV : Q) (pastResiduals : list DataRptrCollection)
    (ov : matrix) : matrix :=
  fold_left (overlap_body dV pastResiduals) (seq 0 (length pastResiduals)) ov.

(** Lines 164-166: the sum of the real parts of column 0 of the eigenvectors. *)
Definition evecNorm (overlapEvecs : matrix) (ndim : nat) : Q :=
  fold_left (fun norm j => norm + real (entry overlapEvecs j 0)) (seq 0 ndim) 0.

(** Line 177. *)
Definition weight (overlapEvecs : matrix) (norm : Q) (j : nat) : Q :=
  real (entry overlapEvecs j 0) / norm.

(** Lines 171-175, one pass for spin channel [s]: the three [*= 0.]. *)
Definition diis_zero_body (mv : MixedVariable) (needsKE : bool)
    (acc : ElecVars.t * DataRptrCollection) (s : nat) : ElecVars.t * DataRptrCollection :=
  let (ev, residual) := acc in
  let ev1 := set_variable_n mv
               (assign s (scale 0 (at_ (variable_n mv ev) s)) (variable_n mv ev)) ev in
  let residual1 := assign s (scale 0 (at_ residual s)) residual in
  let ev2 := if needsKE
             then set_variable_tau mv
                    (assign s (scale 0 (at_ (variable_tau mv ev1) s)) (variable_tau mv ev1)) ev1
             else ev1 in
  (ev2, residual1).

(** Lines 178-182, one pass for history index [j] and spin channel [s]. *)
Definition diis_acc_body (mv : MixedVariable) (needsKE : bool) (w : Q)
    (pV_n pV_tau pR : DataRptrCollection)
    (acc : ElecVars.t * DataRptrCollection) (s : nat) : ElecVars.t * DataRptrCollection :=
  let (ev, residual) := acc in
  let ev1 := set_variable_n mv
               (assign s (add (at_ (variable_n mv ev) s) (scale w (at_ pV_n s)))
                       (variable_n mv ev)) ev in
  let residual1 := assign s (add (at_ residual s) (scale w (at_ pR s))) residual in
  let ev2 := if needsKE
             then set_variable_tau mv
                    (assign s (add (at_ (variable_tau mv ev1) s) (scale w (at_ pV_tau s)))
                            (variable_tau mv ev1)) ev1
             else ev1 in
  (ev2, residual1).

(** What [mixDIIS] prints on the full-history path: the normalisation
    constant [norm] and the recombined [residual] whose norm it reports.
    The fallback path prints neither. *)
Record DIISLog := mkDIISLog
  { log_norm : Q;
    log_residual : DataRptrCollection }.

(** [mixFraction] is the default argument of [mixPlain], declared in SCF.h
    (not under src/); [diagonalize] is [matrix::diagonalize], which
    returns the eigenvectors (as columns) and the eigenvalues. *)
Definition mixDIIS (mixFraction : Q) (diagonalize : matrix -> matrix * list Q)
    (st : SCFState) : SCFState * option DIISLog :=
  let mv := mixedVariable (rp st) in
  let nspin := length (ElecVars.n (eVars (e st))) in
  (* Cache the current residual *)
  let temp := axpy (-1) (back (pastVariables_n st)) (variable_n mv (eVars (e st))) in
  let pastResiduals' := pastResiduals st ++ [temp] in
  let ndim := length pastResiduals' in
  (* Compute the overlap of the new residual with the older ones *)
  let overlap' := updateOverlap (dV (e st)) pastResiduals' (overlap st) in
  let st1 := mkSCF (e st) overlap' (pastVariables_n st) (pastVariables_tau st) pastResiduals' in
  if negb (ndim =? history (rp st))%nat
  then (with_e st1 (mixPlain mixFraction mv (back (pastVariables_n st))
                             (back (pastVariables_tau st)) (e st)), None)
  else
    let thisOverlap := submatrix overlap' 0 ndim 0 ndim in
    let overlapEvecs := fst (diagonalize thisOverlap) in
    let norm := evecNorm overlapEvecs ndim in
    let zeroed :=
      fold_left (diis_zero_body mv (needsKEdensity (e st))) (seq 0 nspin)
                (eVars (e st), back pastResiduals') in
    let mixed :=
      fold_left
        (fun acc j =>
           fold_left (diis_acc_body mv (needsKEdensity (e st)) (weight overlapEvecs norm j)
                        (nth j (pastVariables_n st) []) (nth j (pastVariables_tau st) [])
                        (nth j pastResiduals' []))
                     (seq 0 nspin) acc)
        (seq 0 ndim) zeroed in
    (with_e st1 (with_eVars (e st) (fst mixed)), Some (mkDIISLog norm (snd mixed))).

(** ** SCF::minimize (lines 31-109) *)

(** The collaborators of the loop whose code is not under src/.  [Hidden]
    is the rest of [Everything] (wavefunctions, energies, control flags).
    - [bandMinimize]: lines 73-81, the band minimisers of all states at fixed
      Hamiltonian;
    - [elecEnergyAndGrad]: [e.iInfo.update] followed by
      [eVars.elecEnergyAndGrad], which returns the energy;
    - [EdensityAndVscloc]: [e.eVars.EdensityAndVscloc];
    - [E_indeterminate]: the value of the local [E], declared without an
      initialiser on line 54 and read on line 68 of the first pass. *)
Record External (Hidden : Type) := mkExternal
  { defaultMixFraction : Q;
    diagonalize : matrix -> matrix * list Q;
    bandMinimize : Hidden -> ElecVars.t -> Hidden * ElecVars.t;
    elecEnergyAndGrad : Hidden -> ElecVars.t -> Q * (Hidden * ElecVars.t);
    EdensityAndVscloc : Hidden -> ElecVars.t -> Hidden * ElecVars.t;
    E_indeterminate : Q }.

Arguments defaultMixFraction {Hidden} _.
Arguments diagonalize {Hidden} _ _.
Arguments bandMinimize {Hidden} _ _ _.
Arguments elecEnergyAndGrad {Hidden} _ _ _.
Arguments EdensityAndVscloc {Hidden} _ _ _.
Arguments E_indeterminate {Hidden} _.

(** One line "SCF Iter: ..." of the log (line 87). *)
Record IterLog := mkIterLog
  { it_scfCounter : nat;
    it_Eprev : Q;
    it_E : Q }.

Record LoopState (Hidden : Type) := mkLoop
  { scf : SCFState;
    hidden : Hidden;
    Eprev : Q;
    E : Q;
    iterLog : list IterLog }.

Arguments mkLoop {Hidden} _ _ _ _ _.
Arguments scf {Hidden} _.
Arguments hidden {Hidden} _.
Arguments Eprev {Hidden} _.
Arguments E {Hidden} _.
Arguments iterLog {Hidden} _.

Definition Qltb (x y : Q) : bool := negb (Qle_bool y x).

(** Lines 59-65. *)
Definition clearHistoryIfFull (st : SCFState) : SCFState :=
  if (history (rp st) <=? length (pastResiduals st))%nat
     || (history (rp st) <=? length (pastVariables_n st))%nat
  then mkSCF (e st) (overlap st) []
             (if needsKEdensity (e st) then [] else pastVariables_tau st)
             (match vectorExtrapolationMethod (rp st) with
              | DIIS => []
              | plainMixing => pastResiduals st
              end)
  else st.

(** Lines 69-70. *)
Definition cacheVariables (st : SCFState) : SCFState :=
  let mv := mixedVariable (rp st) in
  mkSCF (e st) (overlap st)
        (pastVariables_n st ++ [variable_n mv (eVars (e st))])
        (if needsKEdensity (e st)
         then pastVariables_tau st ++ [variable_tau mv (eVars (e st))]
         else pastVariables_tau st)
        (pastResiduals st).

Section Minimize.
Context {Hidden : Type} (X : External Hidden).

(** Lines 59-70: clear the history if full, cache the old energy and
    variables. *)
Definition cacheOld (st : LoopState Hidden) : LoopState Hidden :=
  mkLoop (cacheVariables (clearHistoryIfFull (scf st))) (hidden st) (E st) (E st) (iterLog st).

(** Lines 72-87: solve at fixed Hamiltonian, compute the new density and
    energy, print the iteration line. *)
Definition solveStep (scfCounter : nat) (st : LoopState Hidden) : LoopState Hidden :=
  let (h1, ev1) := bandMinimize X (hidden st) (eVars (e (scf st))) in
  let (E', hev) := elecEnergyAndGrad X h1 ev1 in
  let (h2, ev2) := hev in
  mkLoop (with_e (scf st) (with_eVars (e (scf st)) ev2)) h2 (Eprev st) E'
         (iterLog st ++ [mkIterLog scfCounter (Eprev st) E']).

(** Line 90. *)
Definition convergedTest (st : LoopState Hidden) : bool :=
  Qltb (Qabs (E st - Eprev st)) (energyDiffThreshold (rp (scf st))).

(** Lines 96-105. *)
Definition mixStep (st : LoopState Hidden) : LoopState Hidden :=
  let s := scf st in
  let s1 :=
    match vectorExtrapolationMethod (rp s) with
    | plainMixing =>
        with_e s (mixPlain (defaultMixFraction X) (mixedVariable (rp s))
                           (back (pastVariables_n s)) (back (pastVariables_tau s)) (e s))
    | DIIS => fst (mixDIIS (defaultMixFraction X) (diagonalize X) s)
    end in
  match mixedVariable (rp s) with
  | density =>
      let (h, ev) := EdensityAndVscloc X (hidden st) (eVars (e s1)) in
      mkLoop (with_e s1 (with_eVars (e s1) ev)) h (Eprev st) (E st) (iterLog st)
  | potential => mkLoop s1 (hidden st) (Eprev st) (E st) (iterLog st)
  end.

(** The outcome of a run: the state when the loop is left, whether it was
    left by the [break] of line 92, and how many passes of the loop body
    were started. *)
Record Result := mkResult
  { final : LoopState Hidden;
    converged : bool;
    iterationsUsed : nat }.

(** The [for] loop of line 57; [todo] is [nIterations - scfCounter]. *)
Fixpoint scfLoop (todo scfCounter : nat) (st : LoopState Hidden) : Result :=
  match todo with
  | O => mkResult st false scfCounter
  | S todo' =>
      let st1 := solveStep scfCounter (cacheOld st) in
      if convergedTest st1
      then mkResult st1 true (S scfCounter)
      else scfLoop todo' (S scfCounter) (mixStep st1)
  end.

(** Lines 37-54: energy of the initial guess, empty histories,
    [double Eprev = 0, E;]. *)
Definition initialState (e0 : Everything) (overlap0 : matrix) (h0 : Hidden)
    : LoopState Hidden :=
  let (_, hev) := elecEnergyAndGrad X h0 (eVars e0) in
  let (h1, ev1) := hev in
  mkLoop (mkSCF (with_eVars e0 ev1) overlap0 [] [] []) h1 0 (E_indeterminate X) [].

Definition minimize (e0 : Everything) (overlap0 : matrix) (h0 : Hidden) : Result :=
  scfLoop (Z.to_nat (nIterations (residualMinimizerParams e0))) 0
          (initialState e0 overlap0 h0).

(** The states of the SCF object at the program points of a run, in
    order: after the history has been cleared (line 65), after the
    variables have been cached (line 70), after the solve (line 87), and,
    unless the loop is left, after the mixing (line 106). *)
Fixpoint scfPoints (todo scfCounter : nat) (st : LoopState Hidden) : list SCFState :=
  match todo with
  | O => []
  | S todo' =>
      let st1 := solveStep scfCounter (cacheOld st) in
      clearHistoryIfFull (scf st) :: scf (cacheOld st) :: scf st1 ::
      (if convergedTest st1 then []
       else scf (mixStep st1) :: scfPoints todo' (S scfCounter) (mixStep st1))
  end.

Definition runPoints (e0 : Everything) (overlap0 : matrix) (h0 : Hidden) : list SCFState :=
  scf (initialState e0 overlap0 h0)
  :: scfPoints (Z.to_nat (nIterations (residualMinimizerParams e0))) 0
               (initialState e0 overlap0 h0).
End Minimize.

Arguments final {Hidden} _.
Arguments converged {Hidden} _.
Arguments iterationsUsed {Hidden} _.

(** ** Closed forms, invariants and the spec's own notions *)

(** Lines 115 and 117 after [k] passes, in closed form: the first [k] fields
    of [dst] are replaced by the mix of [src] and [old], the others are
    still those of [dst]. *)
Definition mixedPrefix (alpha : Q) (k : nat) (src old dst : DataRptrCollection)
    : DataRptrCollection :=
  map (fun s => add (scale alpha (at_ src s)) (scale (1 - alpha) (at_ old s))) (seq 0 k)
  ++ skipn k dst.

(** The record after [k] passes of the loop of [mixPlain]. *)
Definition mixPlain_after (alpha : Q) (mv : MixedVariable)
    (prev_n prev_tau : DataRptrCollection) (e : Everything) (k : nat) : Everything :=
  let ev := eVars e in
  let ev1 := set_variable_n mv (mixedPrefix alpha k (variable_n mv ev) prev_n (variable_n mv ev)) ev in
  with_eVars e
    (if needsKEdensity e
     then ElecVars.set_tau
            (mixedPrefix alpha k (variable_tau mv ev) prev_tau (ElecVars.tau ev)) ev1
     else ev1).

(** The shape conditions under which the loop of [mixPlain] stays in range:
    the mixed variable and the previous variable have one field per entry of
    [e.eVars.n], with matching grids; with the kinetic-energy density
    enabled, so have [e.eVars.tau], the auxiliary variable and its previous
    value. *)
Definition mixPlain_shapes (mv : MixedVariable) (prev_n prev_tau : DataRptrCollection)
    (e : Everything) : Prop :=
  length (variable_n mv (eVars e)) = length (ElecVars.n (eVars e))
  /\ same_shape (variable_n mv (eVars e)) prev_n
  /\ (needsKEdensity e = true ->
      length (ElecVars.tau (eVars e)) = length (ElecVars.n (eVars e))
      /\ length (variable_tau mv (eVars e)) = length (ElecVars.n (eVars e))
      /\ same_shape (variable_tau mv (eVars e)) prev_tau).

(** The matrix after [k] passes of the loop of lines 137-141. *)
Definition overlap_after (dV : Q) (pR : list DataRptrCollection) (ov : matrix)
    (k : nat) (i j : nat) : complex :=
  let ndim := length pR in
  if (j =? ndim - 1)%nat && (i <? k)%nat
  then of_double (overlapResiduals dV (nth i pR []) (back pR))
  else if (i =? ndim - 1)%nat && (j <? k)%nat
       then of_double (overlapResiduals dV (nth j pR []) (back pR))
       else entry ov i j.

(** Follows the spec's words: the inner product of two residuals is the sum
    over the fields of the point-wise product integrated over the domain. *)
Fixpoint innerProduct (dV : Q) (r1 r2 : DataRptrCollection) : Q :=
  match r1, r2 with
  | x :: r1', y :: r2' => integral dV (mul x y) + innerProduct dV r1' r2'
  | _, _ => 0
  end.

(** The block of [ov] indexed by the residuals in [pR] holds their
    overlaps, each as line 138 computes it: of the older residual with the
    newer one. *)
Definition OverlapExact (dV : Q) (pR : list DataRptrCollection) (ov : matrix) : Prop :=
  forall i j, (i < length pR)%nat -> (j < length pR)%nat ->
    entry ov i j
    = of_double (overlapResiduals dV (nth (Nat.min i j) pR []) (nth (Nat.max i j) pR [])).

(** A collection after each of its fields [s] has been replaced by
    [g s] of itself. *)
Definition imap (g : nat -> list Q -> list Q) (c : DataRptrCollection) : DataRptrCollection :=
  map (fun s => g s (at_ c s)) (seq 0 (length c)).

(** The same after the first [k] fields only. *)
Definition updPrefix (g : nat -> list Q -> list Q) (k : nat) (c : DataRptrCollection)
    : DataRptrCollection :=
  map (fun s => g s (at_ c s)) (seq 0 k) ++ skipn k c.

(** The common form of the loop bodies of lines 171-175 and 178-182. *)
Definition diis_body (mv : MixedVariable) (needsKE : bool)
    (gn gt gr : nat -> list Q -> list Q)
    (acc : ElecVars.t * DataRptrCollection) (s : nat) : ElecVars.t * DataRptrCollection :=
  let (ev, residual) := acc in
  let ev1 := set_variable_n mv
               (assign s (gn s (at_ (variable_n mv ev) s)) (variable_n mv ev)) ev in
  let residual1 := assign s (gr s (at_ residual s)) residual in
  let ev2 := if needsKE
             then set_variable_tau mv
                    (assign s (gt s (at_ (variable_tau mv ev1) s)) (variable_tau mv ev1)) ev1
             else ev1 in
  (ev2, residual1).

(** The state after [k] passes of a spin-channel loop of [mixDIIS]. *)
Definition diis_after (mv : MixedVariable) (needsKE : bool)
    (gn gt gr : nat -> list Q -> list Q) (k : nat)
    (acc : ElecVars.t * DataRptrCollection) : ElecVars.t * DataRptrCollection :=
  let ev1 := set_variable_n mv (updPrefix gn k (variable_n mv (fst acc))) (fst acc) in
  (if needsKE
   then set_variable_tau mv (updPrefix gt k (variable_tau mv (fst acc))) ev1
   else ev1,
   updPrefix gr k (snd acc)).

(** [c += w * p], field by field (lines 179-181 for one history index). *)
Definition axpyC (w : Q) (p c : DataRptrCollection) : DataRptrCollection :=
  imap (fun s x => add x (scale w (at_ p s))) c.

(** [c *= 0.], field by field (lines 172-174). *)
Definition zeroC (c : DataRptrCollection) : DataRptrCollection :=
  imap (fun _ x => scale 0 x) c.

(** The accumulation of lines 176-183 over the history indices [js]. *)
Definition combine_hist (w : nat -> Q) (hist : list DataRptrCollection) (js : list nat)
    (c0 : DataRptrCollection) : DataRptrCollection :=
  fold_left (fun c j => axpyC (w j) (nth j hist []) c) js c0.

(** A field set of [ns] fields with [g] samples each. *)
Definition shaped (ns g : nat) (c : DataRptrCollection) : Prop :=
  length c = ns /\ forall s, (s < ns)%nat -> length (at_ c s) = g.

(** The residual pushed on line 131 and the history after the push. *)
Definition newResidual (st : SCFState) : DataRptrCollection :=
  axpy (-1) (back (pastVariables_n st))
       (variable_n (mixedVariable (rp st)) (eVars (e st))).

Definition residualsAfterPush (st : SCFState) : list DataRptrCollection :=
  pastResiduals st ++ [newResidual st].

(** The eigenvectors computed on line 152, the sum of line 166 and the
    weights of line 177. *)
Definition diisEvecs (diagonalize : matrix -> matrix * list Q) (st : SCFState) : matrix :=
  let ndim := length (residualsAfterPush st) in
  fst (diagonalize
         (submatrix (updateOverlap (dV (e st)) (residualsAfterPush st) (overlap st))
                    0 ndim 0 ndim)).

Definition diisNorm (diagonalize : matrix -> matrix * list Q) (st : SCFState) : Q :=
  evecNorm (diisEvecs diagonalize st) (length (residualsAfterPush st)).

Definition diisWeight (diagonalize : matrix -> matrix * list Q) (st : SCFState) (j : nat) : Q :=
  weight (diisEvecs diagonalize st) (diisNorm diagonalize st) j.

(** Follows the spec's words: sample [i] of field [s] of the [w]-weighted
    linear combination of the first [ndim] entries of a history. *)
Definition lincomb (w : nat -> Q) (ndim : nat) (hist : list DataRptrCollection)
    (s i : nat) : Q :=
  sum (map (fun j => w j * nth i (at_ (nth j hist []) s) 0) (seq 0 ndim)).

(** All field sets that [mixDIIS] touches have [ns] fields of [g] samples,
    [ns] being [e.eVars.n.size()]. *)
Definition diis_shapes (ns g : nat) (st : SCFState) : Prop :=
  let mv := mixedVariable (rp st) in
  length (ElecVars.n (eVars (e st))) = ns
  /\ shaped ns g (variable_n mv (eVars (e st)))
  /\ (forall j, (j < length (pastVariables_n st))%nat ->
        shaped ns g (nth j (pastVariables_n st) []))
  /\ (forall j, (j < length (pastResiduals st))%nat ->
        shaped ns g (nth j (pastResiduals st) []))
  /\ (needsKEdensity (e st) = true ->
      shaped ns g (variable_tau mv (eVars (e st)))
      /\ length (pastVariables_tau st) = length (pastVariables_n st)
      /\ forall j, (j < length (pastVariables_tau st))%nat ->
           shaped ns g (nth j (pastVariables_tau st) [])).

(** The log when pass [k] of the loop starts: [k] lines, the last of which
    carries the energy now held in [E]. *)
Definition LogInv {Hidden : Type} (k : nat) (st : LoopState Hidden) : Prop :=
  length (iterLog st) = k
  /\ forall k', k = S k' -> it_E (nth k' (iterLog st) (mkIterLog 0 0 0)) = E st.

(** How a run that converged ended: in pass [k], whose log line is the last
    one, with an energy change below the threshold; and from the second pass
    on the energy it was compared with is the one of the line before. *)
Definition ConvergedAt {Hidden : Type} (r : Result (Hidden := Hidden)) (k : nat) : Prop :=
  let lg := iterLog (final r) in
  let line := nth k lg (mkIterLog 0 0 0) in
  iterationsUsed r = S k
  /\ length lg = S k
  /\ it_scfCounter line = k
  /\ it_E line = E (final r) /\ it_Eprev line = Eprev (final r)
  /\ Qabs (it_E line - it_Eprev line) < energyDiffThreshold (rp (scf (final r)))
  /\ forall k', k = S k' -> it_Eprev line = it_E (nth k' lg (mkIterLog 0 0 0)).

(** No history vector is longer than [H]. *)
Definition HistoryBounded (H : nat) (st : SCFState) : Prop :=
  (length (pastVariables_n st) <= H)%nat
  /\ (length (pastVariables_tau st) <= H)%nat
  /\ (length (pastResiduals st) <= H)%nat.

(** The lengths of the history vectors, with [d] the number of snapshots
    pushed in this pass that have no residual yet (0 at the head of the
    loop, 1 between line 70 and the mixing) and [m >= length pastVariables_n]. *)
Definition HistoryInv (RP : ResidualMinimizerParams) (KE : bool) (d m : nat)
    (st : SCFState) : Prop :=
  residualMinimizerParams (e st) = RP
  /\ needsKEdensity (e st) = KE
  /\ (d <= length (pastVariables_n st) <= m)%nat
  /\ length (pastVariables_tau st) = (if KE then length (pastVariables_n st) else 0%nat)
  /\ length (pastResiduals st)
     = match vectorExtrapolationMethod RP with
       | DIIS => (length (pastVariables_n st) - d)%nat
       | plainMixing => 0%nat
       end.

(** The overlap matrix has room for [H] residuals and its block of the
    stored residuals is valid. *)
Definition OverlapInv (H : nat) (st : SCFState) : Prop :=
  OverlapExact (dV (e st)) (pastResiduals st) (overlap st)
  /\ (H <= nRows (overlap st))%nat /\ (H <= nCols (overlap st))%nat.

(** ** Concrete inputs *)

Definition ex1_e : Everything :=
  mkE (ElecVars.mk [[1]] [[0]] [] []) (mkRP 5 1 (1#1000) DIIS density) false 1.

Definition ex1_st : SCFState :=
  mkSCF ex1_e (mkMatrix 1 1 (fun _ _ => (0, 0))) [[[0]]] [] [].

(** Three stored snapshots [5], residuals [1] and [1], and the field [6],
    whose residual against the last snapshot is again [1]. *)
Definition ex2_e : Everything :=
  mkE (ElecVars.mk [[6]] [[0]] [] []) (mkRP 5 3 (1#1000) DIIS density) false 1.

Definition ex2_overlap : matrix :=
  mkMatrix 3 3 (fun i j => if (i <? 2)%nat && (j <? 2)%nat then (1, 0) else (0, 0)).

Definition ex2_st : SCFState :=
  mkSCF ex2_e ex2_overlap [[[5]]; [[5]]; [[5]]] [] [[[1]]; [[1]]].

(** An eigen-decomposition of the 3 x 3 matrix of ones, eigenvalues in
    ascending order: columns (1,-1,0) and (1,1,-2) for 0, (1,1,1) for 3. *)
Definition ex2_diagonalize (_ : matrix) : matrix * list Q :=
  (mkMatrix 3 3
     (fun i j =>
        match j, i with
        | O, O => (1, 0) | O, S O => (-1 # 1, 0) | O, _ => (0, 0)
        | S O, O => (1, 0) | S O, S O => (1, 0) | S O, _ => (-2 # 1, 0)
        | _, _ => (1, 0)
        end),
   [0; 0; 3]).

(** A run whose first energy, 1/1000, is within the threshold 1/100 of the
    value that the uninitialised [E] happens to hold, 0. *)
Definition ex3_X : External unit :=
  mkExternal unit (1 # 2) ex2_diagonalize
             (fun h ev => (h, ev))
             (fun h ev => (1 # 1000, (h, ev)))
             (fun h ev => (h, ev))
             0.

Definition ex3_e : Everything :=
  mkE (ElecVars.mk [[1]] [[0]] [] []) (mkRP 5 3 (1 # 100) plainMixing density) false 1.

(** Potentials are mixed, the kinetic-energy density is enabled. *)
Definition ex4_e : Everything :=
  mkE (ElecVars.mk [[1; 2]] [[3; 4]] [[5; 6]] [[7; 8]])
      (mkRP 5 3 (1 # 100) plainMixing potential) true 1.

(** One stored residual, whose self overlap 5 is in the matrix, and a new
    one. *)
Definition ex5_overlap : matrix :=
  mkMatrix 2 2 (fun i j => if (i =? 0)%nat && (j =? 0)%nat then (5, 0) else (0, 0)).

(** A full history of two: snapshots [0] and [1], residual [2], field [3];
    the eigenvector returned in column 0 is (1, 1). *)
Definition ex6_e : Everything :=
  mkE (ElecVars.mk [[3]] [[0]] [] []) (mkRP 5 2 (1 # 1000) DIIS density) false 1.

Definition ex6_st : SCFState :=
  mkSCF ex6_e (mkMatrix 2 2 (fun i j => if (i =? 0)%nat && (j =? 0)%nat then (4, 0) else (0, 0)))
        [[[0]]; [[1]]] [] [[[2]]].

Definition ex6_diagonalize (_ : matrix) : matrix * list Q :=
  (mkMatrix 2 2 (fun i j => match j with O => (1, 0) | _ => (if (i =? 0)%nat then 1 else -1 # 1, 0) end),
   [0; 8]).

(** The first of three passes: one snapshot, no residual yet. *)
Definition ex7_st : SCFState := mkSCF ex2_e ex2_overlap [[[5]]] [] [].

(** One pass allowed; the first energy, 5, is far from the value 0 that [E]
    holds before the loop. *)
Definition ex8_X : External unit :=
  mkExternal unit (1 # 2) ex2_diagonalize
             (fun h ev => (h, ev))
             (fun h ev => (5, (h, ev)))
             (fun h ev => (h, ev))
             0.

Definition ex8_e : Everything :=
  mkE (ElecVars.mk [[1]] [[0]] [] []) (mkRP 1 3 (1 # 100) DIIS density) false 1.

(** Five passes of DIIS with depth 3 and an energy that changes by 1 in
    every pass. *)
Definition ex9_X : External nat :=
  mkExternal nat (1 # 2) ex2_diagonalize
             (fun h ev => (h, ev))
             (fun h ev => (inject_Z (Z.of_nat h), (S h, ev)))
             (fun h ev => (h, ev))
             (-1 # 1).

Definition ex9_e : Everything :=
  mkE (ElecVars.mk [[1]] [[0]] [] []) (mkRP 5 3 (1 # 100) DIIS density) false 1.

(** ** Further notions used by the properties *)

(** The primary variable that is not the mixed one. *)
Definition otherVariable (mv : MixedVariable) : MixedVariable :=
  match mv with density => potential | potential => density end.

(** What [mixPlain] leaves alone, whatever the shapes: the configuration,
    [Vtau], the primary variable that is not mixed, the sizes of the four
    collections and, without the kinetic-energy density, [tau]. *)
Definition mixPlain_untouched (mv : MixedVariable) (e e' : Everything) : Prop :=
  residualMinimizerParams e' = residualMinimizerParams e
  /\ needsKEdensity e' = needsKEdensity e
  /\ dV e' = dV e
  /\ ElecVars.Vtau (eVars e') = ElecVars.Vtau (eVars e)
  /\ variable_n (otherVariable mv) (eVars e') = variable_n (otherVariable mv) (eVars e)
  /\ length (ElecVars.n (eVars e')) = length (ElecVars.n (eVars e))
  /\ length (ElecVars.Vscloc (eVars e')) = length (ElecVars.Vscloc (eVars e))
  /\ length (ElecVars.tau (eVars e')) = length (ElecVars.tau (eVars e))
  /\ (needsKEdensity e = false -> ElecVars.tau (eVars e') = ElecVars.tau (eVars e)).

(** The iteration lines of a log are numbered from 0, and each line after
    the first carries in [Eprev] the energy of the line before. *)
Definition LogChained (lg : list IterLog) : Prop :=
  (forall i, (i < length lg)%nat -> it_scfCounter (nth i lg (mkIterLog 0 0 0)) = i)
  /\ (forall i, (S i < length lg)%nat ->
        it_Eprev (nth (S i) lg (mkIterLog 0 0 0)) = it_E (nth i lg (mkIterLog 0 0 0))).

(** The energy change printed on a line is not below [eps]. *)
Definition notBelow (eps : Q) (line : IterLog) : Prop :=
  ~ Qabs (it_E line - it_Eprev line) < eps.

(** The log and the configuration when pass [k] of the loop starts. *)
Definition LogHead {Hidden : Type} (RP : ResidualMinimizerParams) (k : nat)
    (st : LoopState Hidden) : Prop :=
  residualMinimizerParams (e (scf st)) = RP
  /\ length (iterLog st) = k
  /\ LogChained (iterLog st)
  /\ (forall i, (i < k)%nat ->
        notBelow (energyDiffThreshold RP) (nth i (iterLog st) (mkIterLog 0 0 0)))
  /\ (forall k', k = S k' -> it_E (nth k' (iterLog st) (mkIterLog 0 0 0)) = E st).

(** Neither a residual has been stored nor the overlap matrix written. *)
Definition ResidualsUnused (overlap0 : matrix) (st : SCFState) : Prop :=
  pastResiduals st = [] /\ overlap st = overlap0.

(** The state at the head of pass [k] of a run in which no earlier pass met
    the threshold. *)
Fixpoint headState {Hidden : Type} (X : External Hidden) (e0 : Everything)
    (overlap0 : matrix) (h0 : Hidden) (k : nat) : LoopState Hidden :=
  match k with
  | O => initialState X e0 overlap0 h0
  | S k' => mixStep X (solveStep X k' (cacheOld (headState X e0 overlap0 h0 k')))
  end.

(** The state of pass [k] when the convergence test is made and, if it
    fails, the mixer is called. *)
Definition solvedState {Hidden : Type} (X : External Hidden) (e0 : Everything)
    (overlap0 : matrix) (h0 : Hidden) (k : nat) : LoopState Hidden :=
  solveStep X k (cacheOld (headState X e0 overlap0 h0 k)).

(** Pass [k] is reached: the cap allows it and no earlier pass converged. *)
Definition passReached {Hidden : Type} (X : External Hidden) (e0 : Everything)
    (overlap0 : matrix) (h0 : Hidden) (k : nat) : Prop :=
  (k < Z.to_nat (nIterations (residualMinimizerParams e0)))%nat
  /\ forall j, (j < k)%nat -> convergedTest (solvedState X e0 overlap0 h0 j) = false.

(** The same configuration with another mixing method. *)
Definition withMethod (m : VectorExtrapolationMethod) (e0 : Everything) : Everything :=
  mkE (eVars e0)
      (mkRP (nIterations (residualMinimizerParams e0)) (history (residualMinimizerParams e0))
            (energyDiffThreshold (residualMinimizerParams e0)) m
            (mixedVariable (residualMinimizerParams e0)))
      (needsKEdensity e0) (dV e0).

(** Two loop states agree in all but the mixing method, the residuals and
    the overlap matrix. *)
Definition SameButMethod {Hidden : Type} (st st' : LoopState Hidden) : Prop :=
  hidden st = hidden st'
  /\ E st = E st' /\ Eprev st = Eprev st' /\ iterLog st = iterLog st'
  /\ eVars (e (scf st)) = eVars (e (scf st'))
  /\ needsKEdensity (e (scf st)) = needsKEdensity (e (scf st'))
  /\ dV (e (scf st)) = dV (e (scf st'))
  /\ pastVariables_n (scf st) = pastVariables_n (scf st')
  /\ pastVariables_tau (scf st) = pastVariables_tau (scf st')
  /\ history (rp (scf st)) = history (rp (scf st'))
  /\ energyDiffThreshold (rp (scf st)) = energyDiffThreshold (rp (scf st'))
  /\ mixedVariable (rp (scf st)) = mixedVariable (rp (scf st'))
  /\ vectorExtrapolationMethod (rp (scf st)) = DIIS
  /\ vectorExtrapolationMethod (rp (scf st')) = plainMixing.

(** * WannierMinimizer.cpp *)

Module WannierMinimizer.

(** ** Kpoint::operator< and Kpoint::operator== (lines 129-143)

    [struct Kpoint] is declared in WannierMinimizer.h, not under src/; the
    two operators use its members [q], [iRot], [invert] (integers) and
    [offset] (a [vector3<int>], three integers); the member [k] (a
    [vector3<>], read on lines 186 and 279) is not compared.  The comparison
    operators of [vector3<int>] (core/vector3.h, not under src/) are
    parameters. *)

Record Kpoint := mkKpoint
  { k : Q * Q * Q;
    q : Z;
    iRot : Z;
    invert : Z;
    offset : Z * Z * Z }.

Record Vector3Ops := mkVector3Ops
  { v3_eq : Z * Z * Z -> Z * Z * Z -> bool;
    v3_lt : Z * Z * Z -> Z * Z * Z -> bool }.

Definition Kpoint_lt (V : Vector3Ops) (a other : Kpoint) : bool :=
  if negb (q a =? q other)%Z then (q a <? q other)%Z
  else if negb (iRot a =? iRot other)%Z then (iRot a <? iRot other)%Z
  else if negb (invert a =? invert other)%Z then (invert a <? invert other)%Z
  else if negb (v3_eq V (offset a) (offset other)) then v3_lt V (offset a) (offset other)
  else false.

Definition Kpoint_eq (V : Vector3Ops) (a other : Kpoint) : bool :=
  if negb (q a =? q other)%Z then false
  else if negb (iRot a =? iRot other)%Z then false
  else if negb (invert a =? invert other)%Z then false
  else if negb (v3_eq V (offset a) (offset other)) then false
  else true.

(** What the properties of the two operators need of those of
    [vector3<int>]: [==] decides equality and [<] is a strict total
    order. *)
Definition Vector3Ordered (V : Vector3Ops) : Prop :=
  (forall a b, v3_eq V a b = true <-> a = b)
  /\ (forall a, v3_lt V a a = false)
  /\ (forall a b c, v3_lt V a b = true -> v3_lt V b c = true -> v3_lt V a c = true)
  /\ (forall a b, a <> b -> v3_lt V a b = true \/ v3_lt V b a = true).

(** The lexicographic comparison of three integers, an instance of the
    parameters. *)
Definition lex3 : Vector3Ops :=
  mkVector3Ops
    (fun a b =>
       let '(a0, a1, a2) := a in let '(b0, b1, b2) := b in
       ((a0 =? b0) && (a1 =? b1) && (a2 =? b2))%Z)
    (fun a b =>
       let '(a0, a1, a2) := a in let '(b0, b1, b2) := b in
       if negb (a0 =? b0)%Z then (a0 <? b0)%Z
       else if negb (a1 =? b1)%Z then (a1 <? b1)%Z
       else (a2 <? b2)%Z).

(** ** hydrogenicTilde (lines 226-255)

    [pow(1.+nGsq, n+1)] has an integer exponent and is [Qpower] here.  The
    inner [switch]es have no [break] after them: when no [case] of an inner
    [switch] matches, control falls into the next [case] of the outer one.
    [fromK] is the code from [case K:] of the outer [switch] to the final
    [return 0.]. *)
Definition hydrogenicTilde (G a : Q) (nIn l : Z) (normPrefac : Q) : Q :=
  let n := (nIn + 1 + l)%Z in
  let nG := inject_Z n * G * a / inject_Z (l + 1) in
  let nGsq := nG * nG in
  let prefac := normPrefac / Qpower (1 + nGsq) (n + 1) in
  let from3 :=
    match n with
    | 4%Z => prefac * 6144 * nG * nGsq
    | _ => 0
    end in
  let from2 :=
    match n with
    | 3%Z => prefac * 288 * nGsq
    | 4%Z => prefac * 3072 * nGsq * (-1 + nGsq)
    | _ => from3
    end in
  let from1 :=
    match n with
    | 2%Z => prefac * 16 * nG
    | 3%Z => prefac * 144 * nG * (-1 + nGsq)
    | 4%Z => prefac * 128 * nG * (5 + nGsq * (-14 + nGsq * 5))
    | _ => from2
    end in
  let from0 :=
    match n with
    | 1%Z => prefac
    | 2%Z => prefac * 8 * (-1 + nGsq)
    | 3%Z => prefac * 9 * (3 + nGsq * (-10 + nGsq * 3))
    | 4%Z => prefac * 64 * (-1 + nGsq * (7 + nGsq * (-7 + nGsq)))
    | _ => from1
    end in
  match l with
  | 0%Z => from0
  | 1%Z => from1
  | 2%Z => from2
  | 3%Z => from3
  | _ => 0
  end.

(** The table that the [switch] is meant to be: one entry for each angular
    momentum [l] and principal quantum number [n], zero elsewhere. *)
Definition hydrogenicTable (nG prefac : Q) (l n : Z) : Q :=
  let nGsq := nG * nG in
  match l, n with
  | 0%Z, 1%Z => prefac
  | 0%Z, 2%Z => prefac * 8 * (-1 + nGsq)
  | 0%Z, 3%Z => prefac * 9 * (3 + nGsq * (-10 + nGsq * 3))
  | 0%Z, 4%Z => prefac * 64 * (-1 + nGsq * (7 + nGsq * (-7 + nGsq)))
  | 1%Z, 2%Z => prefac * 16 * nG
  | 1%Z, 3%Z => prefac * 144 * nG * (-1 + nGsq)
  | 1%Z, 4%Z => prefac * 128 * nG * (5 + nGsq * (-14 + nGsq * 5))
  | 2%Z, 3%Z => prefac * 288 * nGsq
  | 2%Z, 4%Z => prefac * 3072 * nGsq * (-1 + nGsq)
  | 3%Z, 4%Z => prefac * 6144 * nG * nGsq
  | _, _ => 0
  end.

End WannierMinimizer.

(** * Coulomb_internal.h *)

Module Coulomb_internal.

(** An [int] is 32 bits wide and a [size_t] 64; [int_wrap] and [size_t_wrap]
    are the values that arithmetic in these types keeps.  Under the bounds of
    the properties below nothing wraps. *)
Definition int_wrap (x : Z) : Z := ((x + 2 ^ 31) mod 2 ^ 32 - 2 ^ 31)%Z.
Definition size_t_wrap (x : Z) : Z := (x mod 2 ^ 64)%Z.

(** [x % s] followed by [if(x<0) x += s] (lines 183-184); the
    remainder of C++ truncates towards zero ([Z.rem]). *)
Definition reduce (x s : Z) : Z :=
  let r := Z.rem x s in
  if (r <? 0)%Z then int_wrap (r + s) else r.

(** The index [iReal] that [multTransformedKernel_calc] computes from
    [iGkernel = rot * (iG - offset)] (the operators of [matrix3] and
    [vector3] are not under src/; the product is the argument here) and the
    sample counts [S]. *)
Definition multTransformedKernel_index (iGkernel S : Z * Z * Z) : Z :=
  let '(v0, v1, v2) := iGkernel in
  let '(S0, S1, S2) := S in
  let g0 := reduce v0 S0 in
  let g1 := reduce v1 S1 in
  let g2 := reduce v2 S2 in
  size_t_wrap (size_t_wrap g2
               + size_t_wrap (size_t_wrap S2
                              * size_t_wrap (int_wrap (g1 + int_wrap (S1 * g0))))).

(** The index [iReal] that [multRealKernel_calc] computes (lines 162-166). *)
Definition multRealKernel_index (iG S : Z * Z * Z) : Z :=
  let '(i0, i1, i2) := iG in
  let '(S0, S1, S2) := S in
  let '(g0, g1, g2) :=
    if (i2 <? 0)%Z then (int_wrap (- i0), int_wrap (- i1), int_wrap (- i2))
    else (i0, i1, i2) in
  let g1 := if (g1 <? 0)%Z then int_wrap (g1 + S1) else g1 in
  let g0 := if (g0 <? 0)%Z then int_wrap (g0 + S0) else g0 in
  size_t_wrap (size_t_wrap g2
               + size_t_wrap (size_t_wrap (int_wrap (1 + Z.quot S2 2))
                              * size_t_wrap (int_wrap (g1 + int_wrap (S1 * g0))))).

(** The values of an [int]. *)
Definition is_int (x : Z) : Prop := (- 2 ^ 31 <= x < 2 ^ 31)%Z.

End Coulomb_internal.

(** * Further concrete inputs *)

(** A threshold of zero, for a run whose energy does not change at all. *)
Definition ex10_e : Everything :=
  mkE (ElecVars.mk [[1]] [[0]] [] []) (mkRP 5 3 0 DIIS density) false 1.

(** An eigen-decomposition of the 3 x 3 matrix of ones, eigenvalues in
    descending order: column (1,1,1) for 3, (1,-1,0) and (1,1,-2) for 0. *)
Definition ex11_diagonalize (_ : matrix) : matrix * list Q :=
  (mkMatrix 3 3
     (fun i j =>
        match j, i with
        | O, _ => (1, 0)
        | S O, O => (1, 0) | S O, S O => (-1 # 1, 0) | S O, _ => (0, 0)
        | _, O => (1, 0) | _, S O => (1, 0) | _, _ => (-2 # 1, 0)
        end),
   [3; 0; 0]).

(** The eigenvectors of [ex6_diagonalize] times -2. *)
Definition ex12_diagonalize (_ : matrix) : matrix * list Q :=
  (mkMatrix 2 2
     (fun i j => match j with
                 | O => (-2 # 1, 0)
                 | _ => (if (i =? 0)%nat then -2 # 1 else 2, 0)
                 end),
   [0; 8]).

(** Two passes of DIIS with depth 3. *)
Definition ex13_e : Everything :=
  mkE (ElecVars.mk [[1]] [[0]] [] []) (mkRP 2 3 (1 # 100) DIIS density) false 1.

(** Two k-points that differ in the member [k] only. *)
Definition ex14_a : WannierMinimizer.Kpoint :=
  WannierMinimizer.mkKpoint (0, 0, 0) 2 1 0 (0, 1, -1)%Z.

Definition ex14_b : WannierMinimizer.Kpoint :=
  WannierMinimizer.mkKpoint (1 # 2, 0, 0) 2 1 0 (0, 1, -1)%Z.

(** * The scalar arithmetic of mixPlain and mixDIIS in double precision

    The definitions above compute in exact rationals.  The scalar
    statements of line 115 and of lines 164-166, 172, 177 and 179 are
    repeated here on IEEE binary64 numbers (the primitive [float], rounded
    to nearest even like the C++ [double]), for one sample of one field, to
    show which equations of exact arithmetic hold of the code up to rounding
    only. *)

Module Double.

(** Line 115 for one sample:
    [mixFraction*variable_n[s] + (1.-mixFraction)*prevVariable_n[s]]. *)
Definition mix (mixFraction x y : float) : float :=
  (mixFraction * x + (1 - mixFraction) * y)%float.

(** Lines 164-166; [c j] is the real part of entry (j, 0) of
    [overlapEvecs]. *)
Definition evecNorm (c : nat -> float) (ndim : nat) : float :=
  fold_left (fun norm j => (norm + c j)%float) (seq 0 ndim) 0%float.

(** Line 177. *)
Definition weight (c : nat -> float) (norm : float) (j : nat) : float :=
  (c j / norm)%float.


(** The rational number that a finite double is. *)
Definition to_Q (x : float) : option Q :=
  match Prim2SF x with
  | S754_zero _ => Some 0
  | S754_finite s m e => Some ((if s then -1 else 1) * inject_Z (Zpos m) * Qpower 2 e)
  | _ => None
  end.

End Double.


(** * Properties *)

(** Case analysis on an index below 3. *)
Ltac below3 i := destruct i as [|[|[|i]]]; try lia.

(** ** Collections *)

Lemma assign_length s v c : length (assign s v c) = length c.
Proof.
  revert s; induction c as [|x c IH]; intros [|s]; simpl; auto.
Qed.

Lemma assign_app_head (l1 l2 : DataRptrCollection) x v :
  assign (length l1) v (l1 ++ x :: l2) = l1 ++ v :: l2.
Proof.
  induction l1 as [|y l1 IH]; simpl; [reflexivity | now rewrite IH].
Qed.

Lemma at_app_head (l1 l2 : DataRptrCollection) :
  at_ (l1 ++ l2) (length l1) = at_ l2 0.
Proof.
  unfold at_. rewrite app_nth2 by lia. now rewrite Nat.sub_diag.
Qed.

Lemma skipn_at (k : nat) (c : DataRptrCollection) :
  (k < length c)%nat -> skipn k c = at_ c k :: skipn (S k) c.
Proof.
  revert k; induction c as [|x c IH]; intros k Hk; simpl in Hk; [lia|].
  destruct k as [|k]; [reflexivity|].
  change (skipn (S k) (x :: c)) with (skipn k c).
  rewrite IH by lia. reflexivity.
Qed.

Lemma at_skipn_0 (k : nat) (c : DataRptrCollection) : at_ (skipn k c) 0 = at_ c k.
Proof.
  revert k; induction c as [|x c IH]; intros [|k]; simpl; try reflexivity.
  apply IH.
Qed.

Lemma mixedPrefix_0 alpha src old dst : mixedPrefix alpha 0 src old dst = dst.
Proof. reflexivity. Qed.

Lemma mixedPrefix_length alpha k src old dst :
  (k <= length dst)%nat -> length (mixedPrefix alpha k src old dst) = length dst.
Proof.
  intros Hk. unfold mixedPrefix.
  rewrite length_app, length_map, length_seq, length_skipn. lia.
Qed.

Lemma at_mixedPrefix alpha k src old dst :
  at_ (mixedPrefix alpha k src old dst) k = at_ dst k.
Proof.
  unfold mixedPrefix.
  set (l1 := map _ (seq 0 k)).
  assert (Hl : length l1 = k) by (unfold l1; now rewrite length_map, length_seq).
  rewrite <- Hl at 2. rewrite at_app_head. apply at_skipn_0.
Qed.

Lemma assign_mixedPrefix alpha k src old dst :
  (k < length dst)%nat ->
  assign k (add (scale alpha (at_ src k)) (scale (1 - alpha) (at_ old k)))
         (mixedPrefix alpha k src old dst)
  = mixedPrefix alpha (S k) src old dst.
Proof.
  intros Hk. unfold mixedPrefix.
  rewrite (skipn_at k dst Hk).
  set (l1 := map _ (seq 0 k)).
  assert (Hl : length l1 = k) by (unfold l1; now rewrite length_map, length_seq).
  rewrite <- Hl at 1. rewrite assign_app_head.
  rewrite seq_S, map_app. simpl. rewrite <- app_assoc. reflexivity.
Qed.

Lemma add_scale_mix alpha (x y : DataRptr) :
  add (scale alpha x) (scale (1 - alpha) y) = mix_field alpha x y.
Proof.
  revert y; induction x as [|a x IH]; intros [|b y]; simpl; try reflexivity.
  unfold add, scale, mix_field in *. simpl. now rewrite IH.
Qed.

Lemma mixedPrefix_full alpha (src old : DataRptrCollection) :
  length src = length old ->
  map (fun s => add (scale alpha (at_ src s)) (scale (1 - alpha) (at_ old s)))
      (seq 0 (length src))
  = mix_spec alpha src old.
Proof.
  revert old; induction src as [|x src IH]; intros [|y old] Hl; simpl in *; try discriminate.
  - reflexivity.
  - rewrite add_scale_mix. f_equal.
    rewrite <- seq_shift, map_map. apply IH. lia.
Qed.

Lemma same_shape_length a b : same_shape a b -> length a = length b.
Proof. induction 1; simpl; congruence. Qed.

Lemma mixedPrefix_all alpha src old dst :
  length src = length dst -> length old = length dst ->
  mixedPrefix alpha (length dst) src old dst = mix_spec alpha src old.
Proof.
  intros Hs Ho. unfold mixedPrefix.
  rewrite skipn_all, app_nil_r. rewrite <- Hs. apply mixedPrefix_full. lia.
Qed.

(** ** mixPlain *)

Lemma mixPlain_prefix alpha mv prev_n prev_tau e k :
  (k <= length (variable_n mv (eVars e)))%nat ->
  (needsKEdensity e = true -> k <= length (ElecVars.tau (eVars e)))%nat ->
  fold_left (mixPlain_body alpha mv prev_n prev_tau) (seq 0 k) e
  = mixPlain_after alpha mv prev_n prev_tau e k.
Proof.
  induction k as [|k IH]; intros Hn Ht.
  - simpl. unfold mixPlain_after. rewrite !mixedPrefix_0.
    destruct e as [[a b c d] r ke v]; destruct mv, ke; reflexivity.
  - rewrite seq_S, fold_left_app. simpl fold_left.
    rewrite IH by (intros; try apply Nat.lt_le_incl; auto with arith).
    clear IH.
    destruct e as [[a b c d] r ke v]; simpl in *.
    destruct mv, ke; unfold mixPlain_after, mixPlain_body; simpl in *;
      unfold with_eVars, ElecVars.set_n, ElecVars.set_Vscloc, ElecVars.set_tau; simpl;
      rewrite ?at_mixedPrefix, ?assign_mixedPrefix; auto with arith.
Qed.

Lemma mixPlain_closed alpha mv prev_n prev_tau e :
  length (variable_n mv (eVars e)) = length (ElecVars.n (eVars e)) ->
  (needsKEdensity e = true ->
   length (ElecVars.tau (eVars e)) = length (ElecVars.n (eVars e))) ->
  mixPlain alpha mv prev_n prev_tau e
  = mixPlain_after alpha mv prev_n prev_tau e (length (ElecVars.n (eVars e))).
Proof.
  intros Hn Ht. unfold mixPlain. apply mixPlain_prefix.
  - lia.
  - intros H. specialize (Ht H). lia.
Qed.

Lemma mix_field_one alpha (x y : DataRptr) :
  alpha == 1 -> length x = length y -> Feq (mix_field alpha x y) x.
Proof.
  intros Ha. revert y; induction x as [|a x IH]; intros [|b y] Hl; simpl in *;
    try discriminate; constructor.
  - rewrite Ha. ring.
  - apply IH. lia.
Qed.

Lemma mix_spec_one alpha (newC oldC : DataRptrCollection) :
  alpha == 1 -> same_shape newC oldC -> Ceq (mix_spec alpha newC oldC) newC.
Proof.
  intros Ha H. induction H as [|x y newC oldC Hxy H IH]; simpl; constructor.
  - now apply mix_field_one.
  - exact IH.
Qed.

Lemma mixPlain_variable_n alpha mv prev_n prev_tau e :
  mixPlain_shapes mv prev_n prev_tau e ->
  variable_n mv (eVars (mixPlain alpha mv prev_n prev_tau e))
  = mix_spec alpha (variable_n mv (eVars e)) prev_n.
Proof.
  intros (Hn & Hs & Ht).
  rewrite mixPlain_closed by (auto; intros H; apply Ht, H).
  rewrite <- Hn.
  assert (Hm := mixedPrefix_all alpha (variable_n mv (eVars e)) prev_n
                  (variable_n mv (eVars e)) eq_refl
                  (eq_sym (same_shape_length _ _ Hs))).
  destruct e as [[a b c d] r ke v]; destruct mv, ke; simpl in *; exact Hm.
Qed.

Lemma mixPlain_tau alpha mv prev_n prev_tau e :
  mixPlain_shapes mv prev_n prev_tau e ->
  needsKEdensity e = true ->
  ElecVars.tau (eVars (mixPlain alpha mv prev_n prev_tau e))
  = mix_spec alpha (variable_tau mv (eVars e)) prev_tau.
Proof.
  intros (Hn & Hs & Ht) Hke. destruct (Ht Hke) as (Ht1 & Ht2 & Ht3).
  rewrite mixPlain_closed by auto.
  rewrite <- Ht1.
  assert (Hm := mixedPrefix_all alpha (variable_tau mv (eVars e)) prev_tau
                  (ElecVars.tau (eVars e)) (eq_trans Ht2 (eq_sym Ht1))
                  (eq_trans (eq_sym (same_shape_length _ _ Ht3)) (eq_trans Ht2 (eq_sym Ht1)))).
  destruct e as [[a b c d] r ke v]; simpl in *; subst ke.
  destruct mv; simpl in *; exact Hm.
Qed.

Lemma mixPlain_frame alpha mv prev_n prev_tau e :
  mixPlain_shapes mv prev_n prev_tau e ->
  ElecVars.Vtau (eVars (mixPlain alpha mv prev_n prev_tau e)) = ElecVars.Vtau (eVars e)
  /\ (needsKEdensity e = false ->
      ElecVars.tau (eVars (mixPlain alpha mv prev_n prev_tau e)) = ElecVars.tau (eVars e))
  /\ residualMinimizerParams (mixPlain alpha mv prev_n prev_tau e) = residualMinimizerParams e
  /\ needsKEdensity (mixPlain alpha mv prev_n prev_tau e) = needsKEdensity e
  /\ dV (mixPlain alpha mv prev_n prev_tau e) = dV e.
Proof.
  intros (Hn & Hs & Ht).
  rewrite mixPlain_closed by (auto; intros H; apply Ht, H).
  destruct e as [[a b c d] r ke v]; destruct mv, ke; simpl in *;
    repeat split; intros; try discriminate; reflexivity.
Qed.

(** C8.  On same-shaped field sets [mixPlain] replaces the mixed variable by
    [alpha * new + (1 - alpha) * old], field by field and sample by sample;
    the auxiliary (kinetic-energy) mix is computed exactly when
    [needsKEdensity] holds (otherwise neither [tau] nor [Vtau] changes); and
    with [alpha = 1] the result is the new field. *)
Theorem mixPlain_linear_mix alpha mv prev_n prev_tau e :
  mixPlain_shapes mv prev_n prev_tau e ->
  variable_n mv (eVars (mixPlain alpha mv prev_n prev_tau e))
  = mix_spec alpha (variable_n mv (eVars e)) prev_n
  /\ (if needsKEdensity e
      then ElecVars.tau (eVars (mixPlain alpha mv prev_n prev_tau e))
           = mix_spec alpha (variable_tau mv (eVars e)) prev_tau
      else ElecVars.tau (eVars (mixPlain alpha mv prev_n prev_tau e)) = ElecVars.tau (eVars e)
           /\ ElecVars.Vtau (eVars (mixPlain alpha mv prev_n prev_tau e))
              = ElecVars.Vtau (eVars e))
  /\ (alpha == 1 ->
      Ceq (variable_n mv (eVars (mixPlain alpha mv prev_n prev_tau e)))
          (variable_n mv (eVars e))
      /\ (needsKEdensity e = true ->
          Ceq (ElecVars.tau (eVars (mixPlain alpha mv prev_n prev_tau e)))
              (variable_tau mv (eVars e)))).
Proof.
  intros Hsh.
  pose proof (mixPlain_variable_n alpha mv prev_n prev_tau e Hsh) as Hvn.
  pose proof (mixPlain_tau alpha mv prev_n prev_tau e Hsh) as Htau.
  pose proof (mixPlain_frame alpha mv prev_n prev_tau e Hsh) as (Hvt & Hnt & _).
  destruct Hsh as (Hn & Hs & Ht).
  split; [exact Hvn|]. split.
  - destruct (needsKEdensity e) eqn:Hke; auto.
  - intros Ha. split.
    + rewrite Hvn. now apply mix_spec_one.
    + intros Hke. rewrite (Htau Hke). apply mix_spec_one; [exact Ha | apply Ht, Hke].
Qed.

(** C10.  With the kinetic-energy density enabled, [mixPlain] stores the
    auxiliary mix in [e.eVars.tau], whichever variable is mixed; it reads
    the auxiliary input through [variable_tau] and never writes [Vtau].
    When potentials are mixed the input read is [Vtau], which stays as it
    was while [tau] is overwritten. *)
Theorem mixPlain_aux_goes_to_tau alpha mv prev_n prev_tau e :
  mixPlain_shapes mv prev_n prev_tau e ->
  needsKEdensity e = true ->
  ElecVars.tau (eVars (mixPlain alpha mv prev_n prev_tau e))
  = mix_spec alpha (variable_tau mv (eVars e)) prev_tau
  /\ ElecVars.Vtau (eVars (mixPlain alpha mv prev_n prev_tau e)) = ElecVars.Vtau (eVars e)
  /\ (mv = potential ->
      variable_tau mv (eVars (mixPlain alpha mv prev_n prev_tau e))
      = variable_tau mv (eVars e)
      /\ ElecVars.tau (eVars (mixPlain alpha mv prev_n prev_tau e))
         = mix_spec alpha (ElecVars.Vtau (eVars e)) prev_tau).
Proof.
  intros Hsh Hke.
  pose proof (mixPlain_tau alpha mv prev_n prev_tau e Hsh Hke) as Htau.
  pose proof (mixPlain_frame alpha mv prev_n prev_tau e Hsh) as (Hvt & _).
  split; [exact Htau|]. split; [exact Hvt|].
  intros ->. split; [exact Hvt | exact Htau].
Qed.

(** ** The overlap matrix *)

Lemma nRows_mset i j v m : nRows (mset i j v m) = nRows m.
Proof. unfold mset. destruct (_ && _); reflexivity. Qed.

Lemma nCols_mset i j v m : nCols (mset i j v m) = nCols m.
Proof. unfold mset. destruct (_ && _); reflexivity. Qed.

Lemma entry_mset i j v m i' j' :
  (i < nRows m)%nat -> (j < nCols m)%nat ->
  entry (mset i j v m) i' j'
  = if (i' =? i)%nat && (j' =? j)%nat then v else entry m i' j'.
Proof.
  intros Hi Hj. unfold mset.
  apply Nat.ltb_lt in Hi, Hj. rewrite Hi, Hj. reflexivity.
Qed.

Lemma overlap_body_dims dV pR ov j :
  nRows (overlap_body dV pR ov j) = nRows ov /\ nCols (overlap_body dV pR ov j) = nCols ov.
Proof.
  unfold overlap_body. destruct (negb _); rewrite ?nRows_mset, ?nCols_mset; auto.
Qed.

Lemma updateOverlap_prefix dV pR ov k :
  (k <= length pR)%nat ->
  (length pR <= nRows ov)%nat -> (length pR <= nCols ov)%nat ->
  nRows (fold_left (overlap_body dV pR) (seq 0 k) ov) = nRows ov
  /\ nCols (fold_left (overlap_body dV pR) (seq 0 k) ov) = nCols ov
  /\ forall i j, entry (fold_left (overlap_body dV pR) (seq 0 k) ov) i j
                 = overlap_after dV pR ov k i j.
Proof.
  intros Hk Hr Hc. induction k as [|k IH].
  - simpl. repeat split. intros i j. unfold overlap_after.
    replace (i <? 0)%nat with false by (symmetry; apply Nat.ltb_ge; lia).
    replace (j <? 0)%nat with false by (symmetry; apply Nat.ltb_ge; lia).
    rewrite !andb_false_r. reflexivity.
  - rewrite seq_S, fold_left_app. simpl fold_left.
    destruct IH as (IHr & IHc & IHe); [lia|].
    set (ovk := fold_left (overlap_body dV pR) (seq 0 k) ov) in *.
    destruct (overlap_body_dims dV pR ovk k) as (Hr' & Hc').
    split; [congruence|]. split; [congruence|].
    intros i j. unfold overlap_body.
    assert (Hk1 : (k < nRows ovk)%nat) by lia.
    assert (Hk2 : (k < nCols ovk)%nat) by lia.
    assert (Hn1 : (length pR - 1 < nRows ovk)%nat) by lia.
    assert (Hn2 : (length pR - 1 < nCols ovk)%nat) by lia.
    destruct (Nat.eqb_spec k (length pR - 1)) as [Hlast|Hlast]; simpl negb; cbv iota.
    + rewrite entry_mset by assumption. rewrite IHe. unfold overlap_after.
      destruct (Nat.eqb_spec i k), (Nat.eqb_spec j (length pR - 1)),
               (Nat.eqb_spec i (length pR - 1)),
               (Nat.ltb_spec i k), (Nat.ltb_spec i (S k)),
               (Nat.ltb_spec j k), (Nat.ltb_spec j (S k));
        simpl; subst; try lia; try reflexivity.
    + rewrite entry_mset by (rewrite ?nRows_mset, ?nCols_mset; assumption).
      rewrite entry_mset by assumption. rewrite IHe. unfold overlap_after.
      destruct (Nat.eqb_spec i k), (Nat.eqb_spec j (length pR - 1)),
               (Nat.eqb_spec i (length pR - 1)), (Nat.eqb_spec j k),
               (Nat.ltb_spec i k), (Nat.ltb_spec i (S k)),
               (Nat.ltb_spec j k), (Nat.ltb_spec j (S k));
        simpl; subst; try lia; try reflexivity.
Qed.

Lemma sum_mul_comm (a b : DataRptr) : sum (mul a b) == sum (mul b a).
Proof.
  revert b; induction a as [|x a IH]; intros [|y b]; simpl; try reflexivity.
  unfold mul in *. rewrite IH. ring.
Qed.

Lemma sum_mul_self_nonneg (a : DataRptr) : 0 <= sum (mul a a).
Proof.
  induction a as [|x a IH]; simpl.
  - apply Qle_refl.
  - unfold mul in IH. nra.
Qed.

Lemma integral_mul_comm dV a b : integral dV (mul a b) == integral dV (mul b a).
Proof. unfold integral. now rewrite sum_mul_comm. Qed.

Lemma integral_mul_self_nonneg dV a : 0 <= dV -> 0 <= integral dV (mul a a).
Proof.
  intros H. unfold integral. apply Qmult_le_0_compat; [exact H | apply sum_mul_self_nonneg].
Qed.

Lemma overlapResiduals_sym dV r1 r2 :
  length r1 = length r2 -> overlapResiduals dV r1 r2 == overlapResiduals dV r2 r1.
Proof.
  intros Hl. unfold overlapResiduals. rewrite <- Hl.
  rewrite (integral_mul_comm dV (at_ r1 0)).
  destruct (length r1 =? 2)%nat; [|reflexivity].
  now rewrite (integral_mul_comm dV (at_ r1 1)).
Qed.

Lemma overlapResiduals_self_nonneg dV r : 0 <= dV -> 0 <= overlapResiduals dV r r.
Proof.
  intros H. unfold overlapResiduals.
  pose proof (integral_mul_self_nonneg dV (at_ r 0) H).
  pose proof (integral_mul_self_nonneg dV (at_ r 1) H).
  destruct (length r =? 2)%nat; lra.
Qed.

Lemma overlapResiduals_innerProduct dV r1 r2 :
  length r1 = length r2 -> (length r1 <= 2)%nat ->
  overlapResiduals dV r1 r2 == innerProduct dV r1 r2.
Proof.
  intros Hl H2. unfold overlapResiduals, at_.
  destruct r1 as [|x [|x' [|x'' r1]]], r2 as [|y [|y' [|y'' r2]]];
    simpl in *; try discriminate; try lia; unfold integral; simpl; ring.
Qed.

Lemma back_app_one (h : list DataRptrCollection) r : back (h ++ [r]) = r.
Proof. unfold back. apply last_last. Qed.

Lemma back_nth (h : list DataRptrCollection) : back h = nth (length h - 1) h [].
Proof.
  destruct h as [|x h] using rev_ind; [reflexivity|].
  rewrite back_app_one, length_app. simpl.
  rewrite app_nth2 by lia.
  replace (length h + 1 - 1 - length h)%nat with 0%nat by lia. reflexivity.
Qed.

Lemma updateOverlap_entry dV pR ov i j :
  (length pR <= nRows ov)%nat -> (length pR <= nCols ov)%nat ->
  entry (updateOverlap dV pR ov) i j = overlap_after dV pR ov (length pR) i j.
Proof.
  intros Hr Hc. unfold updateOverlap.
  now apply (updateOverlap_prefix dV pR ov (length pR)).
Qed.

Lemma innerProduct_sym dV r1 r2 : innerProduct dV r1 r2 == innerProduct dV r2 r1.
Proof.
  revert r2; induction r1 as [|x r1 IH]; intros [|y r2]; simpl; try reflexivity.
  rewrite IH, (integral_mul_comm dV x y). reflexivity.
Qed.

Lemma updateOverlap_keeps_exact dV pR r ov :
  (length pR < nRows ov)%nat -> (length pR < nCols ov)%nat ->
  OverlapExact dV pR ov ->
  OverlapExact dV (pR ++ [r]) (updateOverlap dV (pR ++ [r]) ov).
Proof.
  intros Hr Hc Hold i j Hi Hj.
  assert (Hlen : length (pR ++ [r]) = S (length pR)) by (rewrite length_app; simpl; lia).
  rewrite updateOverlap_entry by lia.
  unfold overlap_after. rewrite Hlen in *.
  replace (S (length pR) - 1)%nat with (length pR) by lia.
  assert (Hback : back (pR ++ [r]) = nth (length pR) (pR ++ [r]) []).
  { rewrite back_nth, Hlen. f_equal. lia. }
  destruct (Nat.eqb_spec j (length pR)) as [->|Hjn];
    [replace (i <? S (length pR))%nat with true by (symmetry; apply Nat.ltb_lt; lia)|];
    simpl andb; cbv iota.
  - rewrite Hback, Nat.min_l, Nat.max_r by lia. reflexivity.
  - destruct (Nat.eqb_spec i (length pR)) as [->|Hin];
      [replace (j <? S (length pR))%nat with true by (symmetry; apply Nat.ltb_lt; lia)|];
      simpl andb; cbv iota.
    + rewrite Hback, Nat.min_r, Nat.max_l by lia. reflexivity.
    + rewrite !app_nth1 by lia. apply Hold; lia.
Qed.

Lemma updateOverlap_frame dV pR ov i j :
  (length pR <= nRows ov)%nat -> (length pR <= nCols ov)%nat ->
  i <> (length pR - 1)%nat -> j <> (length pR - 1)%nat ->
  entry (updateOverlap dV pR ov) i j = entry ov i j.
Proof.
  intros Hr Hc Hi Hj. rewrite updateOverlap_entry by assumption.
  unfold overlap_after.
  destruct (Nat.eqb_spec j (length pR - 1)); [contradiction|].
  destruct (Nat.eqb_spec i (length pR - 1)); [contradiction|]. reflexivity.
Qed.

(** The update of lines 137-141 for a newly pushed residual [r], on its
    own: the block is symmetric and holds the overlaps, and the entries
    outside the newest row and column are kept. *)
Lemma updateOverlap_incremental dV pR r ov :
  (length pR < nRows ov)%nat -> (length pR < nCols ov)%nat ->
  OverlapExact dV pR ov ->
  let pR' := pR ++ [r] in
  let ndim := length pR' in
  let thisOverlap := submatrix (updateOverlap dV pR' ov) 0 ndim 0 ndim in
  (forall i j, (i < ndim)%nat -> (j < ndim)%nat ->
     entry thisOverlap i j = entry thisOverlap j i)
  /\ (forall i j, (i < ndim)%nat -> (j < ndim)%nat ->
        length (nth i pR' []) = length (nth j pR' []) ->
        (length (nth i pR' []) <= 2)%nat ->
        real (entry thisOverlap i j) == innerProduct dV (nth i pR' []) (nth j pR' []))
  /\ (forall i, (i < ndim)%nat ->
        real (entry thisOverlap i i) = overlapResiduals dV (nth i pR' []) (nth i pR' [])
        /\ (0 <= dV -> 0 <= real (entry thisOverlap i i)))
  /\ (forall i j, i <> (ndim - 1)%nat -> j <> (ndim - 1)%nat ->
        entry (updateOverlap dV pR' ov) i j = entry ov i j)
  /\ OverlapExact dV pR' (updateOverlap dV pR' ov).
Proof.
  intros Hr Hc Hold pR' ndim thisOverlap.
  pose proof (updateOverlap_keeps_exact dV pR r ov Hr Hc Hold) as Hnew.
  fold pR' in Hnew.
  assert (Hlen : ndim = S (length pR)).
  { unfold ndim, pR'. rewrite length_app. simpl. lia. }
  assert (Hentry : forall i j, (i < ndim)%nat -> (j < ndim)%nat ->
            entry thisOverlap i j
            = of_double (overlapResiduals dV (nth (Nat.min i j) pR' [])
                                          (nth (Nat.max i j) pR' []))).
  { intros i j Hi Hj. unfold thisOverlap. simpl entry. apply Hnew; assumption. }
  split; [|split; [|split; [|split]]].
  - intros i j Hi Hj. rewrite (Hentry i j), (Hentry j i) by assumption.
    now rewrite Nat.min_comm, Nat.max_comm.
  - intros i j Hi Hj Hsz H2. rewrite (Hentry i j) by assumption. simpl real.
    destruct (Nat.le_ge_cases i j) as [Hij|Hij].
    + rewrite Nat.min_l, Nat.max_r by assumption.
      now apply overlapResiduals_innerProduct.
    + rewrite Nat.min_r, Nat.max_l by assumption.
      rewrite overlapResiduals_innerProduct by (rewrite <- Hsz; auto).
      apply innerProduct_sym.
  - intros i Hi. rewrite (Hentry i i) by assumption.
    rewrite Nat.min_id, Nat.max_id. simpl real. split; [reflexivity|].
    intros HdV. now apply overlapResiduals_self_nonneg.
  - intros i j Hi Hj. apply updateOverlap_frame; fold ndim; try assumption; lia.
  - exact Hnew.
Qed.

(** ** The loops of mixDIIS over the spin channels *)

Lemma fold_left_ext_in {A B} (f g : A -> B -> A) (l : list B) (a : A) :
  (forall a b, f a b = g a b) -> fold_left f l a = fold_left g l a.
Proof.
  intros H. revert a; induction l as [|b l IH]; intros a; simpl; [reflexivity|].
  now rewrite H, IH.
Qed.

Lemma updPrefix_0 g c : updPrefix g 0 c = c.
Proof. reflexivity. Qed.

Lemma updPrefix_full g c : updPrefix g (length c) c = imap g c.
Proof. unfold updPrefix, imap. now rewrite skipn_all, app_nil_r. Qed.

Lemma at_updPrefix g k c : at_ (updPrefix g k c) k = at_ c k.
Proof.
  unfold updPrefix.
  set (l1 := map _ (seq 0 k)).
  assert (Hl : length l1 = k) by (unfold l1; now rewrite length_map, length_seq).
  rewrite <- Hl at 2. rewrite at_app_head. apply at_skipn_0.
Qed.

Lemma assign_updPrefix g k c :
  (k < length c)%nat ->
  assign k (g k (at_ c k)) (updPrefix g k c) = updPrefix g (S k) c.
Proof.
  intros Hk. unfold updPrefix.
  rewrite (skipn_at k c Hk).
  set (l1 := map _ (seq 0 k)).
  assert (Hl : length l1 = k) by (unfold l1; now rewrite length_map, length_seq).
  rewrite <- Hl at 1. rewrite assign_app_head.
  rewrite seq_S, map_app. simpl. rewrite <- app_assoc. reflexivity.
Qed.

Lemma imap_length g c : length (imap g c) = length c.
Proof. unfold imap. now rewrite length_map, length_seq. Qed.

Lemma at_imap g c s : (s < length c)%nat -> at_ (imap g c) s = g s (at_ c s).
Proof.
  intros Hs. unfold imap, at_ at 1.
  rewrite (nth_indep _ [] (g 0%nat (at_ c 0))) by (now rewrite length_map, length_seq).
  rewrite (map_nth (fun s => g s (at_ c s)) (seq 0 (length c)) 0%nat s).
  now rewrite seq_nth.
Qed.

Lemma diis_body_prefix mv ke gn gt gr k ev residual :
  (k <= length (variable_n mv ev))%nat ->
  (ke = true -> k <= length (variable_tau mv ev))%nat ->
  (k <= length residual)%nat ->
  fold_left (diis_body mv ke gn gt gr) (seq 0 k) (ev, residual)
  = diis_after mv ke gn gt gr k (ev, residual).
Proof.
  induction k as [|k IH]; intros Hn Ht Hr.
  - simpl. unfold diis_after. simpl. rewrite !updPrefix_0.
    destruct ev as [a b c d]; destruct mv, ke; reflexivity.
  - rewrite seq_S, fold_left_app. simpl fold_left.
    rewrite IH by (intros; try apply Nat.lt_le_incl; auto with arith).
    clear IH.
    destruct ev as [a b c d]; simpl in *.
    destruct mv, ke; unfold diis_after, diis_body; simpl in *;
      unfold ElecVars.set_n, ElecVars.set_Vscloc, ElecVars.set_tau, ElecVars.set_Vtau; simpl;
      rewrite ?at_updPrefix, ?assign_updPrefix; auto with arith.
Qed.

Lemma diis_inner_full mv ke gn gt gr ns ev residual :
  length (variable_n mv ev) = ns ->
  (ke = true -> length (variable_tau mv ev) = ns) ->
  length residual = ns ->
  variable_n mv (fst (fold_left (diis_body mv ke gn gt gr) (seq 0 ns) (ev, residual)))
  = imap gn (variable_n mv ev)
  /\ variable_tau mv (fst (fold_left (diis_body mv ke gn gt gr) (seq 0 ns) (ev, residual)))
     = (if ke then imap gt (variable_tau mv ev) else variable_tau mv ev)
  /\ snd (fold_left (diis_body mv ke gn gt gr) (seq 0 ns) (ev, residual))
     = imap gr residual.
Proof.
  intros Hn Ht Hr.
  rewrite diis_body_prefix by (intros; try rewrite Ht by assumption; lia).
  unfold diis_after. simpl fst. simpl snd.
  assert (En : updPrefix gn ns (variable_n mv ev) = imap gn (variable_n mv ev))
    by (rewrite <- Hn; apply updPrefix_full).
  assert (Er : updPrefix gr ns residual = imap gr residual)
    by (rewrite <- Hr; apply updPrefix_full).
  rewrite En, Er. clear En Er.
  destruct ke.
  - assert (Et : updPrefix gt ns (variable_tau mv ev) = imap gt (variable_tau mv ev))
      by (rewrite <- (Ht eq_refl); apply updPrefix_full).
    rewrite Et.
    destruct ev as [a b c d]; destruct mv; simpl in *; auto.
  - destruct ev as [a b c d]; destruct mv; simpl in *; auto.
Qed.

Lemma diis_zero_is_body mv ke acc s :
  diis_zero_body mv ke acc s
  = diis_body mv ke (fun _ x => scale 0 x) (fun _ x => scale 0 x) (fun _ x => scale 0 x) acc s.
Proof. destruct acc; reflexivity. Qed.

Lemma diis_acc_is_body mv ke w pn pt pr acc s :
  diis_acc_body mv ke w pn pt pr acc s
  = diis_body mv ke (fun s x => add x (scale w (at_ pn s)))
              (fun s x => add x (scale w (at_ pt s)))
              (fun s x => add x (scale w (at_ pr s))) acc s.
Proof. destruct acc; reflexivity. Qed.

Lemma diis_zero_loop mv ke ns ev residual :
  length (variable_n mv ev) = ns ->
  (ke = true -> length (variable_tau mv ev) = ns) ->
  length residual = ns ->
  variable_n mv (fst (fold_left (diis_zero_body mv ke) (seq 0 ns) (ev, residual)))
  = zeroC (variable_n mv ev)
  /\ variable_tau mv (fst (fold_left (diis_zero_body mv ke) (seq 0 ns) (ev, residual)))
     = (if ke then zeroC (variable_tau mv ev) else variable_tau mv ev)
  /\ snd (fold_left (diis_zero_body mv ke) (seq 0 ns) (ev, residual)) = zeroC residual.
Proof.
  intros Hn Ht Hr.
  rewrite (fold_left_ext_in _ _ _ _ (diis_zero_is_body mv ke)).
  now apply diis_inner_full.
Qed.

Lemma diis_acc_loop mv ke (w : nat -> Q) Pn Pt Pr ns js :
  forall ev residual,
  length (variable_n mv ev) = ns ->
  (ke = true -> length (variable_tau mv ev) = ns) ->
  length residual = ns ->
  let acc' :=
    fold_left
      (fun acc j =>
         fold_left (diis_acc_body mv ke (w j) (nth j Pn []) (nth j Pt []) (nth j Pr []))
                   (seq 0 ns) acc)
      js (ev, residual) in
  variable_n mv (fst acc') = combine_hist w Pn js (variable_n mv ev)
  /\ variable_tau mv (fst acc')
     = (if ke then combine_hist w Pt js (variable_tau mv ev) else variable_tau mv ev)
  /\ snd acc' = combine_hist w Pr js residual.
Proof.
  induction js as [|j js IH]; intros ev residual Hn Ht Hr.
  - simpl. destruct ke; auto.
  - cbv zeta. simpl fold_left.
    rewrite (fold_left_ext_in _ _ (seq 0 ns) _
               (diis_acc_is_body mv ke (w j) (nth j Pn []) (nth j Pt []) (nth j Pr []))).
    destruct (diis_inner_full mv ke
                (fun s x => add x (scale (w j) (at_ (nth j Pn []) s)))
                (fun s x => add x (scale (w j) (at_ (nth j Pt []) s)))
                (fun s x => add x (scale (w j) (at_ (nth j Pr []) s)))
                ns ev residual Hn Ht Hr) as (E1 & E2 & E3).
    destruct (fold_left _ (seq 0 ns) (ev, residual)) as [ev1 res1].
    simpl fst in *. simpl snd in *.
    specialize (IH ev1 res1). cbv zeta in IH.
    destruct IH as (I1 & I2 & I3).
    + rewrite E1. now rewrite imap_length.
    + intros Hke. rewrite E2, Hke. rewrite imap_length. now apply Ht.
    + rewrite E3. now rewrite imap_length.
    + rewrite I1, I2, I3, E1, E2, E3. unfold combine_hist at 4 5 6. simpl fold_left.
      unfold axpyC. destruct ke; auto.
Qed.

(** ** Samples of the combined fields *)

Lemma zipWith_length f (x y : list Q) :
  length (zipWith f x y) = Nat.min (length x) (length y).
Proof.
  revert y; induction x as [|a x IH]; intros [|b y]; simpl; auto.
Qed.

Lemma nth_zipWith f (x y : list Q) i :
  (i < length x)%nat -> (i < length y)%nat ->
  nth i (zipWith f x y) 0 = f (nth i x 0) (nth i y 0).
Proof.
  revert x y; induction i as [|i IH]; intros [|a x] [|b y] Hx Hy; simpl in *;
    try lia; [reflexivity|].
  apply IH; lia.
Qed.

Lemma nth_scale w (y : list Q) i :
  (i < length y)%nat -> nth i (scale w y) 0 = w * nth i y 0.
Proof.
  intros Hi. unfold scale.
  rewrite (nth_indep _ 0 (w * 0)) by (now rewrite length_map).
  apply (map_nth (Qmult w)).
Qed.

Lemma scale_length w (y : list Q) : length (scale w y) = length y.
Proof. apply length_map. Qed.

Lemma shaped_axpyC ns g w p c :
  shaped ns g c -> shaped ns g p -> shaped ns g (axpyC w p c).
Proof.
  intros (Hc & Hcs) (Hp & Hps). split.
  - unfold axpyC. now rewrite imap_length.
  - intros s Hs. unfold axpyC. rewrite at_imap by lia.
    unfold add. rewrite zipWith_length, scale_length, Hcs, Hps by assumption.
    apply Nat.min_id.
Qed.

Lemma sample_axpyC ns g w p c s i :
  shaped ns g c -> shaped ns g p -> (s < ns)%nat -> (i < g)%nat ->
  nth i (at_ (axpyC w p c) s) 0 = nth i (at_ c s) 0 + w * nth i (at_ p s) 0.
Proof.
  intros (Hc & Hcs) (Hp & Hps) Hs Hi. unfold axpyC. rewrite at_imap by lia.
  unfold add. rewrite nth_zipWith by (rewrite ?scale_length, ?Hcs, ?Hps; assumption).
  rewrite nth_scale by (rewrite Hps; assumption). reflexivity.
Qed.

Lemma shaped_zeroC ns g c : shaped ns g c -> shaped ns g (zeroC c).
Proof.
  intros (Hc & Hcs). split.
  - unfold zeroC. now rewrite imap_length.
  - intros s Hs. unfold zeroC. rewrite at_imap by lia.
    rewrite scale_length. now apply Hcs.
Qed.

Lemma sample_zeroC ns g c s i :
  shaped ns g c -> (s < ns)%nat -> (i < g)%nat ->
  nth i (at_ (zeroC c) s) 0 = 0 * nth i (at_ c s) 0.
Proof.
  intros (Hc & Hcs) Hs Hi. unfold zeroC. rewrite at_imap by lia.
  apply nth_scale. rewrite Hcs; assumption.
Qed.

Lemma combine_hist_sample (w : nat -> Q) hist ns g js :
  forall c0 s i,
  shaped ns g c0 ->
  (forall j, In j js -> shaped ns g (nth j hist [])) ->
  (s < ns)%nat -> (i < g)%nat ->
  shaped ns g (combine_hist w hist js c0)
  /\ nth i (at_ (combine_hist w hist js c0) s) 0
     == nth i (at_ c0 s) 0
        + sum (map (fun j => w j * nth i (at_ (nth j hist []) s) 0) js).
Proof.
  induction js as [|j js IH]; intros c0 s i Hc Hh Hs Hi.
  - simpl. split; [exact Hc | ring].
  - unfold combine_hist. simpl fold_left. fold (combine_hist w hist js).
    assert (Hj : shaped ns g (nth j hist [])) by (apply Hh; now left).
    destruct (IH (axpyC (w j) (nth j hist []) c0) s i) as (S1 & S2); auto.
    + now apply shaped_axpyC.
    + intros j' Hj'. apply Hh. now right.
    + split; [exact S1|]. rewrite S2.
      rewrite (sample_axpyC ns g) by assumption. simpl. ring.
Qed.

Lemma sum_scale_r (f : nat -> Q) d js :
  sum (map (fun j => f j * d) js) == sum (map f js) * d.
Proof.
  induction js as [|j js IH]; simpl; [ring|]. rewrite IH. ring.
Qed.

Lemma evecNorm_fold overlapEvecs js a :
  fold_left (fun norm j => norm + real (entry overlapEvecs j 0)) js a
  == a + sum (map (fun j => real (entry overlapEvecs j 0)) js).
Proof.
  revert a; induction js as [|j js IH]; intros a; simpl; [ring|].
  rewrite IH. ring.
Qed.

Lemma evecNorm_sum overlapEvecs ndim :
  evecNorm overlapEvecs ndim
  == sum (map (fun j => real (entry overlapEvecs j 0)) (seq 0 ndim)).
Proof. unfold evecNorm. rewrite evecNorm_fold. ring. Qed.

Lemma weights_sum_one overlapEvecs ndim :
  ~ evecNorm overlapEvecs ndim == 0 ->
  sum (map (weight overlapEvecs (evecNorm overlapEvecs ndim)) (seq 0 ndim)) == 1.
Proof.
  intros Hnz. unfold weight, Qdiv.
  rewrite (sum_scale_r (fun j => real (entry overlapEvecs j 0))).
  rewrite <- evecNorm_sum. now apply Qmult_inv_r.
Qed.

(** ** mixDIIS on the full-history path *)

Lemma axpy_length a X Y : length (axpy a X Y) = length Y.
Proof.
  revert Y; induction X as [|x X IH]; intros [|y Y]; simpl; auto.
Qed.

Lemma at_axpy a X Y s :
  (s < length X)%nat -> (s < length Y)%nat ->
  at_ (axpy a X Y) s = add (at_ Y s) (scale a (at_ X s)).
Proof.
  revert X Y; induction s as [|s IH]; intros [|x X] [|y Y] HX HY; simpl in *;
    try lia; [reflexivity|].
  apply IH; lia.
Qed.

Lemma shaped_axpy ns g a X Y : shaped ns g X -> shaped ns g Y -> shaped ns g (axpy a X Y).
Proof.
  intros (HX & HXs) (HY & HYs). split.
  - now rewrite axpy_length.
  - intros s Hs. rewrite at_axpy by lia.
    unfold add. rewrite zipWith_length, scale_length, HXs, HYs by assumption.
    apply Nat.min_id.
Qed.

Lemma shaped_newResidual ns g st :
  diis_shapes ns g st -> (0 < length (pastVariables_n st))%nat ->
  shaped ns g (newResidual st).
Proof.
  intros (_ & Hv & Hp & _) Hpos. unfold newResidual.
  apply shaped_axpy; [|exact Hv].
  rewrite back_nth. apply Hp. lia.
Qed.


Lemma mixDIIS_full_closed alpha diag st ns :
  length (residualsAfterPush st) = history (rp st) ->
  length (ElecVars.n (eVars (e st))) = ns ->
  length (variable_n (mixedVariable (rp st)) (eVars (e st))) = ns ->
  (needsKEdensity (e st) = true ->
   length (variable_tau (mixedVariable (rp st)) (eVars (e st))) = ns) ->
  length (newResidual st) = ns ->
  variable_n (mixedVariable (rp st)) (eVars (e (fst (mixDIIS alpha diag st))))
  = combine_hist (diisWeight diag st) (pastVariables_n st) (seq 0 (history (rp st)))
                 (zeroC (variable_n (mixedVariable (rp st)) (eVars (e st))))
  /\ variable_tau (mixedVariable (rp st)) (eVars (e (fst (mixDIIS alpha diag st))))
     = (if needsKEdensity (e st)
        then combine_hist (diisWeight diag st) (pastVariables_tau st)
                          (seq 0 (history (rp st)))
                          (zeroC (variable_tau (mixedVariable (rp st)) (eVars (e st))))
        else variable_tau (mixedVariable (rp st)) (eVars (e st)))
  /\ snd (mixDIIS alpha diag st)
     = Some (mkDIISLog (diisNorm diag st)
               (combine_hist (diisWeight diag st) (residualsAfterPush st)
                             (seq 0 (history (rp st))) (zeroC (newResidual st)))).
Proof.
  intros Hfull Hns Hn Ht Hr.
  unfold mixDIIS. cbv zeta.
  fold (newResidual st). fold (residualsAfterPush st).
  unfold diisWeight, diisNorm, diisEvecs.
  rewrite Hfull, Nat.eqb_refl. simpl negb. cbv iota.
  assert (Hb : back (residualsAfterPush st) = newResidual st) by apply back_app_one.
  rewrite Hb, Hns.
  destruct (diis_zero_loop (mixedVariable (rp st)) (needsKEdensity (e st)) ns
              (eVars (e st)) (newResidual st) Hn Ht Hr) as (Z1 & Z2 & Z3).
  destruct (fold_left (diis_zero_body _ _) (seq 0 ns) _) as [evz resz].
  simpl fst in *. simpl snd in *.
  set (W := fun j => weight _ _ j).
  destruct (diis_acc_loop (mixedVariable (rp st)) (needsKEdensity (e st)) W
              (pastVariables_n st) (pastVariables_tau st) (residualsAfterPush st)
              ns (seq 0 (history (rp st))) evz resz) as (A1 & A2 & A3).
  - rewrite Z1. unfold zeroC. now rewrite imap_length.
  - intros Hke. rewrite Z2, Hke. unfold zeroC. rewrite imap_length. now apply Ht.
  - rewrite Z3. unfold zeroC. now rewrite imap_length.
  - subst W. cbv beta in A1, A2, A3.
    unfold with_e, with_eVars. cbn [e eVars fst snd].
    rewrite A1, A2, A3, Z1, Z2, Z3.
    destruct (needsKEdensity (e st)); auto.
Qed.

Lemma combine_from_zero (w : nat -> Q) hist ns g ndim c s i :
  shaped ns g c ->
  (forall j, (j < ndim)%nat -> shaped ns g (nth j hist [])) ->
  (s < ns)%nat -> (i < g)%nat ->
  nth i (at_ (combine_hist w hist (seq 0 ndim) (zeroC c)) s) 0 == lincomb w ndim hist s i.
Proof.
  intros Hc Hh Hs Hi.
  destruct (combine_hist_sample w hist ns g (seq 0 ndim) (zeroC c) s i) as (_ & S2); auto.
  - now apply shaped_zeroC.
  - intros j Hj. apply Hh. apply in_seq in Hj. lia.
  - rewrite S2, (sample_zeroC ns g) by assumption. unfold lincomb. ring.
Qed.


(** C6.  When fewer residuals than [history] are stored after the push,
    [mixDIIS] plain-mixes the current variable with the most recent snapshot
    and returns: the eigenvectors are not used (the result is the same for
    every [diagonalize]) and no weighted combination is formed or
    reported. *)
Theorem mixDIIS_short_history alpha diag st :
  (length (residualsAfterPush st) < history (rp st))%nat ->
  mixDIIS alpha diag st
  = (mkSCF (mixPlain alpha (mixedVariable (rp st)) (back (pastVariables_n st))
                     (back (pastVariables_tau st)) (e st))
           (updateOverlap (dV (e st)) (residualsAfterPush st) (overlap st))
           (pastVariables_n st) (pastVariables_tau st) (residualsAfterPush st),
     None)
  /\ (forall diag', mixDIIS alpha diag' st = mixDIIS alpha diag st)
  /\ (mixPlain_shapes (mixedVariable (rp st)) (back (pastVariables_n st))
                      (back (pastVariables_tau st)) (e st) ->
      variable_n (mixedVariable (rp st)) (eVars (e (fst (mixDIIS alpha diag st))))
      = mix_spec alpha (variable_n (mixedVariable (rp st)) (eVars (e st)))
                 (back (pastVariables_n st))).
Proof.
  intros Hlt.
  assert (Heq : forall d, mixDIIS alpha d st
            = (mkSCF (mixPlain alpha (mixedVariable (rp st)) (back (pastVariables_n st))
                               (back (pastVariables_tau st)) (e st))
                     (updateOverlap (dV (e st)) (residualsAfterPush st) (overlap st))
                     (pastVariables_n st) (pastVariables_tau st) (residualsAfterPush st),
               None)).
  { intros d. unfold mixDIIS. cbv zeta.
    fold (newResidual st). fold (residualsAfterPush st).
    destruct (Nat.eqb_spec (length (residualsAfterPush st)) (history (rp st))) as [E|_];
      [lia|]. reflexivity. }
  split; [apply Heq|]. split.
  - intros diag'. now rewrite !Heq.
  - intros Hsh. rewrite Heq. cbn [fst e]. now apply mixPlain_variable_n.
Qed.

(** With [history = 1] the history is full at every call, so the fallback of
    line 144 is never taken: under the conditions of the full-history path
    the returned variable is the stored snapshot itself. *)
Lemma mixDIIS_history_one_returns_snapshot alpha diag st ns g :
  diis_shapes ns g st ->
  history (rp st) = 1%nat ->
  pastResiduals st = [] ->
  length (pastVariables_n st) = 1%nat ->
  ~ diisNorm diag st == 0 ->
  forall s i, (s < ns)%nat -> (i < g)%nat ->
    nth i (at_ (variable_n (mixedVariable (rp st))
                           (eVars (e (fst (mixDIIS alpha diag st))))) s) 0
    == nth i (at_ (nth 0 (pastVariables_n st) []) s) 0.
Proof.
  intros Hsh H1 HpR Hpv Hnz s i Hs Hi.
  assert (Hfull : length (residualsAfterPush st) = history (rp st)).
  { unfold residualsAfterPush. rewrite HpR, H1. reflexivity. }
  assert (Hpos : (0 < length (pastVariables_n st))%nat) by lia.
  pose proof (shaped_newResidual ns g st Hsh Hpos) as Hres.
  pose proof Hsh as (Hns & Hvn & Hpn & Hpr & Hke).
  destruct (mixDIIS_full_closed alpha diag st ns Hfull Hns (proj1 Hvn)
              (fun H => proj1 (proj1 (Hke H))) (proj1 Hres)) as (C1 & _).
  rewrite C1, (combine_from_zero _ _ ns g); auto.
  - assert (Hw : sum (map (diisWeight diag st) (seq 0 (history (rp st)))) == 1).
    { unfold diisWeight, diisNorm in *. rewrite <- Hfull. now apply weights_sum_one. }
    rewrite H1 in *. unfold lincomb. simpl in *.
    assert (Hw0 : diisWeight diag st 0 == 1) by (rewrite <- Hw; ring).
    rewrite Hw0. ring.
  - intros j Hj. apply Hpn. lia.
Qed.

(** C3.  A DIIS step with [history = 1], field [1] and snapshot [0]: the
    history is full after the push, the path taken is the full-history one,
    and for every [diagonalize] the variable becomes 0, the snapshot,
    whereas plain mixing with the same fraction 1/2 gives 1/2. *)
Theorem mixDIIS_history_one_differs diag :
  history (rp ex1_st) = 1%nat
  /\ length (residualsAfterPush ex1_st) = history (rp ex1_st)
  /\ Ceq (variable_n density (eVars (e (fst (mixDIIS (1#2) diag ex1_st))))) [[0]]
  /\ Ceq (variable_n density
            (eVars (mixPlain (1#2) density (back (pastVariables_n ex1_st))
                             (back (pastVariables_tau ex1_st)) (e ex1_st))))
         [[1#2]]
  /\ ~ Ceq (variable_n density (eVars (e (fst (mixDIIS (1#2) diag ex1_st)))))
           (variable_n density
              (eVars (mixPlain (1#2) density (back (pastVariables_n ex1_st))
                               (back (pastVariables_tau ex1_st)) (e ex1_st)))).
Proof.
  split; [reflexivity|]. split; [reflexivity|]. cbn. repeat split.
  - repeat constructor. ring.
  - repeat constructor.
  - intros H. inversion H as [|x y l l' H1 _]; subst.
    inversion H1 as [|a b k k' H2 _]; subst. revert H2.
    match goal with |- 0 * 1 + ?w * 0 == _ -> _ =>
      assert (Hz : 0 * 1 + w * 0 == 0) by ring; rewrite Hz end.
    discriminate.
Qed.

(** ** Identical residuals *)

Lemma sum_map_Qeq (f h : nat -> Q) js :
  (forall j, In j js -> f j == h j) -> sum (map f js) == sum (map h js).
Proof.
  induction js as [|j js IH]; intros H; simpl; [reflexivity|].
  rewrite (H j) by now left. rewrite IH; [reflexivity|].
  intros j' Hj'. apply H. now right.
Qed.

Lemma sum_map_const (a : Q) js : sum (map (fun _ : nat => a) js) == inject_Z (Z.of_nat (length js)) * a.
Proof.
  induction js as [|j js IH]; [simpl; ring|].
  simpl sum. rewrite IH. simpl length. rewrite Nat2Z.inj_succ.
  unfold Z.succ. rewrite inject_Z_plus. ring.
Qed.

(** When all [ndim * ndim] overlaps are the same number [a], a vector [c]
    with [M c = lambda c] for a [lambda] other than [ndim * a] has components
    that add up to zero.  The eigenvalues of such a matrix are 0 and
    [ndim * a]; an eigenvector of the eigenvalue 0 is what [mixDIIS] then
    divides by the component sum of. *)
Lemma degenerate_overlap_norm_zero (M : matrix) (c : nat -> Q) (ndim : nat) (a lambda : Q) :
  (forall i j, (i < ndim)%nat -> (j < ndim)%nat -> real (entry M i j) == a) ->
  (forall i, (i < ndim)%nat ->
     sum (map (fun j => real (entry M i j) * c j) (seq 0 ndim)) == lambda * c i) ->
  ~ lambda == inject_Z (Z.of_nat ndim) * a ->
  sum (map c (seq 0 ndim)) == 0.
Proof.
  intros Hall Heig Hne.
  set (S := sum (map c (seq 0 ndim))).
  assert (Hrow : forall i, (i < ndim)%nat -> a * S == lambda * c i).
  { intros i Hi. rewrite <- (Heig i Hi). unfold S.
    rewrite (sum_map_Qeq (fun j => real (entry M i j) * c j) (fun j => c j * a)).
    - rewrite sum_scale_r. ring.
    - intros j Hj. apply in_seq in Hj. rewrite (Hall i j) by lia. ring. }
  assert (Htot : inject_Z (Z.of_nat ndim) * (a * S) == lambda * S).
  { rewrite <- (length_seq ndim 0) at 1. rewrite <- sum_map_const.
    rewrite (sum_map_Qeq (fun _ => a * S) (fun i => c i * lambda)).
    - rewrite sum_scale_r. fold S. ring.
    - intros i Hi. apply in_seq in Hi. rewrite (Hrow i) by lia. ring. }
  assert (Hprod : (lambda - inject_Z (Z.of_nat ndim) * a) * S == 0) by (rewrite <- (Qplus_opp_r (lambda * S)); rewrite <- Htot at 2; ring).
  apply Qmult_integral in Hprod. destruct Hprod as [Hl|Hs]; [|exact Hs].
  exfalso. apply Hne. lra.
Qed.


(** Whatever [diagonalize] returns for the example of three identical
    residuals: if column 0 is an eigenvector of an eigenvalue other than 3,
    the largest one, [norm] is zero. *)
Lemma ex2_lowest_eigenvector_norm_zero diag lambda :
  (forall i, (i < 3)%nat ->
     sum (map (fun j =>
                 real (entry (updateOverlap (dV (e ex2_st)) (residualsAfterPush ex2_st)
                                            (overlap ex2_st)) i j)
                 * real (entry (diisEvecs diag ex2_st) j 0))
              (seq 0 3))
     == lambda * real (entry (diisEvecs diag ex2_st) i 0)) ->
  ~ lambda == 3 ->
  diisNorm diag ex2_st == 0.
Proof.
  intros Heig Hne. unfold diisNorm. rewrite evecNorm_sum.
  change (length (residualsAfterPush ex2_st)) with 3%nat.
  apply (degenerate_overlap_norm_zero
           (updateOverlap (dV (e ex2_st)) (residualsAfterPush ex2_st) (overlap ex2_st))
           (fun j => real (entry (diisEvecs diag ex2_st) j 0)) 3 1 lambda).
  - intros i j Hi Hj.
    below3 i; below3 j;
      vm_compute; reflexivity.
  - exact Heig.
  - intros H. apply Hne. rewrite H. reflexivity.
Qed.

(** ** The loop of SCF::minimize *)

Lemma Qltb_lt x y : Qltb x y = true <-> x < y.
Proof.
  unfold Qltb. rewrite negb_true_iff. split.
  - intros H. apply Qnot_le_lt. intros Hle. apply Qle_bool_iff in Hle. congruence.
  - intros H. destruct (Qle_bool y x) eqn:Hb; [|reflexivity].
    apply Qle_bool_iff in Hb. exfalso. now apply (Qlt_not_le x y).
Qed.

Lemma mixPlain_body_config alpha mv pn pt e s :
  residualMinimizerParams (mixPlain_body alpha mv pn pt e s) = residualMinimizerParams e
  /\ needsKEdensity (mixPlain_body alpha mv pn pt e s) = needsKEdensity e
  /\ dV (mixPlain_body alpha mv pn pt e s) = dV e.
Proof. unfold mixPlain_body, with_eVars. simpl. auto. Qed.

Lemma mixPlain_config alpha mv pn pt e :
  residualMinimizerParams (mixPlain alpha mv pn pt e) = residualMinimizerParams e
  /\ needsKEdensity (mixPlain alpha mv pn pt e) = needsKEdensity e
  /\ dV (mixPlain alpha mv pn pt e) = dV e.
Proof.
  unfold mixPlain. generalize (seq 0 (length (ElecVars.n (eVars e)))) as l.
  intros l. revert e. induction l as [|s l IH]; intros e; simpl; [auto|].
  destruct (IH (mixPlain_body alpha mv pn pt e s)) as (I1 & I2 & I3).
  destruct (mixPlain_body_config alpha mv pn pt e s) as (B1 & B2 & B3).
  repeat split; congruence.
Qed.

Lemma mixDIIS_state alpha diag st :
  pastResiduals (fst (mixDIIS alpha diag st)) = residualsAfterPush st
  /\ pastVariables_n (fst (mixDIIS alpha diag st)) = pastVariables_n st
  /\ pastVariables_tau (fst (mixDIIS alpha diag st)) = pastVariables_tau st
  /\ residualMinimizerParams (e (fst (mixDIIS alpha diag st))) = residualMinimizerParams (e st)
  /\ needsKEdensity (e (fst (mixDIIS alpha diag st))) = needsKEdensity (e st).
Proof.
  unfold mixDIIS. cbv zeta.
  fold (newResidual st). fold (residualsAfterPush st).
  destruct (negb _); cbn [fst with_e with_eVars e pastResiduals pastVariables_n
                          pastVariables_tau residualMinimizerParams needsKEdensity].
  - destruct (mixPlain_config alpha (mixedVariable (rp st)) (back (pastVariables_n st))
                (back (pastVariables_tau st)) (e st)) as (C1 & C2 & _).
    auto.
  - auto.
Qed.

Section MinimizeFacts.
Context {Hidden : Type} (X : External Hidden).

Lemma cacheOld_fields (st : LoopState Hidden) :
  Eprev (cacheOld st) = E st /\ E (cacheOld st) = E st
  /\ iterLog (cacheOld st) = iterLog st
  /\ scf (cacheOld st) = cacheVariables (clearHistoryIfFull (scf st)).
Proof. unfold cacheOld. simpl. auto. Qed.

Lemma solveStep_fields k (st : LoopState Hidden) :
  Eprev (solveStep X k st) = Eprev st
  /\ iterLog (solveStep X k st)
     = iterLog st ++ [mkIterLog k (Eprev st) (E (solveStep X k st))]
  /\ pastVariables_n (scf (solveStep X k st)) = pastVariables_n (scf st)
  /\ pastVariables_tau (scf (solveStep X k st)) = pastVariables_tau (scf st)
  /\ pastResiduals (scf (solveStep X k st)) = pastResiduals (scf st)
  /\ residualMinimizerParams (e (scf (solveStep X k st)))
     = residualMinimizerParams (e (scf st))
  /\ needsKEdensity (e (scf (solveStep X k st))) = needsKEdensity (e (scf st)).
Proof.
  unfold solveStep.
  destruct (bandMinimize X _ _) as [h1 ev1].
  destruct (elecEnergyAndGrad X h1 ev1) as [E' [h2 ev2]].
  simpl. auto 10.
Qed.

Lemma mixStep_fields (st : LoopState Hidden) :
  Eprev (mixStep X st) = Eprev st /\ E (mixStep X st) = E st
  /\ iterLog (mixStep X st) = iterLog st
  /\ pastVariables_n (scf (mixStep X st)) = pastVariables_n (scf st)
  /\ pastVariables_tau (scf (mixStep X st)) = pastVariables_tau (scf st)
  /\ pastResiduals (scf (mixStep X st))
     = match vectorExtrapolationMethod (rp (scf st)) with
       | plainMixing => pastResiduals (scf st)
       | DIIS => residualsAfterPush (scf st)
       end
  /\ residualMinimizerParams (e (scf (mixStep X st)))
     = residualMinimizerParams (e (scf st))
  /\ needsKEdensity (e (scf (mixStep X st))) = needsKEdensity (e (scf st)).
Proof.
  unfold mixStep.
  set (s1 := match vectorExtrapolationMethod (rp (scf st)) with
             | plainMixing => _ | DIIS => _ end).
  assert (Hs1 : pastVariables_n s1 = pastVariables_n (scf st)
                /\ pastVariables_tau s1 = pastVariables_tau (scf st)
                /\ pastResiduals s1
                   = match vectorExtrapolationMethod (rp (scf st)) with
                     | plainMixing => pastResiduals (scf st)
                     | DIIS => residualsAfterPush (scf st)
                     end
                /\ residualMinimizerParams (e s1) = residualMinimizerParams (e (scf st))
                /\ needsKEdensity (e s1) = needsKEdensity (e (scf st))).
  { unfold s1. destruct (vectorExtrapolationMethod (rp (scf st))).
    - destruct (mixPlain_config (defaultMixFraction X) (mixedVariable (rp (scf st)))
                  (back (pastVariables_n (scf st))) (back (pastVariables_tau (scf st)))
                  (e (scf st))) as (C1 & C2 & _).
      simpl. auto.
    - destruct (mixDIIS_state (defaultMixFraction X) (diagonalize X) (scf st))
        as (D1 & D2 & D3 & D4 & D5). auto. }
  destruct Hs1 as (S1 & S2 & S3 & S4 & S5).
  destruct (mixedVariable (rp (scf st))).
  - destruct (EdensityAndVscloc X _ _) as [h ev]. simpl. auto 10.
  - simpl. auto 10.
Qed.
End MinimizeFacts.

Section LoopFacts.
Context {Hidden : Type} (X : External Hidden).

Lemma scfLoop_converged todo :
  forall k (st : LoopState Hidden),
  LogInv k st ->
  converged (scfLoop X todo k st) = true ->
  exists k', ConvergedAt (scfLoop X todo k st) k'.
Proof.
  induction todo as [|todo IH]; intros k st (Hlen & Hlast) Hconv; simpl in *.
  - discriminate.
  - destruct (cacheOld_fields st) as (C1 & C2 & C3 & C4).
    destruct (solveStep_fields X k (cacheOld st)) as (S1 & S2 & _).
    set (st1 := solveStep X k (cacheOld st)) in *.
    destruct (convergedTest st1) eqn:Htest.
    + exists k. unfold ConvergedAt. cbn [final iterationsUsed].
      rewrite S2, C3. rewrite app_nth2 by lia.
      rewrite Hlen, Nat.sub_diag. cbn [nth it_E it_Eprev it_scfCounter].
      rewrite length_app, Hlen. cbn [length].
      repeat split; try lia; try congruence.
      * unfold convergedTest in Htest. apply Qltb_lt in Htest.
        rewrite S1 in Htest. exact Htest.
      * intros k' Hk'. rewrite app_nth1 by lia. rewrite C1. symmetry. now apply Hlast.
    + destruct (mixStep_fields X st1) as (M1 & M2 & M3 & _).
      apply IH; [|exact Hconv]. split.
      * rewrite M3, S2, C3, length_app, Hlen. simpl. lia.
      * intros k' Hk'. injection Hk' as <-.
        rewrite M3, M2, S2, C3. rewrite app_nth2 by lia.
        rewrite Hlen, Nat.sub_diag. reflexivity.
Qed.

Lemma initialState_fields e0 overlap0 (h0 : Hidden) :
  iterLog (initialState X e0 overlap0 h0) = []
  /\ E (initialState X e0 overlap0 h0) = E_indeterminate X
  /\ pastVariables_n (scf (initialState X e0 overlap0 h0)) = []
  /\ pastVariables_tau (scf (initialState X e0 overlap0 h0)) = []
  /\ pastResiduals (scf (initialState X e0 overlap0 h0)) = []
  /\ residualMinimizerParams (e (scf (initialState X e0 overlap0 h0)))
     = residualMinimizerParams e0
  /\ needsKEdensity (e (scf (initialState X e0 overlap0 h0))) = needsKEdensity e0.
Proof.
  unfold initialState.
  destruct (elecEnergyAndGrad X h0 (eVars e0)) as [E0 [h1 ev1]]. simpl. auto 10.
Qed.

Lemma scfLoop_iterations todo :
  forall k (st : LoopState Hidden),
  (k <= iterationsUsed (scfLoop X todo k st) <= k + todo)%nat
  /\ (converged (scfLoop X todo k st) = false ->
      iterationsUsed (scfLoop X todo k st) = (k + todo)%nat).
Proof.
  induction todo as [|todo IH]; intros k st; simpl.
  - split; [lia|]. intros _. lia.
  - destruct (convergedTest _).
    + simpl. split; [lia|]. discriminate.
    + destruct (IH (S k) (mixStep X (solveStep X k (cacheOld st)))) as (I1 & I2).
      split; [lia|]. intros Hc. rewrite (I2 Hc). lia.
Qed.
End LoopFacts.

(** C1 (as amended).  A run ends converged in pass [k] only if the energy
    change [|E - Eprev|] of that pass is below the threshold, where from the
    second pass on [Eprev] is the energy of the pass before. *)
Theorem minimize_converged_only_below_threshold {Hidden : Type} (X : External Hidden)
    e0 overlap0 (h0 : Hidden) :
  converged (minimize X e0 overlap0 h0) = true ->
  exists k, ConvergedAt (minimize X e0 overlap0 h0) k.
Proof.
  intros Hconv. unfold minimize in *.
  apply scfLoop_converged; [|exact Hconv].
  destruct (initialState_fields X e0 overlap0 h0) as (I1 & _).
  split; [now rewrite I1 | intros k' Hk'; discriminate].
Qed.

(** C1, the part that fails: this run is left by the [break] in its first
    pass ([scfCounter = 0]). *)
Lemma minimize_converges_in_first_pass :
  converged (minimize ex3_X ex3_e ex2_overlap tt) = true
  /\ iterationsUsed (minimize ex3_X ex3_e ex2_overlap tt) = 1%nat
  /\ iterLog (final (minimize ex3_X ex3_e ex2_overlap tt)) = [mkIterLog 0 0 (1 # 1000)].
Proof. vm_compute. auto. Qed.

Lemma clearHistoryIfFull_e st : e (clearHistoryIfFull st) = e st.
Proof. unfold clearHistoryIfFull. destruct (_ || _); reflexivity. Qed.

Lemma first_pass_rp {Hidden : Type} (X : External Hidden) e0 overlap0 (h0 : Hidden) :
  rp (scf (solveStep X 0 (cacheOld (initialState X e0 overlap0 h0))))
  = residualMinimizerParams e0.
Proof.
  unfold rp.
  destruct (solveStep_fields X 0 (cacheOld (initialState X e0 overlap0 h0)))
    as (_ & _ & _ & _ & _ & S6 & _).
  rewrite S6. unfold cacheOld, cacheVariables. cbn [scf e].
  rewrite clearHistoryIfFull_e.
  now destruct (initialState_fields X e0 overlap0 h0) as (_ & _ & _ & _ & _ & I6 & _).
Qed.

Lemma scfLoop_log_length {Hidden : Type} (X : External Hidden) todo :
  forall k (st : LoopState Hidden),
  length (iterLog st) = k ->
  length (iterLog (final (scfLoop X todo k st))) = iterationsUsed (scfLoop X todo k st).
Proof.
  induction todo as [|todo IH]; intros k st Hlen; cbn [scfLoop].
  - exact Hlen.
  - destruct (solveStep_fields X k (cacheOld st)) as (_ & S2 & _).
    destruct (cacheOld_fields st) as (_ & _ & C3 & _).
    assert (Hlen1 : length (iterLog (solveStep X k (cacheOld st))) = S k).
    { rewrite S2, length_app, C3, Hlen. simpl. lia. }
    destruct (convergedTest _).
    + exact Hlen1.
    + apply IH. destruct (mixStep_fields X (solveStep X k (cacheOld st))) as (_ & _ & M3 & _).
      now rewrite M3.
Qed.

Lemma scfLoop_unconverged_final {Hidden : Type} (X : External Hidden) e0 overlap0
    (h0 : Hidden) todo :
  forall k,
  converged (scfLoop X todo k (headState X e0 overlap0 h0 k)) = false ->
  final (scfLoop X todo k (headState X e0 overlap0 h0 k))
  = headState X e0 overlap0 h0 (k + todo).
Proof.
  induction todo as [|todo IH]; intros k; cbn [scfLoop].
  - intros _. now rewrite Nat.add_0_r.
  - destruct (convergedTest _); [discriminate|].
    change (mixStep X (solveStep X k (cacheOld (headState X e0 overlap0 h0 k))))
      with (headState X e0 overlap0 h0 (S k)).
    intros Hc. rewrite (IH (S k) Hc). f_equal. lia.
Qed.

(** C9.  With an iteration cap of at least 1 the loop runs at least one and
    at most [nIterations] passes, and every pass that is counted has run
    the solve of lines 72-87: the log holds one iteration line per pass.  A
    run that never meets the threshold stops after exactly [nIterations]
    passes, unconverged, in the state that [nIterations] passes of caching,
    solving and mixing lead to.  In particular, with [nIterations = 1] and a
    first energy change not below the threshold, the run makes exactly one
    pass, whose solve and mixing step give the final state, and ends
    unconverged. *)
Theorem minimize_iteration_cap {Hidden : Type} (X : External Hidden)
    e0 overlap0 (h0 : Hidden) :
  (1 <= nIterations (residualMinimizerParams e0))%Z ->
  (1 <= Z.of_nat (iterationsUsed (minimize X e0 overlap0 h0))
   <= nIterations (residualMinimizerParams e0))%Z
  /\ length (iterLog (final (minimize X e0 overlap0 h0)))
     = iterationsUsed (minimize X e0 overlap0 h0)
  /\ (converged (minimize X e0 overlap0 h0) = false ->
      Z.of_nat (iterationsUsed (minimize X e0 overlap0 h0))
      = nIterations (residualMinimizerParams e0)
      /\ final (minimize X e0 overlap0 h0)
         = headState X e0 overlap0 h0 (Z.to_nat (nIterations (residualMinimizerParams e0))))
  /\ (nIterations (residualMinimizerParams e0) = 1%Z ->
      ~ Qabs (E (solveStep X 0 (cacheOld (initialState X e0 overlap0 h0)))
              - Eprev (solveStep X 0 (cacheOld (initialState X e0 overlap0 h0))))
        < energyDiffThreshold (residualMinimizerParams e0) ->
      iterationsUsed (minimize X e0 overlap0 h0) = 1%nat
      /\ converged (minimize X e0 overlap0 h0) = false
      /\ final (minimize X e0 overlap0 h0)
         = mixStep X (solveStep X 0 (cacheOld (initialState X e0 overlap0 h0)))
      /\ iterLog (final (minimize X e0 overlap0 h0))
         = [mkIterLog 0 (E_indeterminate X)
              (E (solveStep X 0 (cacheOld (initialState X e0 overlap0 h0))))]).
Proof.
  intros HN. unfold minimize.
  set (N := nIterations (residualMinimizerParams e0)) in *.
  set (st0 := initialState X e0 overlap0 h0).
  destruct (scfLoop_iterations X (Z.to_nat N) 0 st0) as (I1 & I2).
  split; [|split; [|split]].
  - split; [|lia].
    destruct (Z.to_nat N) as [|todo] eqn:HtoN; [lia|]. simpl.
    destruct (convergedTest _); [simpl; lia|].
    destruct (scfLoop_iterations X todo 1 (mixStep X (solveStep X 0 (cacheOld st0))))
      as (J1 & _). lia.
  - apply scfLoop_log_length. subst st0.
    now destruct (initialState_fields X e0 overlap0 h0) as (-> & _).
  - intros Hc. split; [rewrite (I2 Hc); lia|].
    subst st0. change (initialState X e0 overlap0 h0) with (headState X e0 overlap0 h0 0).
    apply (scfLoop_unconverged_final X e0 overlap0 h0 (Z.to_nat N) 0).
    exact Hc.
  - intros H1 Hnot. rewrite H1. simpl.
    destruct (convergedTest _) eqn:Htest.
    + exfalso. apply Hnot. unfold convergedTest in Htest. apply Qltb_lt in Htest.
      subst st0. rewrite (first_pass_rp X e0 overlap0 h0) in Htest. exact Htest.
    + simpl. split; [reflexivity|]. split; [reflexivity|]. split; [reflexivity|].
      destruct (mixStep_fields X (solveStep X 0 (cacheOld st0))) as (_ & _ & M3 & _).
      destruct (solveStep_fields X 0 (cacheOld st0)) as (_ & S2 & _).
      destruct (cacheOld_fields st0) as (C1 & _ & C3 & _).
      rewrite M3, S2, C3, C1. subst st0.
      destruct (initialState_fields X e0 overlap0 h0) as (I1' & I2' & _).
      now rewrite I1', I2'.
Qed.

(** ** The history buffers *)

Lemma HistoryInv_bounded RP KE d m st :
  (m <= history RP)%nat -> HistoryInv RP KE d m st -> HistoryBounded (history RP) st.
Proof.
  intros Hm (_ & _ & Hn & Ht & Hr). unfold HistoryBounded.
  rewrite Ht, Hr. destruct KE, (vectorExtrapolationMethod RP); repeat split; lia.
Qed.

Lemma clearHistoryIfFull_inv RP KE st :
  (1 <= history RP)%nat ->
  HistoryInv RP KE 0 (history RP) st ->
  HistoryInv RP KE 0 (history RP - 1) (clearHistoryIfFull st).
Proof.
  intros H1 (Hrp & Hke & Hn & Ht & Hr). unfold clearHistoryIfFull, rp.
  rewrite Hrp, Hke.
  destruct (Nat.leb_spec (history RP) (length (pastResiduals st))) as [L1|L1];
    destruct (Nat.leb_spec (history RP) (length (pastVariables_n st))) as [L2|L2];
    cbn [orb]; unfold HistoryInv;
    cbn [e pastVariables_n pastVariables_tau pastResiduals];
    rewrite ?Hrp, ?Hke;
    destruct KE, (vectorExtrapolationMethod RP); cbn [length];
    repeat split; try assumption; try reflexivity; try lia.
Qed.

Lemma cacheVariables_inv RP KE st :
  (1 <= history RP)%nat ->
  HistoryInv RP KE 0 (history RP - 1) st ->
  HistoryInv RP KE 1 (history RP) (cacheVariables st).
Proof.
  intros H1 (Hrp & Hke & Hn & Ht & Hr). unfold cacheVariables, HistoryInv.
  cbn [e pastVariables_n pastVariables_tau pastResiduals].
  rewrite Hke, length_app. cbn [length].
  destruct KE; rewrite ?length_app; cbn [length];
    destruct (vectorExtrapolationMethod RP);
    repeat split; try assumption; try lia.
Qed.

Section HistoryFacts.
Context {Hidden : Type} (X : External Hidden).

Lemma solveStep_inv RP KE d m k (st : LoopState Hidden) :
  HistoryInv RP KE d m (scf st) -> HistoryInv RP KE d m (scf (solveStep X k st)).
Proof.
  intros (Hrp & Hke & Hn & Ht & Hr).
  destruct (solveStep_fields X k st) as (_ & _ & S3 & S4 & S5 & S6 & S7).
  unfold HistoryInv. rewrite S3, S4, S5, S6, S7. auto.
Qed.

Lemma mixStep_inv RP KE m (st : LoopState Hidden) :
  HistoryInv RP KE 1 m (scf st) -> HistoryInv RP KE 0 m (scf (mixStep X st)).
Proof.
  intros (Hrp & Hke & Hn & Ht & Hr).
  destruct (mixStep_fields X st) as (_ & _ & _ & M4 & M5 & M6 & M7 & M8).
  unfold HistoryInv. rewrite M4, M5, M6, M7, M8. unfold rp. rewrite Hrp.
  repeat split; try assumption; try lia.
  destruct (vectorExtrapolationMethod RP); [exact Hr|].
  unfold residualsAfterPush. rewrite length_app, Hr. simpl. lia.
Qed.

Lemma scfPoints_bounded RP KE todo :
  (1 <= history RP)%nat ->
  forall k (st : LoopState Hidden),
  HistoryInv RP KE 0 (history RP) (scf st) ->
  Forall (HistoryBounded (history RP)) (scfPoints X todo k st).
Proof.
  intros H1. induction todo as [|todo IH]; intros k st Hinv; simpl; [constructor|].
  pose proof (clearHistoryIfFull_inv RP KE (scf st) H1 Hinv) as Hc.
  pose proof (cacheVariables_inv RP KE _ H1 Hc) as Hm.
  pose proof (solveStep_inv RP KE 1 (history RP) k (cacheOld st) Hm) as Hs.
  constructor; [apply (HistoryInv_bounded RP KE 0 (history RP - 1)); [lia|exact Hc]|].
  constructor; [apply (HistoryInv_bounded RP KE 1 (history RP)); [lia|exact Hm]|].
  constructor; [apply (HistoryInv_bounded RP KE 1 (history RP)); [lia|exact Hs]|].
  destruct (convergedTest _); [constructor|].
  pose proof (mixStep_inv RP KE (history RP) _ Hs) as Hh.
  constructor; [apply (HistoryInv_bounded RP KE 0 (history RP)); [lia|exact Hh]|].
  apply IH. exact Hh.
Qed.
End HistoryFacts.

(** The program points listed by [runPoints] are those of the run made by
    [minimize]: the last of them is the state in which the loop is left. *)
Lemma scfPoints_end {Hidden : Type} (X : External Hidden) todo :
  forall k (st : LoopState Hidden) d,
  last (scf st :: scfPoints X todo k st) d = scf (final (scfLoop X todo k st)).
Proof.
  induction todo as [|todo IH]; intros k st d; [reflexivity|].
  cbn [scfPoints scfLoop].
  destruct (convergedTest _); [reflexivity|].
  rewrite <- (IH (S k) (mixStep X (solveStep X k (cacheOld st))) d). reflexivity.
Qed.

Lemma runPoints_end {Hidden : Type} (X : External Hidden) e0 overlap0 (h0 : Hidden) d :
  last (runPoints X e0 overlap0 h0) d = scf (final (minimize X e0 overlap0 h0)).
Proof. apply scfPoints_end. Qed.

(** C4.  With [history >= 1], at every program point of a run each of the
    three history vectors holds at most [history] entries.  When the
    snapshot vector is full at the head of a pass it is cleared as a whole
    and after the push of line 69 holds the new snapshot only (and so does
    the auxiliary one when the kinetic-energy density is enabled); when the
    residual vector is full it is cleared as a whole and after the push of
    line 131 holds the new residual only. *)
Theorem history_never_exceeds_depth {Hidden : Type} (X : External Hidden)
    e0 overlap0 (h0 : Hidden) :
  (1 <= history (residualMinimizerParams e0))%nat ->
  Forall (HistoryBounded (history (residualMinimizerParams e0))) (runPoints X e0 overlap0 h0)
  /\ (forall st : SCFState,
        (1 <= history (rp st))%nat ->
        length (pastVariables_n st) = history (rp st) ->
        pastVariables_n (clearHistoryIfFull st) = []
        /\ pastVariables_n (cacheVariables (clearHistoryIfFull st))
           = [variable_n (mixedVariable (rp st)) (eVars (e st))]
        /\ (needsKEdensity (e st) = true ->
            pastVariables_tau (cacheVariables (clearHistoryIfFull st))
            = [variable_tau (mixedVariable (rp st)) (eVars (e st))]))
  /\ (forall (k : nat) (st : LoopState Hidden),
        (1 <= history (rp (scf st)))%nat ->
        vectorExtrapolationMethod (rp (scf st)) = DIIS ->
        length (pastResiduals (scf st)) = history (rp (scf st)) ->
        pastResiduals (clearHistoryIfFull (scf st)) = []
        /\ pastResiduals (scf (mixStep X (solveStep X k (cacheOld st))))
           = [newResidual (scf (solveStep X k (cacheOld st)))]).
Proof.
  intros H1. split; [|split].
  - unfold runPoints.
    destruct (initialState_fields X e0 overlap0 h0) as (_ & _ & I3 & I4 & I5 & I6 & I7).
    assert (Hinv : HistoryInv (residualMinimizerParams e0) (needsKEdensity e0) 0
                     (history (residualMinimizerParams e0))
                     (scf (initialState X e0 overlap0 h0))).
    { unfold HistoryInv. rewrite I3, I4, I5, I6, I7. simpl.
      destruct (needsKEdensity e0), (vectorExtrapolationMethod _); repeat split; lia. }
    constructor.
    + apply (HistoryInv_bounded _ (needsKEdensity e0) 0
               (history (residualMinimizerParams e0))); [lia|exact Hinv].
    + now apply (scfPoints_bounded X _ (needsKEdensity e0)).
  - intros st Hh Hfull. unfold clearHistoryIfFull, cacheVariables.
    replace (history (rp st) <=? length (pastVariables_n st))%nat with true
      by (symmetry; apply Nat.leb_le; lia).
    rewrite orb_true_r. cbn [e pastVariables_n pastVariables_tau rp].
    split; [reflexivity|]. split; [reflexivity|].
    intros Hke. rewrite Hke. reflexivity.
  - intros k st Hh Hdiis Hfull.
    assert (Hclear : pastResiduals (clearHistoryIfFull (scf st)) = []).
    { unfold clearHistoryIfFull.
      replace (history (rp (scf st)) <=? length (pastResiduals (scf st)))%nat with true
        by (symmetry; apply Nat.leb_le; lia).
      cbn [orb pastResiduals]. now rewrite Hdiis. }
    split; [exact Hclear|].
    destruct (mixStep_fields X (solveStep X k (cacheOld st)))
      as (_ & _ & _ & _ & _ & M6 & _).
    destruct (solveStep_fields X k (cacheOld st)) as (_ & _ & _ & _ & S5 & S6 & _).
    rewrite M6. unfold rp at 1. rewrite S6.
    unfold cacheOld at 1. cbn [scf]. unfold cacheVariables at 1. cbn [e].
    rewrite clearHistoryIfFull_e. fold (rp (scf st)). rewrite Hdiis.
    unfold residualsAfterPush. rewrite S5.
    unfold cacheOld at 1. cbn [scf]. unfold cacheVariables at 1. cbn [pastResiduals].
    rewrite Hclear. reflexivity.
Qed.

(** ** The overlap matrix along a run *)

Lemma updateOverlap_dims dV pR ov :
  (length pR <= nRows ov)%nat -> (length pR <= nCols ov)%nat ->
  nRows (updateOverlap dV pR ov) = nRows ov /\ nCols (updateOverlap dV pR ov) = nCols ov.
Proof.
  intros Hr Hc. unfold updateOverlap.
  destruct (updateOverlap_prefix dV pR ov (length pR)) as (H1 & H2 & _); auto.
Qed.

Lemma clearHistoryIfFull_overlap H st :
  OverlapInv H st -> OverlapInv H (clearHistoryIfFull st).
Proof.
  intros (Hex & Hr & Hc). unfold clearHistoryIfFull.
  destruct (_ || _); [|now split]. unfold OverlapInv. cbn [e overlap pastResiduals].
  split; [|now split].
  destruct (vectorExtrapolationMethod (rp st)); [exact Hex|].
  intros i j Hi. simpl in Hi. lia.
Qed.

Lemma mixDIIS_overlap alpha diag st :
  overlap (fst (mixDIIS alpha diag st))
  = updateOverlap (dV (e st)) (residualsAfterPush st) (overlap st)
  /\ dV (e (fst (mixDIIS alpha diag st))) = dV (e st).
Proof.
  unfold mixDIIS. cbv zeta.
  fold (newResidual st). fold (residualsAfterPush st).
  destruct (negb _); cbn [fst with_e with_eVars e overlap dV].
  - split; [reflexivity|].
    now destruct (mixPlain_config alpha (mixedVariable (rp st)) (back (pastVariables_n st))
                    (back (pastVariables_tau st)) (e st)) as (_ & _ & C3).
  - split; reflexivity.
Qed.

(** C7.  After a call of [mixDIIS], on either of its paths, with [ndim] the
    number of residuals after the push of line 131: the block of the first
    [ndim] rows and columns of the member [overlap] is symmetric; its entry
    (i, j) is the inner product of the residuals i and j (for residuals of
    one or two fields, which is what the macro [overlapResiduals] sums); its
    diagonal holds the self overlaps, which are not negative when [dV] is
    not; and every entry of [overlap] outside row and column [ndim - 1] is
    the one the matrix had before the call: the call writes the newest row
    and column only.  The block of the older residuals is valid before the
    call (lemma [run_overlap_exact]: it is at every program point of every
    run), which after a clear says nothing. *)
Theorem overlap_incremental_update alpha diag st :
  (length (pastResiduals st) < nRows (overlap st))%nat ->
  (length (pastResiduals st) < nCols (overlap st))%nat ->
  OverlapExact (dV (e st)) (pastResiduals st) (overlap st) ->
  let st' := fst (mixDIIS alpha diag st) in
  let pR' := pastResiduals st' in
  let ndim := length pR' in
  let thisOverlap := submatrix (overlap st') 0 ndim 0 ndim in
  pR' = pastResiduals st ++ [newResidual st]
  /\ dV (e st') = dV (e st)
  /\ (forall i j, (i < ndim)%nat -> (j < ndim)%nat ->
        entry thisOverlap i j = entry thisOverlap j i)
  /\ (forall i j, (i < ndim)%nat -> (j < ndim)%nat ->
        length (nth i pR' []) = length (nth j pR' []) ->
        (length (nth i pR' []) <= 2)%nat ->
        real (entry thisOverlap i j)
        == innerProduct (dV (e st')) (nth i pR' []) (nth j pR' []))
  /\ (forall i, (i < ndim)%nat ->
        real (entry thisOverlap i i)
        = overlapResiduals (dV (e st')) (nth i pR' []) (nth i pR' [])
        /\ (0 <= dV (e st') -> 0 <= real (entry thisOverlap i i)))
  /\ (forall i j, i <> (ndim - 1)%nat -> j <> (ndim - 1)%nat ->
        entry (overlap st') i j = entry (overlap st) i j)
  /\ OverlapExact (dV (e st')) pR' (overlap st').
Proof.
  intros Hr Hc Hold st' pR' ndim thisOverlap.
  destruct (mixDIIS_state alpha diag st) as (HpR & _).
  destruct (mixDIIS_overlap alpha diag st) as (Hov & HdV).
  fold st' in HpR, Hov, HdV.
  unfold thisOverlap, ndim, pR'. rewrite HpR, Hov, HdV.
  unfold residualsAfterPush.
  destruct (updateOverlap_incremental (dV (e st)) (pastResiduals st) (newResidual st)
              (overlap st) Hr Hc Hold) as (U1 & U2 & U3 & U4 & U5).
  split; [reflexivity|]. split; [reflexivity|].
  split; [exact U1|]. split; [exact U2|]. split; [exact U3|]. split; [exact U4|exact U5].
Qed.

Section OverlapFacts.
Context {Hidden : Type} (X : External Hidden).

Lemma solveStep_overlap k (st : LoopState Hidden) :
  overlap (scf (solveStep X k st)) = overlap (scf st)
  /\ dV (e (scf (solveStep X k st))) = dV (e (scf st)).
Proof.
  unfold solveStep.
  destruct (bandMinimize X _ _) as [h1 ev1].
  destruct (elecEnergyAndGrad X h1 ev1) as [E' [h2 ev2]].
  simpl. auto.
Qed.

Lemma mixStep_overlap (st : LoopState Hidden) :
  overlap (scf (mixStep X st))
  = match vectorExtrapolationMethod (rp (scf st)) with
    | plainMixing => overlap (scf st)
    | DIIS => updateOverlap (dV (e (scf st))) (residualsAfterPush (scf st)) (overlap (scf st))
    end
  /\ dV (e (scf (mixStep X st))) = dV (e (scf st)).
Proof.
  unfold mixStep.
  set (s1 := match vectorExtrapolationMethod (rp (scf st)) with
             | plainMixing => _ | DIIS => _ end).
  assert (Hs1 : overlap s1
                = match vectorExtrapolationMethod (rp (scf st)) with
                  | plainMixing => overlap (scf st)
                  | DIIS => updateOverlap (dV (e (scf st))) (residualsAfterPush (scf st))
                                          (overlap (scf st))
                  end
                /\ dV (e s1) = dV (e (scf st))).
  { unfold s1. destruct (vectorExtrapolationMethod (rp (scf st))).
    - destruct (mixPlain_config (defaultMixFraction X) (mixedVariable (rp (scf st)))
                  (back (pastVariables_n (scf st))) (back (pastVariables_tau (scf st)))
                  (e (scf st))) as (_ & _ & C3).
      simpl. auto.
    - apply mixDIIS_overlap. }
  destruct Hs1 as (S1 & S2).
  destruct (mixedVariable (rp (scf st))).
  - destruct (EdensityAndVscloc X _ _) as [h ev]. simpl. auto.
  - simpl. auto.
Qed.

Lemma solveStep_overlap_inv H k (st : LoopState Hidden) :
  OverlapInv H (scf st) -> OverlapInv H (scf (solveStep X k st)).
Proof.
  intros (Hex & Hr & Hc).
  destruct (solveStep_overlap k st) as (O1 & O2).
  destruct (solveStep_fields X k st) as (_ & _ & _ & _ & S5 & _).
  unfold OverlapInv. rewrite O1, O2, S5. auto.
Qed.

Lemma mixStep_overlap_inv RP KE (st : LoopState Hidden) :
  HistoryInv RP KE 1 (history RP) (scf st) ->
  OverlapInv (history RP) (scf st) -> OverlapInv (history RP) (scf (mixStep X st)).
Proof.
  intros (Hrp & _ & Hn & _ & HpR) (Hex & Hr & Hc).
  destruct (mixStep_overlap st) as (O1 & O2).
  destruct (mixStep_fields X st) as (_ & _ & _ & _ & _ & M6 & _).
  unfold OverlapInv. rewrite O1, O2, M6. unfold rp. rewrite Hrp.
  destruct (vectorExtrapolationMethod RP); [auto|].
  assert (Hlt : (length (pastResiduals (scf st)) < history RP)%nat) by lia.
  unfold residualsAfterPush. split.
  - apply updateOverlap_keeps_exact; try lia. exact Hex.
  - destruct (updateOverlap_dims (dV (e (scf st)))
                (pastResiduals (scf st) ++ [newResidual (scf st)]) (overlap (scf st)))
      as (D1 & D2); rewrite ?length_app; simpl; try lia.
Qed.

Lemma scfPoints_overlap RP KE todo :
  (1 <= history RP)%nat ->
  forall k (st : LoopState Hidden),
  HistoryInv RP KE 0 (history RP) (scf st) ->
  OverlapInv (history RP) (scf st) ->
  Forall (OverlapInv (history RP)) (scfPoints X todo k st).
Proof.
  intros H1. induction todo as [|todo IH]; intros k st Hinv Hov; simpl; [constructor|].
  pose proof (clearHistoryIfFull_inv RP KE (scf st) H1 Hinv) as Hc.
  pose proof (cacheVariables_inv RP KE _ H1 Hc) as Hm.
  pose proof (solveStep_inv X RP KE 1 (history RP) k (cacheOld st) Hm) as Hs.
  pose proof (clearHistoryIfFull_overlap _ _ Hov) as Oc.
  assert (Om : OverlapInv (history RP) (scf (cacheOld st))) by exact Oc.
  pose proof (solveStep_overlap_inv _ k (cacheOld st) Om) as Os.
  constructor; [exact Oc|]. constructor; [exact Om|]. constructor; [exact Os|].
  destruct (convergedTest _); [constructor|].
  pose proof (mixStep_inv X RP KE (history RP) _ Hs) as Hh.
  pose proof (mixStep_overlap_inv RP KE _ Hs Os) as Oh.
  constructor; [exact Oh|]. now apply IH.
Qed.

(** In every run that starts with an overlap matrix of at least [history]
    rows and columns (the constructor makes it [history] x [history]), at
    every program point the block of the overlap matrix indexed by the
    stored residuals holds their overlaps. *)
Lemma run_overlap_exact e0 overlap0 (h0 : Hidden) :
  (1 <= history (residualMinimizerParams e0))%nat ->
  (history (residualMinimizerParams e0) <= nRows overlap0)%nat ->
  (history (residualMinimizerParams e0) <= nCols overlap0)%nat ->
  Forall (fun st => OverlapExact (dV (e st)) (pastResiduals st) (overlap st))
         (runPoints X e0 overlap0 h0).
Proof.
  intros H1 Hr Hc.
  apply (Forall_impl _ (P := OverlapInv (history (residualMinimizerParams e0))));
    [intros st (Hex & _); exact Hex|].
  unfold runPoints.
  destruct (initialState_fields X e0 overlap0 h0) as (_ & _ & I3 & I4 & I5 & I6 & I7).
  assert (Hov0 : overlap (scf (initialState X e0 overlap0 h0)) = overlap0).
  { unfold initialState. destruct (elecEnergyAndGrad X h0 (eVars e0)) as [E0 [h1 ev1]].
    reflexivity. }
  assert (Hinv : HistoryInv (residualMinimizerParams e0) (needsKEdensity e0) 0
                   (history (residualMinimizerParams e0))
                   (scf (initialState X e0 overlap0 h0))).
  { unfold HistoryInv. rewrite I3, I4, I5, I6, I7. simpl.
    destruct (needsKEdensity e0), (vectorExtrapolationMethod _); repeat split; lia. }
  assert (Hov : OverlapInv (history (residualMinimizerParams e0))
                  (scf (initialState X e0 overlap0 h0))).
  { unfold OverlapInv. rewrite I5, Hov0. split; [|now split].
    intros i j Hi. simpl in Hi. lia. }
  constructor; [exact Hov|].
  now apply (scfPoints_overlap _ (needsKEdensity e0)).
Qed.
End OverlapFacts.

(** ** The statements above at concrete inputs *)

Example mixPlain_potential_run :
  eVars (mixPlain (1 # 2) potential [[1; 1]] [[0; 0]] ex4_e)
  = ElecVars.mk [[1; 2]] [[(1 # 2) * 3 + (1 - (1 # 2)) * 1; (1 # 2) * 4 + (1 - (1 # 2)) * 1]]
                [[(1 # 2) * 7 + (1 - (1 # 2)) * 0; (1 # 2) * 8 + (1 - (1 # 2)) * 0]]
                [[7; 8]].
Proof. reflexivity. Qed.

Lemma ex4_shapes : mixPlain_shapes potential [[1; 1]] [[0; 0]] ex4_e.
Proof.
  unfold mixPlain_shapes. simpl. repeat split; repeat constructor.
Defined.

Lemma mixPlain_linear_mix_witness :
  variable_n potential (eVars (mixPlain (1 # 2) potential [[1; 1]] [[0; 0]] ex4_e))
  = mix_spec (1 # 2) [[3; 4]] [[1; 1]].
Proof.
  exact (proj1 (mixPlain_linear_mix (1 # 2) potential [[1; 1]] [[0; 0]] ex4_e ex4_shapes)).
Defined.

Lemma mixPlain_aux_goes_to_tau_witness :
  ElecVars.tau (eVars (mixPlain (1 # 2) potential [[1; 1]] [[0; 0]] ex4_e))
  = mix_spec (1 # 2) [[7; 8]] [[0; 0]]
  /\ ElecVars.Vtau (eVars (mixPlain (1 # 2) potential [[1; 1]] [[0; 0]] ex4_e)) = [[7; 8]].
Proof.
  destruct (mixPlain_aux_goes_to_tau (1 # 2) potential [[1; 1]] [[0; 0]] ex4_e
              ex4_shapes eq_refl) as (H1 & H2 & _).
  split; [exact H1 | exact H2].
Defined.

Example updateOverlap_run :
  map (fun ij => real (entry (updateOverlap 1 [[[1; 2]]; [[3; 4]]] ex5_overlap)
                             (fst ij) (snd ij)))
      [(0, 0); (0, 1); (1, 0); (1, 1)]%nat
  = [5; 1 * (1 * 3 + (2 * 4 + 0)) + 0; 1 * (1 * 3 + (2 * 4 + 0)) + 0;
     1 * (3 * 3 + (4 * 4 + 0)) + 0].
Proof. reflexivity. Qed.

Lemma overlap_incremental_update_witness :
  pastResiduals (fst (mixDIIS (1 # 2) ex6_diagonalize ex6_st)) = [[[2]]] ++ [newResidual ex6_st]
  /\ OverlapExact 1 (pastResiduals (fst (mixDIIS (1 # 2) ex6_diagonalize ex6_st)))
                    (overlap (fst (mixDIIS (1 # 2) ex6_diagonalize ex6_st))).
Proof.
  destruct (overlap_incremental_update (1 # 2) ex6_diagonalize ex6_st)
    as (H1 & _ & _ & _ & _ & _ & H7).
  - simpl. lia.
  - simpl. lia.
  - intros i j Hi Hj. change (i < 1)%nat in Hi. change (j < 1)%nat in Hj.
    assert (i = 0%nat) by lia. assert (j = 0%nat) by lia. subst.
    vm_compute. reflexivity.
  - split; [exact H1 | exact H7].
Defined.

Example mixDIIS_full_run :
  Ceq (variable_n density (eVars (e (fst (mixDIIS (1 # 2) ex6_diagonalize ex6_st)))))
      [[1 # 2]].
Proof. vm_compute. repeat constructor. Qed.

Lemma ex6_shapes : diis_shapes 1 1 ex6_st.
Proof.
  assert (Hone : forall c : list (list Q), length c = 1%nat ->
                   length (at_ c 0) = 1%nat -> shaped 1 1 c).
  { intros c H1 H2. split; [exact H1|].
    intros s Hs. assert (s = 0%nat) as -> by lia. exact H2. }
  unfold diis_shapes. simpl.
  split; [reflexivity|]. split; [now apply Hone|].
  split; [intros j Hj; destruct j as [|[|j]]; try lia; now apply Hone|].
  split; [intros j Hj; destruct j as [|j]; try lia; now apply Hone|].
  discriminate.
Defined.



Example mixDIIS_short_run :
  variable_n density (eVars (e (fst (mixDIIS (1 # 2) ex2_diagonalize ex7_st))))
  = [[(1 # 2) * 6 + (1 - (1 # 2)) * 5]]
  /\ snd (mixDIIS (1 # 2) ex2_diagonalize ex7_st) = None.
Proof. split; reflexivity. Qed.

Lemma mixDIIS_short_history_witness :
  mixDIIS (1 # 2) ex6_diagonalize ex7_st = mixDIIS (1 # 2) ex2_diagonalize ex7_st.
Proof.
  refine (proj1 (proj2 (mixDIIS_short_history (1 # 2) ex2_diagonalize ex7_st _))
                ex6_diagonalize).
  simpl. lia.
Defined.

Lemma minimize_converged_only_below_threshold_witness :
  exists k, ConvergedAt (minimize ex3_X ex3_e ex2_overlap tt) k.
Proof.
  apply (minimize_converged_only_below_threshold ex3_X ex3_e ex2_overlap tt).
  vm_compute. reflexivity.
Defined.

Lemma minimize_iteration_cap_witness :
  iterationsUsed (minimize ex8_X ex8_e ex2_overlap tt) = 1%nat
  /\ converged (minimize ex8_X ex8_e ex2_overlap tt) = false.
Proof.
  destruct (minimize_iteration_cap ex8_X ex8_e ex2_overlap tt) as (_ & _ & _ & H4).
  - simpl. lia.
  - destruct (H4 eq_refl) as (H5 & H6 & _).
    + vm_compute. discriminate.
    + split; [exact H5 | exact H6].
Defined.

Example history_lengths_run :
  map (fun st => (length (pastVariables_n st), length (pastResiduals st)))
      (runPoints ex9_X ex9_e ex2_overlap 0%nat)
  = [(0, 0); (0, 0); (1, 0); (1, 0); (1, 1);
     (1, 1); (2, 1); (2, 1); (2, 2);
     (2, 2); (3, 2); (3, 2); (3, 3);
     (0, 0); (1, 0); (1, 0); (1, 1);
     (1, 1); (2, 1); (2, 1); (2, 2)]%nat
  /\ iterationsUsed (minimize ex9_X ex9_e ex2_overlap 0%nat) = 5%nat
  /\ converged (minimize ex9_X ex9_e ex2_overlap 0%nat) = false.
Proof. vm_compute. auto. Qed.

Lemma history_never_exceeds_depth_witness :
  Forall (HistoryBounded 3) (runPoints ex9_X ex9_e ex2_overlap 0%nat).
Proof.
  refine (proj1 (history_never_exceeds_depth ex9_X ex9_e ex2_overlap 0%nat _)).
  simpl. lia.
Defined.

(** * Further properties of SCF.cpp *)

(** ** mixPlain *)

Lemma mixPlain_untouched_refl mv e : mixPlain_untouched mv e e.
Proof. unfold mixPlain_untouched. auto 10. Qed.

Lemma mixPlain_untouched_trans mv e1 e2 e3 :
  mixPlain_untouched mv e1 e2 -> mixPlain_untouched mv e2 e3 -> mixPlain_untouched mv e1 e3.
Proof.
  intros (A1 & A2 & A3 & A4 & A5 & A6 & A7 & A8 & A9)
         (B1 & B2 & B3 & B4 & B5 & B6 & B7 & B8 & B9).
  unfold mixPlain_untouched.
  repeat (split; [congruence|]).
  intros Hke. rewrite B9 by congruence. now apply A9.
Qed.

Lemma mixPlain_body_untouched alpha mv pn pt e s :
  mixPlain_untouched mv e (mixPlain_body alpha mv pn pt e s).
Proof.
  destruct e as [[a b c d] r ke v].
  unfold mixPlain_untouched, mixPlain_body, with_eVars.
  destruct mv, ke; simpl; rewrite ?assign_length; repeat split; auto; discriminate.
Qed.

Lemma mixPlain_fold_untouched alpha mv prev_n prev_tau l :
  forall e,
  mixPlain_untouched mv e
    (fold_left (mixPlain_body alpha mv prev_n prev_tau) l e).
Proof.
  induction l as [|s l IH]; intros e; simpl.
  - apply mixPlain_untouched_refl.
  - eapply mixPlain_untouched_trans; [apply mixPlain_body_untouched | apply IH].
Qed.

Lemma mix_spec_same_shape alpha (a b : list (list Q)) :
  same_shape a b -> same_shape a (mix_spec alpha a b).
Proof.
  induction 1 as [|x y a b Hxy H IH]; simpl; constructor; [|exact IH].
  unfold mix_field. rewrite zipWith_length, <- Hxy. now rewrite Nat.min_id.
Qed.

(** X1.  On arguments that the indexing of lines 115-117 can take (the mixed
    and the previous variable have one field per spin channel, field by
    field of the same grid size, and so have the auxiliary ones when the
    kinetic-energy density is enabled), [mixPlain] changes neither the
    configuration, nor [Vtau], nor the primary variable that is not the
    mixed one, nor the number of fields of any collection, nor the grid
    size of any field of the mixed variable; without the kinetic-energy
    density it does not change [tau] either. *)
Theorem mixPlain_leaves_rest_untouched alpha mv prev_n prev_tau e :
  mixPlain_shapes mv prev_n prev_tau e ->
  mixPlain_untouched mv e (mixPlain alpha mv prev_n prev_tau e)
  /\ same_shape (variable_n mv (eVars e))
                (variable_n mv (eVars (mixPlain alpha mv prev_n prev_tau e))).
Proof.
  intros Hsh. split.
  - unfold mixPlain. apply mixPlain_fold_untouched.
  - rewrite (mixPlain_variable_n alpha mv prev_n prev_tau e Hsh).
    apply mix_spec_same_shape. now destruct Hsh as (_ & Hs & _).
Qed.

Lemma at_mix_spec alpha (a b : list (list Q)) s :
  (s < length a)%nat -> (s < length b)%nat ->
  at_ (mix_spec alpha a b) s = mix_field alpha (at_ a s) (at_ b s).
Proof.
  revert a b; induction s as [|s IH]; intros [|x a] [|y b] Ha Hb; simpl in *;
    try lia; [reflexivity|].
  apply IH; lia.
Qed.

Lemma same_shape_at a b s :
  same_shape a b -> (s < length a)%nat -> length (at_ a s) = length (at_ b s).
Proof.
  intros H. revert s. induction H as [|x y a b Hxy H IH]; intros s Hs; simpl in *; [lia|].
  destruct s as [|s]; [exact Hxy|]. apply IH. lia.
Qed.

Lemma mix_spec_sample alpha (a b : list (list Q)) s i :
  same_shape a b -> (s < length a)%nat -> (i < length (at_ a s))%nat ->
  nth i (at_ (mix_spec alpha a b) s) 0
  = alpha * nth i (at_ a s) 0 + (1 - alpha) * nth i (at_ b s) 0.
Proof.
  intros Hsh Hs Hi.
  pose proof (same_shape_length _ _ Hsh) as Hl.
  pose proof (same_shape_at _ _ s Hsh Hs) as Hg.
  rewrite at_mix_spec by lia. unfold mix_field.
  now rewrite nth_zipWith by lia.
Qed.

(** X2.  For a mixing fraction between 0 and 1 every sample that [mixPlain]
    writes into the mixed variable lies between the corresponding samples of
    the previous and of the new variable: the step is a convex combination
    and never overshoots. *)
Theorem mixPlain_between_old_and_new alpha mv prev_n prev_tau e s i :
  mixPlain_shapes mv prev_n prev_tau e ->
  0 <= alpha -> alpha <= 1 ->
  (s < length (variable_n mv (eVars e)))%nat ->
  (i < length (at_ (variable_n mv (eVars e)) s))%nat ->
  (nth i (at_ (variable_n mv (eVars e)) s) 0 <= nth i (at_ prev_n s) 0 ->
   nth i (at_ (variable_n mv (eVars e)) s) 0
   <= nth i (at_ (variable_n mv (eVars (mixPlain alpha mv prev_n prev_tau e))) s) 0
   <= nth i (at_ prev_n s) 0)
  /\ (nth i (at_ prev_n s) 0 <= nth i (at_ (variable_n mv (eVars e)) s) 0 ->
      nth i (at_ prev_n s) 0
      <= nth i (at_ (variable_n mv (eVars (mixPlain alpha mv prev_n prev_tau e))) s) 0
      <= nth i (at_ (variable_n mv (eVars e)) s) 0).
Proof.
  intros Hsh Ha0 Ha1 Hs Hi.
  rewrite (mixPlain_variable_n alpha mv prev_n prev_tau e Hsh).
  rewrite mix_spec_sample by (try apply Hsh; assumption).
  set (x := nth i (at_ (variable_n mv (eVars e)) s) 0).
  set (y := nth i (at_ prev_n s) 0).
  split; intros Hxy; split; nra.
Qed.

Lemma mix_field_fixed alpha (x y : list Q) : Feq x y -> Feq (mix_field alpha x y) x.
Proof.
  intros H. induction H as [|a b x y Hab H IH]; simpl; constructor; [|exact IH].
  rewrite <- Hab. ring.
Qed.

Lemma mix_spec_fixed alpha (a b : list (list Q)) : Ceq a b -> Ceq (mix_spec alpha a b) a.
Proof.
  intros H. induction H as [|x y a b Hxy H IH]; simpl; constructor; [|exact IH].
  now apply mix_field_fixed.
Qed.

Lemma Feq_length x y : Feq x y -> length x = length y.
Proof. induction 1; simpl; congruence. Qed.

Lemma Ceq_same_shape a b : Ceq a b -> same_shape a b.
Proof.
  induction 1 as [|x y a b Hxy H IH]; constructor; [now apply Feq_length | exact IH].
Qed.

(** X3.  In exact arithmetic a self-consistent input is a fixed point of
    [mixPlain] for every mixing fraction: when the new variable equals the
    previous one, the mixed variable equals it too, and so does the
    auxiliary mix written to [tau] when the auxiliary variable equals its
    previous value.  In the double arithmetic of the code the fixed point is
    met up to rounding only (example [mixPlain_fixed_point_rounds]). *)
Theorem mixPlain_fixed_point alpha mv prev_n prev_tau e :
  length (variable_n mv (eVars e)) = length (ElecVars.n (eVars e)) ->
  Ceq (variable_n mv (eVars e)) prev_n ->
  (needsKEdensity e = true ->
   length (ElecVars.tau (eVars e)) = length (ElecVars.n (eVars e))
   /\ length (variable_tau mv (eVars e)) = length (ElecVars.n (eVars e))
   /\ Ceq (variable_tau mv (eVars e)) prev_tau) ->
  Ceq (variable_n mv (eVars (mixPlain alpha mv prev_n prev_tau e)))
      (variable_n mv (eVars e))
  /\ (needsKEdensity e = true ->
      Ceq (ElecVars.tau (eVars (mixPlain alpha mv prev_n prev_tau e)))
          (variable_tau mv (eVars e))).
Proof.
  intros Hn Hfix Haux.
  assert (Hsh : mixPlain_shapes mv prev_n prev_tau e).
  { split; [exact Hn|]. split; [now apply Ceq_same_shape|].
    intros Hke. destruct (Haux Hke) as (T1 & T2 & T3).
    split; [exact T1|]. split; [exact T2|]. now apply Ceq_same_shape. }
  split.
  - rewrite (mixPlain_variable_n alpha mv prev_n prev_tau e Hsh).
    now apply mix_spec_fixed.
  - intros Hke. rewrite (mixPlain_tau alpha mv prev_n prev_tau e Hsh Hke).
    apply mix_spec_fixed. now apply Haux.
Qed.

(** ** The loop of SCF::minimize: log, threshold and mixing method *)

Lemma pass_rp {Hidden : Type} (X : External Hidden) k (st : LoopState Hidden) :
  residualMinimizerParams (e (scf (solveStep X k (cacheOld st))))
  = residualMinimizerParams (e (scf st))
  /\ residualMinimizerParams (e (scf (mixStep X (solveStep X k (cacheOld st)))))
     = residualMinimizerParams (e (scf st)).
Proof.
  destruct (solveStep_fields X k (cacheOld st)) as (_ & _ & _ & _ & _ & S6 & _).
  destruct (mixStep_fields X (solveStep X k (cacheOld st)))
    as (_ & _ & _ & _ & _ & _ & M7 & _).
  assert (Hc : residualMinimizerParams (e (scf (cacheOld st)))
               = residualMinimizerParams (e (scf st))).
  { unfold cacheOld, cacheVariables. cbn [scf e]. now rewrite clearHistoryIfFull_e. }
  split; congruence.
Qed.

Lemma scfLoop_log {Hidden : Type} (X : External Hidden) RP todo :
  forall k (st : LoopState Hidden),
  LogHead RP k st ->
  length (iterLog (final (scfLoop X todo k st))) = iterationsUsed (scfLoop X todo k st)
  /\ LogChained (iterLog (final (scfLoop X todo k st)))
  /\ forall i, (i < length (iterLog (final (scfLoop X todo k st))))%nat ->
       (S i < length (iterLog (final (scfLoop X todo k st))))%nat
       \/ converged (scfLoop X todo k st) = false ->
       notBelow (energyDiffThreshold RP)
                (nth i (iterLog (final (scfLoop X todo k st))) (mkIterLog 0 0 0)).
Proof.
  induction todo as [|todo IH]; intros k st (Hrp & Hlen & (Hnum & Hch) & Hfail & Hlast).
  - simpl. split; [exact Hlen|]. split; [now split|].
    intros i Hi _. apply Hfail. lia.
  - cbn [scfLoop].
    destruct (cacheOld_fields st) as (C1 & C2 & C3 & C4).
    destruct (solveStep_fields X k (cacheOld st)) as (S1 & S2 & _).
    destruct (pass_rp X k st) as (P1 & P2).
    set (st1 := solveStep X k (cacheOld st)) in *.
    rewrite C3, C1 in S2.
    assert (Hlen1 : length (iterLog st1) = S k).
    { rewrite S2, length_app, Hlen. simpl. lia. }
    assert (Hold : forall i, (i < k)%nat ->
              nth i (iterLog st1) (mkIterLog 0 0 0) = nth i (iterLog st) (mkIterLog 0 0 0)).
    { intros i Hi. rewrite S2. apply app_nth1. lia. }
    assert (Hnew : nth k (iterLog st1) (mkIterLog 0 0 0) = mkIterLog k (E st) (E st1)).
    { rewrite S2, app_nth2 by lia. rewrite Hlen, Nat.sub_diag. reflexivity. }
    assert (Hchain1 : LogChained (iterLog st1)).
    { split.
      - intros i Hi. rewrite Hlen1 in Hi.
        destruct (Nat.eq_dec i k) as [->|Hne]; [now rewrite Hnew|].
        rewrite Hold by lia. apply Hnum. lia.
      - intros i Hi. rewrite Hlen1 in Hi.
        destruct (Nat.eq_dec (S i) k) as [Heq|Hne].
        + rewrite Heq, Hnew, Hold by lia. cbn [it_Eprev]. symmetry. now apply Hlast.
        + rewrite !Hold by lia. apply Hch. lia. }
    destruct (convergedTest st1) eqn:Htest.
    + cbn [final iterationsUsed converged].
      split; [exact Hlen1|]. split; [exact Hchain1|].
      intros i Hi [Hlt|Hc]; [|discriminate].
      rewrite Hlen1 in Hlt. rewrite Hold by lia. apply Hfail. lia.
    + apply IH. destruct (mixStep_fields X st1) as (M1 & M2 & M3 & _).
      split; [now rewrite P2|]. split; [now rewrite M3|].
      split; [now rewrite M3|]. split.
      * intros i Hi. rewrite M3.
        destruct (Nat.eq_dec i k) as [->|Hne].
        -- rewrite Hnew. unfold notBelow. cbn [it_E it_Eprev].
           intros Hlt. apply Qltb_lt in Hlt.
           unfold convergedTest, rp in Htest.
           rewrite P1, Hrp, S1, C1 in Htest. congruence.
        -- rewrite Hold by lia. apply Hfail. lia.
      * intros k' Hk'. injection Hk' as <-. rewrite M3, M2, Hnew. reflexivity.
Qed.

Lemma initialState_LogHead {Hidden : Type} (X : External Hidden) e0 overlap0 (h0 : Hidden) :
  LogHead (residualMinimizerParams e0) 0 (initialState X e0 overlap0 h0).
Proof.
  destruct (initialState_fields X e0 overlap0 h0) as (I1 & _ & _ & _ & _ & I6 & _).
  unfold LogHead, LogChained. rewrite I1, I6. simpl.
  repeat split; intros; try lia; discriminate.
Qed.

(** X4.  The log of a run has one line per pass, numbered from 0; every
    line after the first shows as [Eprev] the energy of the line before; and
    the loop stops at the first pass whose energy change is below the
    threshold: on every line but the last of a converged run, and on every
    line of an unconverged run, the change is not below it. *)
Theorem minimize_stops_at_first_hit {Hidden : Type} (X : External Hidden)
    e0 overlap0 (h0 : Hidden) :
  length (iterLog (final (minimize X e0 overlap0 h0)))
  = iterationsUsed (minimize X e0 overlap0 h0)
  /\ LogChained (iterLog (final (minimize X e0 overlap0 h0)))
  /\ forall i, (i < length (iterLog (final (minimize X e0 overlap0 h0))))%nat ->
       (S i < length (iterLog (final (minimize X e0 overlap0 h0))))%nat
       \/ converged (minimize X e0 overlap0 h0) = false ->
       notBelow (energyDiffThreshold (residualMinimizerParams e0))
                (nth i (iterLog (final (minimize X e0 overlap0 h0))) (mkIterLog 0 0 0)).
Proof.
  unfold minimize. apply scfLoop_log. apply initialState_LogHead.
Qed.

Lemma scfLoop_never_below {Hidden : Type} (X : External Hidden) RP todo :
  energyDiffThreshold RP <= 0 ->
  forall k (st : LoopState Hidden),
  residualMinimizerParams (e (scf st)) = RP ->
  converged (scfLoop X todo k st) = false
  /\ iterationsUsed (scfLoop X todo k st) = (k + todo)%nat.
Proof.
  intros Heps. induction todo as [|todo IH]; intros k st Hrp; cbn [scfLoop].
  - simpl. split; [reflexivity | lia].
  - destruct (pass_rp X k st) as (P1 & P2).
    destruct (convergedTest _) eqn:Htest.
    + exfalso. unfold convergedTest, rp in Htest. rewrite P1, Hrp in Htest.
      apply Qltb_lt in Htest.
      pose proof (Qabs_nonneg (E (solveStep X k (cacheOld st))
                               - Eprev (solveStep X k (cacheOld st)))) as Hnn.
      lra.
    + destruct (IH (S k) (mixStep X (solveStep X k (cacheOld st)))) as (I1 & I2);
        [congruence|].
      split; [exact I1 | lia].
Qed.

(** X5.  With an energy threshold that is zero or negative the test of line
    90 can never succeed: the run makes all its passes and ends
    unconverged. *)
Theorem minimize_nonpositive_threshold {Hidden : Type} (X : External Hidden)
    e0 overlap0 (h0 : Hidden) :
  energyDiffThreshold (residualMinimizerParams e0) <= 0 ->
  converged (minimize X e0 overlap0 h0) = false
  /\ iterationsUsed (minimize X e0 overlap0 h0)
     = Z.to_nat (nIterations (residualMinimizerParams e0)).
Proof.
  intros Heps. unfold minimize.
  destruct (scfLoop_never_below X (residualMinimizerParams e0)
              (Z.to_nat (nIterations (residualMinimizerParams e0))) Heps 0
              (initialState X e0 overlap0 h0)) as (H1 & H2).
  - now destruct (initialState_fields X e0 overlap0 h0) as (_ & _ & _ & _ & _ & I6 & _).
  - split; [exact H1|]. rewrite H2. reflexivity.
Qed.

Lemma scfPoints_plain {Hidden : Type} (X : External Hidden) overlap0 todo :
  forall k (st : LoopState Hidden),
  vectorExtrapolationMethod (rp (scf st)) = plainMixing ->
  ResidualsUnused overlap0 (scf st) ->
  Forall (ResidualsUnused overlap0) (scfPoints X todo k st).
Proof.
  induction todo as [|todo IH]; intros k st Hplain (HpR & Hov); cbn [scfPoints];
    [constructor|].
  assert (Hc : ResidualsUnused overlap0 (clearHistoryIfFull (scf st))).
  { unfold clearHistoryIfFull. destruct (_ || _); [|now split].
    split; cbn [pastResiduals overlap]; [now rewrite Hplain | exact Hov]. }
  assert (Hm : ResidualsUnused overlap0 (scf (cacheOld st))) by exact Hc.
  destruct (solveStep_fields X k (cacheOld st)) as (_ & _ & _ & _ & S5 & S6 & _).
  destruct (solveStep_overlap X k (cacheOld st)) as (O1 & _).
  assert (Hs : ResidualsUnused overlap0 (scf (solveStep X k (cacheOld st)))).
  { destruct Hm as (M1 & M2). split; congruence. }
  constructor; [exact Hc|]. constructor; [exact Hm|]. constructor; [exact Hs|].
  destruct (convergedTest _); [constructor|].
  destruct (pass_rp X k st) as (P1 & P2).
  assert (Hplain1 : vectorExtrapolationMethod (rp (scf (solveStep X k (cacheOld st))))
                    = plainMixing) by (unfold rp in *; now rewrite P1).
  destruct (mixStep_fields X (solveStep X k (cacheOld st)))
    as (_ & _ & _ & _ & _ & M6 & _).
  destruct (mixStep_overlap X (solveStep X k (cacheOld st))) as (MO & _).
  rewrite Hplain1 in M6, MO.
  assert (Hh : ResidualsUnused overlap0 (scf (mixStep X (solveStep X k (cacheOld st))))).
  { destruct Hs as (A1 & A2). split; congruence. }
  constructor; [exact Hh|].
  apply IH; [|exact Hh]. unfold rp in *. now rewrite P2.
Qed.

(** X6.  Under plain mixing a run never stores a residual and never writes
    the overlap matrix: at every program point [pastResiduals] is empty and
    [overlap] is the matrix the run started with. *)
Theorem plain_run_never_uses_residuals {Hidden : Type} (X : External Hidden)
    e0 overlap0 (h0 : Hidden) :
  vectorExtrapolationMethod (residualMinimizerParams e0) = plainMixing ->
  Forall (ResidualsUnused overlap0) (runPoints X e0 overlap0 h0).
Proof.
  intros Hplain. unfold runPoints.
  destruct (initialState_fields X e0 overlap0 h0) as (_ & _ & _ & _ & I5 & I6 & _).
  assert (Hov0 : overlap (scf (initialState X e0 overlap0 h0)) = overlap0).
  { unfold initialState. destruct (elecEnergyAndGrad X h0 (eVars e0)) as [E0 [h1 ev1]].
    reflexivity. }
  assert (H0 : ResidualsUnused overlap0 (scf (initialState X e0 overlap0 h0)))
    by now split.
  constructor; [exact H0|].
  apply scfPoints_plain; [|exact H0]. unfold rp. now rewrite I6.
Qed.

(** ** The period of the history *)

Lemma succ_mod j H :
  (1 <= H)%nat ->
  (S j mod H = if (j mod H + 1 =? H) then 0 else j mod H + 1)%nat.
Proof.
  intros H1.
  pose proof (Nat.div_mod_eq j H) as Hdm.
  pose proof (Nat.mod_upper_bound j H ltac:(lia)) as Hlt.
  destruct (Nat.eqb_spec (j mod H + 1) H) as [Heq|Hne].
  - symmetry. apply (Nat.mod_unique (S j) H (S (j / H)) 0); [lia|]. nia.
  - symmetry. apply (Nat.mod_unique (S j) H (j / H) (j mod H + 1)); [lia|]. nia.
Qed.

Lemma cache_length RP KE st :
  (1 <= history RP)%nat ->
  HistoryInv RP KE 0 (history RP) st ->
  length (pastVariables_n (cacheVariables (clearHistoryIfFull st)))
  = (if (history RP <=? length (pastVariables_n st)) then 1
     else S (length (pastVariables_n st)))%nat.
Proof.
  intros H1 (Hrp & Hke & Hn & Ht & Hr).
  unfold cacheVariables, clearHistoryIfFull, rp. rewrite Hrp.
  assert (Hcond : ((history RP <=? length (pastResiduals st))
                   || (history RP <=? length (pastVariables_n st)))%nat
                  = (history RP <=? length (pastVariables_n st))%nat).
  { destruct (Nat.leb_spec (history RP) (length (pastVariables_n st))) as [L|L];
      [apply orb_true_r|]. rewrite orb_false_r. apply Nat.leb_gt.
    rewrite Hr. destruct (vectorExtrapolationMethod RP); lia. }
  rewrite Hcond.
  destruct (history RP <=? length (pastVariables_n st))%nat;
    cbn [pastVariables_n]; rewrite ?length_app; simpl; lia.
Qed.

Section Period.
Context {Hidden : Type} (X : External Hidden).
Variables (e0 : Everything) (overlap0 : matrix) (h0 : Hidden).

Lemma headState_lengths k :
  (1 <= history (residualMinimizerParams e0))%nat ->
  HistoryInv (residualMinimizerParams e0) (needsKEdensity e0) 0
             (history (residualMinimizerParams e0)) (scf (headState X e0 overlap0 h0 k))
  /\ length (pastVariables_n (scf (headState X e0 overlap0 h0 k)))
     = match k with
       | O => 0%nat
       | S j => (j mod history (residualMinimizerParams e0) + 1)%nat
       end.
Proof.
  intros H1. induction k as [|k (IHinv & IHlen)].
  - cbn [headState].
    destruct (initialState_fields X e0 overlap0 h0) as (_ & _ & I3 & I4 & I5 & I6 & I7).
    split; [|now rewrite I3].
    unfold HistoryInv. rewrite I3, I4, I5, I6, I7. simpl.
    destruct (needsKEdensity e0), (vectorExtrapolationMethod _); repeat split; lia.
  - cbn [headState].
    set (st := headState X e0 overlap0 h0 k) in *.
    pose proof (clearHistoryIfFull_inv _ _ (scf st) H1 IHinv) as Hc.
    pose proof (cacheVariables_inv _ _ _ H1 Hc) as Hm.
    pose proof (solveStep_inv X _ _ 1 _ k (cacheOld st) Hm) as Hs.
    pose proof (mixStep_inv X _ _ _ _ Hs) as Hh.
    split; [exact Hh|].
    destruct (mixStep_fields X (solveStep X k (cacheOld st))) as (_ & _ & _ & M4 & _).
    destruct (solveStep_fields X k (cacheOld st)) as (_ & _ & S3 & _).
    rewrite M4, S3. unfold cacheOld. cbn [scf].
    rewrite (cache_length _ _ (scf st) H1 IHinv), IHlen.
    destruct IHinv as (_ & _ & Hn & _). rewrite IHlen in Hn.
    destruct k as [|j].
    + replace (history (residualMinimizerParams e0) <=? 0)%nat with false
        by (symmetry; apply Nat.leb_gt; lia).
      now rewrite Nat.Div0.mod_0_l.
    + rewrite (succ_mod j _ H1).
      destruct (Nat.leb_spec (history (residualMinimizerParams e0))
                  (j mod history (residualMinimizerParams e0) + 1)) as [L|L];
        destruct (Nat.eqb_spec (j mod history (residualMinimizerParams e0) + 1)
                    (history (residualMinimizerParams e0))); lia.
Qed.

Lemma solvedState_inv k :
  (1 <= history (residualMinimizerParams e0))%nat ->
  HistoryInv (residualMinimizerParams e0) (needsKEdensity e0) 1
             (history (residualMinimizerParams e0)) (scf (solvedState X e0 overlap0 h0 k))
  /\ length (pastVariables_n (scf (solvedState X e0 overlap0 h0 k)))
     = (k mod history (residualMinimizerParams e0) + 1)%nat.
Proof.
  intros H1. destruct (headState_lengths k H1) as (Hinv & Hlen).
  unfold solvedState. set (st := headState X e0 overlap0 h0 k) in *.
  pose proof (clearHistoryIfFull_inv _ _ (scf st) H1 Hinv) as Hc.
  pose proof (cacheVariables_inv _ _ _ H1 Hc) as Hm.
  pose proof (solveStep_inv X _ _ 1 _ k (cacheOld st) Hm) as Hs.
  split; [exact Hs|].
  pose proof (headState_lengths (S k) H1) as (_ & HlenS). cbn [headState] in HlenS.
  fold st in HlenS.
  destruct (mixStep_fields X (solveStep X k (cacheOld st))) as (_ & _ & _ & M4 & _).
  now rewrite M4 in HlenS.
Qed.

Lemma scfLoop_skip j :
  forall todo k,
  (j <= todo)%nat ->
  (forall i, (k <= i < k + j)%nat -> convergedTest (solvedState X e0 overlap0 h0 i) = false) ->
  scfLoop X todo k (headState X e0 overlap0 h0 k)
  = scfLoop X (todo - j) (k + j) (headState X e0 overlap0 h0 (k + j)).
Proof.
  induction j as [|j IH]; intros todo k Hj Hfail.
  - now rewrite Nat.sub_0_r, Nat.add_0_r.
  - destruct todo as [|todo]; [lia|]. cbn [scfLoop].
    fold (solvedState X e0 overlap0 h0 k).
    rewrite (Hfail k) by lia.
    change (mixStep X (solvedState X e0 overlap0 h0 k))
      with (headState X e0 overlap0 h0 (S k)).
    rewrite (IH todo (S k)) by (try lia; intros i Hi; apply Hfail; lia).
    replace (S k + j)%nat with (k + S j)%nat by lia. reflexivity.
Qed.

Lemma scfPoints_skip j :
  forall todo k,
  (j < todo)%nat ->
  (forall i, (k <= i < k + j)%nat -> convergedTest (solvedState X e0 overlap0 h0 i) = false) ->
  In (scf (solvedState X e0 overlap0 h0 (k + j)))
     (scfPoints X todo k (headState X e0 overlap0 h0 k)).
Proof.
  induction j as [|j IH]; intros todo k Hj Hfail.
  - destruct todo as [|todo]; [lia|]. cbn [scfPoints]. rewrite Nat.add_0_r.
    right. right. left. reflexivity.
  - destruct todo as [|todo]; [lia|]. cbn [scfPoints].
    fold (solvedState X e0 overlap0 h0 k).
    rewrite (Hfail k) by lia.
    right. right. right. right.
    change (mixStep X (solvedState X e0 overlap0 h0 k))
      with (headState X e0 overlap0 h0 (S k)).
    replace (k + S j)%nat with (S k + j)%nat by lia.
    apply IH; [lia|]. intros i Hi. apply Hfail. lia.
Qed.

Lemma passReached_point k :
  passReached X e0 overlap0 h0 k ->
  In (scf (solvedState X e0 overlap0 h0 k)) (runPoints X e0 overlap0 h0).
Proof.
  intros (Hk & Hfail). unfold runPoints. right.
  apply (scfPoints_skip k _ 0); [exact Hk|].
  intros i Hi. apply Hfail. lia.
Qed.
End Period.

(** X7.  In pass [k] of a run (counted from 0, history depth at least 1) the
    snapshot history holds [k mod history + 1] entries after line 70, the
    auxiliary history as many with the kinetic-energy density and none
    without, and the residual history [k mod history] entries under DIIS and
    none under plain mixing.  So under DIIS the history is full after the
    push of line 131, and the extrapolation is made, exactly in the passes
    with [(k + 1) mod history = 0]; in the others [mixDIIS] falls back. *)
Theorem history_is_periodic {Hidden : Type} (X : External Hidden)
    e0 overlap0 (h0 : Hidden) k :
  (1 <= history (residualMinimizerParams e0))%nat ->
  passReached X e0 overlap0 h0 k ->
  In (scf (solvedState X e0 overlap0 h0 k)) (runPoints X e0 overlap0 h0)
  /\ length (pastVariables_n (scf (solvedState X e0 overlap0 h0 k)))
     = (k mod history (residualMinimizerParams e0) + 1)%nat
  /\ length (pastVariables_tau (scf (solvedState X e0 overlap0 h0 k)))
     = (if needsKEdensity e0 then k mod history (residualMinimizerParams e0) + 1 else 0)%nat
  /\ length (pastResiduals (scf (solvedState X e0 overlap0 h0 k)))
     = (match vectorExtrapolationMethod (residualMinimizerParams e0) with
        | DIIS => k mod history (residualMinimizerParams e0)
        | plainMixing => 0
        end)%nat
  /\ (vectorExtrapolationMethod (residualMinimizerParams e0) = DIIS ->
      (length (residualsAfterPush (scf (solvedState X e0 overlap0 h0 k)))
       = history (rp (scf (solvedState X e0 overlap0 h0 k)))
       <-> (S k mod history (residualMinimizerParams e0) = 0)%nat)).
Proof.
  intros H1 Hreach.
  destruct (solvedState_inv X e0 overlap0 h0 k H1) as ((Hrp & Hke & Hn & Ht & Hr) & Hlen).
  split; [now apply passReached_point|]. split; [exact Hlen|].
  split; [now rewrite Ht, Hlen|].
  split; [rewrite Hr, Hlen; destruct (vectorExtrapolationMethod _); lia|].
  intros Hdiis. unfold residualsAfterPush, rp.
  rewrite length_app, Hr, Hrp, Hdiis, Hlen. cbn [length].
  rewrite (succ_mod k _ H1).
  destruct (Nat.eqb_spec (k mod history (residualMinimizerParams e0) + 1)
              (history (residualMinimizerParams e0))); split; lia.
Qed.

Lemma run_overlap_inv {Hidden : Type} (X : External Hidden) e0 overlap0 (h0 : Hidden) :
  (1 <= history (residualMinimizerParams e0))%nat ->
  (history (residualMinimizerParams e0) <= nRows overlap0)%nat ->
  (history (residualMinimizerParams e0) <= nCols overlap0)%nat ->
  Forall (OverlapInv (history (residualMinimizerParams e0))) (runPoints X e0 overlap0 h0).
Proof.
  intros H1 Hr Hc. unfold runPoints.
  destruct (initialState_fields X e0 overlap0 h0) as (_ & _ & I3 & I4 & I5 & I6 & I7).
  assert (Hov0 : overlap (scf (initialState X e0 overlap0 h0)) = overlap0).
  { unfold initialState. destruct (elecEnergyAndGrad X h0 (eVars e0)) as [E0 [h1 ev1]].
    reflexivity. }
  assert (Hinv : HistoryInv (residualMinimizerParams e0) (needsKEdensity e0) 0
                   (history (residualMinimizerParams e0))
                   (scf (initialState X e0 overlap0 h0))).
  { unfold HistoryInv. rewrite I3, I4, I5, I6, I7. simpl.
    destruct (needsKEdensity e0), (vectorExtrapolationMethod _); repeat split; lia. }
  assert (Hov : OverlapInv (history (residualMinimizerParams e0))
                  (scf (initialState X e0 overlap0 h0))).
  { unfold OverlapInv. rewrite I5, Hov0. split; [|now split].
    intros i j Hi. simpl in Hi. lia. }
  constructor; [exact Hov|].
  now apply (scfPoints_overlap X _ (needsKEdensity e0)).
Qed.

Lemma mixPlain_ignores_prev_tau alpha mv prev_n prev_tau prev_tau' e :
  needsKEdensity e = false ->
  mixPlain alpha mv prev_n prev_tau e = mixPlain alpha mv prev_n prev_tau' e.
Proof.
  intros Hke. unfold mixPlain.
  generalize (seq 0 (length (ElecVars.n (eVars e)))) as l. intros l.
  revert e Hke. induction l as [|s l IH]; intros e Hke; simpl; [reflexivity|].
  assert (Hb : mixPlain_body alpha mv prev_n prev_tau e s
               = mixPlain_body alpha mv prev_n prev_tau' e s).
  { unfold mixPlain_body. now rewrite Hke. }
  rewrite Hb. apply IH.
  destruct (mixPlain_body_untouched alpha mv prev_n prev_tau' e s) as (_ & K & _).
  now rewrite K.
Qed.

(** X8.  In a DIIS run whose overlap matrix has at least [history] rows and
    columns, when [mixDIIS] is called in pass [k]: [pastVariables_n] is not
    empty, so its [back()] is defined; after the push there are as many
    residuals as snapshots, at most [history] and at most the dimensions of
    [overlap], so [pastVariables_n[j]], [overlap.set(j, ndim-1, ...)] and
    the block [overlap(0, ndim, 0, ndim)] exist for all [j < ndim]; with the
    kinetic-energy density there are as many auxiliary snapshots.  Without
    it [pastVariables_tau] is empty in every pass, so the call
    [pastVariables_tau.back()] in the argument list of line 145 is made on
    an empty vector, which C++ leaves undefined: that one access is not in
    range.  What it returns is not read: without the kinetic-energy density
    the result of [mixPlain] is the same for every [prevVariable_tau]. *)
Theorem mixDIIS_accesses_in_pass {Hidden : Type} (X : External Hidden)
    e0 overlap0 (h0 : Hidden) k :
  (1 <= history (residualMinimizerParams e0))%nat ->
  (history (residualMinimizerParams e0) <= nRows overlap0)%nat ->
  (history (residualMinimizerParams e0) <= nCols overlap0)%nat ->
  vectorExtrapolationMethod (residualMinimizerParams e0) = DIIS ->
  passReached X e0 overlap0 h0 k ->
  let st := scf (solvedState X e0 overlap0 h0 k) in
  let ndim := length (residualsAfterPush st) in
  pastVariables_n st <> []
  /\ ndim = length (pastVariables_n st)
  /\ (ndim <= history (rp st))%nat
  /\ (ndim <= nRows (overlap st))%nat /\ (ndim <= nCols (overlap st))%nat
  /\ (needsKEdensity (e st) = true -> length (pastVariables_tau st) = ndim)
  /\ (needsKEdensity (e st) = false ->
      pastVariables_tau st = []
      /\ forall alpha prev_tau,
           mixPlain alpha (mixedVariable (rp st)) (back (pastVariables_n st))
                    (back (pastVariables_tau st)) (e st)
           = mixPlain alpha (mixedVariable (rp st)) (back (pastVariables_n st))
                      prev_tau (e st)).
Proof.
  intros H1 Hr Hc Hdiis Hreach st ndim.
  destruct (solvedState_inv X e0 overlap0 h0 k H1) as ((Hrp & Hke & Hn & Ht & HpR) & Hlen).
  fold st in Hrp, Hke, Hn, Ht, HpR, Hlen.
  pose proof (run_overlap_inv X e0 overlap0 h0 H1 Hr Hc) as Hall.
  rewrite Forall_forall in Hall.
  destruct (Hall st (passReached_point X e0 overlap0 h0 k Hreach)) as (_ & Or & Oc).
  assert (Hnd : ndim = length (pastVariables_n st)).
  { unfold ndim, residualsAfterPush. rewrite length_app, HpR, Hdiis. simpl. lia. }
  split; [intros Hnil; rewrite Hnil in Hn; simpl in Hn; lia|].
  split; [exact Hnd|]. unfold rp. rewrite Hrp.
  split; [lia|]. split; [lia|]. split; [lia|].
  split.
  - intros Hk. rewrite Ht. rewrite Hke in Hk. rewrite Hk. lia.
  - intros Hk. rewrite Hke in Hk. rewrite Hk in Ht.
    split; [now apply length_zero_iff_nil|].
    intros alpha prev_tau. apply mixPlain_ignores_prev_tau. now rewrite Hke.
Qed.

(** ** mixDIIS: the residual, constant histories, the eigenvector's scale *)

(** X9.  On both of its paths [mixDIIS] pushes exactly one residual and
    leaves the snapshot histories as they are; on same-shaped field sets
    every sample of the pushed residual is the sample of the current
    variable minus that of the most recent snapshot. *)
Theorem mixDIIS_pushes_difference alpha diag st ns g :
  diis_shapes ns g st ->
  (0 < length (pastVariables_n st))%nat ->
  pastResiduals (fst (mixDIIS alpha diag st)) = pastResiduals st ++ [newResidual st]
  /\ pastVariables_n (fst (mixDIIS alpha diag st)) = pastVariables_n st
  /\ pastVariables_tau (fst (mixDIIS alpha diag st)) = pastVariables_tau st
  /\ forall s i, (s < ns)%nat -> (i < g)%nat ->
       nth i (at_ (newResidual st) s) 0
       == nth i (at_ (variable_n (mixedVariable (rp st)) (eVars (e st))) s) 0
          - nth i (at_ (back (pastVariables_n st)) s) 0.
Proof.
  intros Hsh Hpos.
  destruct (mixDIIS_state alpha diag st) as (D1 & D2 & D3 & _).
  split; [exact D1|]. split; [exact D2|]. split; [exact D3|].
  intros s i Hs Hi.
  destruct Hsh as (_ & (Hv & Hvs) & Hp & _).
  assert (Hb : shaped ns g (back (pastVariables_n st))).
  { rewrite back_nth. apply Hp. lia. }
  destruct Hb as (Hb & Hbs).
  unfold newResidual. rewrite at_axpy by lia.
  unfold add. rewrite nth_zipWith by (rewrite ?scale_length, ?Hvs, ?Hbs; assumption).
  rewrite nth_scale by (rewrite Hbs; assumption). ring.
Qed.

Lemma lincomb_const (w : nat -> Q) ndim hist s i c :
  (forall j, (j < ndim)%nat -> nth i (at_ (nth j hist []) s) 0 == c) ->
  lincomb w ndim hist s i == sum (map w (seq 0 ndim)) * c.
Proof.
  intros Hc. unfold lincomb.
  rewrite (sum_map_Qeq _ (fun j => w j * c)).
  - apply sum_scale_r.
  - intros j Hj. apply in_seq in Hj. rewrite (Hc j) by lia. reflexivity.
Qed.

(** X10.  On the full-history path with a non-zero [norm], a history whose
    snapshots all have the same samples is reproduced: the returned variable
    has those samples (the weights add up to 1). *)
Theorem mixDIIS_reproduces_constant_history alpha diag st ns g v :
  diis_shapes ns g st ->
  length (residualsAfterPush st) = history (rp st) ->
  length (pastVariables_n st) = history (rp st) ->
  ~ diisNorm diag st == 0 ->
  (forall j s i, (j < history (rp st))%nat -> (s < ns)%nat -> (i < g)%nat ->
     nth i (at_ (nth j (pastVariables_n st) []) s) 0 == nth i (at_ v s) 0) ->
  forall s i, (s < ns)%nat -> (i < g)%nat ->
    nth i (at_ (variable_n (mixedVariable (rp st))
                           (eVars (e (fst (mixDIIS alpha diag st))))) s) 0
    == nth i (at_ v s) 0.
Proof.
  intros Hsh Hfull Hpv Hnz Hconst s i Hs Hi.
  assert (Hpos : (0 < length (pastVariables_n st))%nat).
  { rewrite Hpv, <- Hfull. unfold residualsAfterPush. rewrite length_app. simpl. lia. }
  pose proof (shaped_newResidual ns g st Hsh Hpos) as Hres.
  pose proof Hsh as (Hns & Hvn & Hpn & Hpr & Hke).
  destruct (mixDIIS_full_closed alpha diag st ns Hfull Hns (proj1 Hvn)
              (fun H => proj1 (proj1 (Hke H))) (proj1 Hres)) as (C1 & _).
  rewrite C1, (combine_from_zero _ _ ns g); auto.
  - rewrite (lincomb_const _ _ _ _ _ (nth i (at_ v s) 0)).
    + assert (Hw : sum (map (diisWeight diag st) (seq 0 (history (rp st)))) == 1).
      { unfold diisWeight, diisNorm in *. rewrite <- Hfull. now apply weights_sum_one. }
      rewrite Hw. ring.
    + intros j Hj. now apply Hconst.
  - intros j Hj. apply Hpn. lia.
Qed.

Lemma sum_map_scale_l (f : nat -> Q) t js :
  sum (map (fun j => t * f j) js) == t * sum (map f js).
Proof.
  induction js as [|j js IH]; simpl; [ring|]. rewrite IH. ring.
Qed.

Lemma weight_scale_invariant (M M' : matrix) ndim t :
  ~ t == 0 ->
  (forall j, (j < ndim)%nat -> real (entry M' j 0) == t * real (entry M j 0)) ->
  forall j, (j < ndim)%nat ->
    weight M' (evecNorm M' ndim) j == weight M (evecNorm M ndim) j.
Proof.
  intros Ht Hcol j Hj.
  assert (Hn : evecNorm M' ndim == t * evecNorm M ndim).
  { rewrite !evecNorm_sum.
    rewrite (sum_map_Qeq _ (fun j => t * real (entry M j 0))).
    - apply sum_map_scale_l.
    - intros j' Hj'. apply in_seq in Hj'. apply Hcol. lia. }
  unfold weight, Qdiv. rewrite Hn, (Hcol j Hj), Qinv_mult_distr.
  transitivity (t * / t * (real (entry M j 0) * / evecNorm M ndim)); [ring|].
  rewrite Qmult_inv_r by exact Ht. ring.
Qed.

Lemma lincomb_weights_Qeq (w w' : nat -> Q) ndim hist s i :
  (forall j, (j < ndim)%nat -> w' j == w j) ->
  lincomb w' ndim hist s i == lincomb w ndim hist s i.
Proof.
  intros Hw. unfold lincomb. apply sum_map_Qeq.
  intros j Hj. apply in_seq in Hj. rewrite (Hw j) by lia. reflexivity.
Qed.

(** X11.  The full-history result does not depend on the sign or the scale
    of the eigenvector that [diagonalize] returns: with a non-zero [norm],
    two eigen-solvers whose column 0 differ by a non-zero factor give the
    same weights and the same samples of the returned variable. *)
Theorem mixDIIS_eigenvector_scale_irrelevant alpha diag diag' st ns g t :
  diis_shapes ns g st ->
  length (residualsAfterPush st) = history (rp st) ->
  length (pastVariables_n st) = history (rp st) ->
  ~ diisNorm diag st == 0 ->
  ~ t == 0 ->
  (forall j, (j < history (rp st))%nat ->
     real (entry (diisEvecs diag' st) j 0) == t * real (entry (diisEvecs diag st) j 0)) ->
  (forall j, (j < history (rp st))%nat -> diisWeight diag' st j == diisWeight diag st j)
  /\ forall s i, (s < ns)%nat -> (i < g)%nat ->
       nth i (at_ (variable_n (mixedVariable (rp st))
                              (eVars (e (fst (mixDIIS alpha diag' st))))) s) 0
       == nth i (at_ (variable_n (mixedVariable (rp st))
                                 (eVars (e (fst (mixDIIS alpha diag st))))) s) 0.
Proof.
  intros Hsh Hfull Hpv _ Ht Hcol.
  assert (Hw : forall j, (j < history (rp st))%nat ->
                 diisWeight diag' st j == diisWeight diag st j).
  { intros j Hj. unfold diisWeight, diisNorm. rewrite Hfull.
    now apply (weight_scale_invariant _ _ _ t). }
  split; [exact Hw|]. intros s i Hs Hi.
  assert (Hpos : (0 < length (pastVariables_n st))%nat).
  { rewrite Hpv, <- Hfull. unfold residualsAfterPush. rewrite length_app. simpl. lia. }
  pose proof (shaped_newResidual ns g st Hsh Hpos) as Hres.
  pose proof Hsh as (Hns & Hvn & Hpn & Hpr & Hke).
  destruct (mixDIIS_full_closed alpha diag st ns Hfull Hns (proj1 Hvn)
              (fun H => proj1 (proj1 (Hke H))) (proj1 Hres)) as (C1 & _).
  destruct (mixDIIS_full_closed alpha diag' st ns Hfull Hns (proj1 Hvn)
              (fun H => proj1 (proj1 (Hke H))) (proj1 Hres)) as (C1' & _).
  rewrite C1, C1'.
  rewrite !(combine_from_zero _ _ ns g) by (auto; intros j Hj; apply Hpn; lia).
  now apply lincomb_weights_Qeq.
Qed.

(** X12.  When all the residuals after the push are one and the same [r]
    (and the block of the older ones was valid), every entry of the block is
    the self overlap of [r]; then for every [diagonalize] whose column 0 is
    an eigenvector of the block for an eigenvalue other than the largest
    one, [ndim] times that overlap, the normalisation constant [norm] of
    line 166 is zero. *)
Theorem mixDIIS_identical_residuals_zero_norm diag st r lambda :
  (length (pastResiduals st) < nRows (overlap st))%nat ->
  (length (pastResiduals st) < nCols (overlap st))%nat ->
  OverlapExact (dV (e st)) (pastResiduals st) (overlap st) ->
  (forall j, (j < length (residualsAfterPush st))%nat ->
     nth j (residualsAfterPush st) [] = r) ->
  (forall i, (i < length (residualsAfterPush st))%nat ->
     sum (map (fun j =>
                 real (entry (updateOverlap (dV (e st)) (residualsAfterPush st)
                                            (overlap st)) i j)
                 * real (entry (diisEvecs diag st) j 0))
              (seq 0 (length (residualsAfterPush st))))
     == lambda * real (entry (diisEvecs diag st) i 0)) ->
  ~ lambda == inject_Z (Z.of_nat (length (residualsAfterPush st)))
              * overlapResiduals (dV (e st)) r r ->
  (forall i j, (i < length (residualsAfterPush st))%nat ->
     (j < length (residualsAfterPush st))%nat ->
     entry (updateOverlap (dV (e st)) (residualsAfterPush st) (overlap st)) i j
     = of_double (overlapResiduals (dV (e st)) r r))
  /\ diisNorm diag st == 0.
Proof.
  intros Hr Hc Hex Hsame Heig Hne.
  pose proof (updateOverlap_keeps_exact (dV (e st)) (pastResiduals st) (newResidual st)
                (overlap st) Hr Hc Hex) as Hnew.
  fold (residualsAfterPush st) in Hnew.
  assert (Hall : forall i j, (i < length (residualsAfterPush st))%nat ->
            (j < length (residualsAfterPush st))%nat ->
            entry (updateOverlap (dV (e st)) (residualsAfterPush st) (overlap st)) i j
            = of_double (overlapResiduals (dV (e st)) r r)).
  { intros i j Hi Hj. rewrite (Hnew i j Hi Hj).
    rewrite !Hsame by lia. reflexivity. }
  split; [exact Hall|].
  unfold diisNorm. rewrite evecNorm_sum.
  apply (degenerate_overlap_norm_zero
           (updateOverlap (dV (e st)) (residualsAfterPush st) (overlap st))
           (fun j => real (entry (diisEvecs diag st) j 0))
           (length (residualsAfterPush st)) (overlapResiduals (dV (e st)) r r) lambda).
  - intros i j Hi Hj. rewrite (Hall i j Hi Hj). reflexivity.
  - exact Heig.
  - exact Hne.
Qed.

(** ** A DIIS run shorter than the history *)

Lemma mixPlain_eVars_cong alpha mv pn pt e e' :
  eVars e = eVars e' -> needsKEdensity e = needsKEdensity e' ->
  eVars (mixPlain alpha mv pn pt e) = eVars (mixPlain alpha mv pn pt e').
Proof.
  intros Hev Hke. unfold mixPlain. rewrite <- Hev.
  generalize (seq 0 (length (ElecVars.n (eVars e)))) as l. intros l.
  revert e e' Hev Hke. induction l as [|s l IH]; intros e e' Hev Hke; simpl; [exact Hev|].
  apply IH.
  - unfold mixPlain_body, with_eVars. cbn [eVars]. now rewrite Hev, Hke.
  - unfold mixPlain_body, with_eVars. cbn [needsKEdensity]. exact Hke.
Qed.

Lemma mixDIIS_fallback alpha diag st :
  length (residualsAfterPush st) <> history (rp st) ->
  e (fst (mixDIIS alpha diag st))
  = mixPlain alpha (mixedVariable (rp st)) (back (pastVariables_n st))
             (back (pastVariables_tau st)) (e st).
Proof.
  intros Hne. unfold mixDIIS. cbv zeta.
  fold (newResidual st). fold (residualsAfterPush st).
  destruct (Nat.eqb_spec (length (residualsAfterPush st)) (history (rp st))) as [E|_];
    [contradiction|]. reflexivity.
Qed.

Section ShortRun.
Context {Hidden : Type} (X : External Hidden).

Lemma no_clear st :
  (length (pastResiduals st) < history (rp st))%nat ->
  (length (pastVariables_n st) < history (rp st))%nat ->
  clearHistoryIfFull st = st.
Proof.
  intros Hr Hn. unfold clearHistoryIfFull.
  replace (history (rp st) <=? length (pastResiduals st))%nat with false
    by (symmetry; apply Nat.leb_gt; exact Hr).
  replace (history (rp st) <=? length (pastVariables_n st))%nat with false
    by (symmetry; apply Nat.leb_gt; exact Hn).
  reflexivity.
Qed.

Lemma short_pass k (st st' : LoopState Hidden) :
  SameButMethod st st' ->
  length (pastVariables_n (scf st)) = k ->
  length (pastResiduals (scf st)) = k ->
  pastResiduals (scf st') = [] ->
  (S k < history (rp (scf st)))%nat ->
  SameButMethod (solveStep X k (cacheOld st)) (solveStep X k (cacheOld st'))
  /\ SameButMethod (mixStep X (solveStep X k (cacheOld st)))
                   (mixStep X (solveStep X k (cacheOld st')))
  /\ length (pastVariables_n (scf (mixStep X (solveStep X k (cacheOld st))))) = S k
  /\ length (pastResiduals (scf (mixStep X (solveStep X k (cacheOld st))))) = S k
  /\ pastResiduals (scf (mixStep X (solveStep X k (cacheOld st')))) = [].
Proof.
  intros (Hh & HE & HEp & Hlog & Hev & Hke & HdV & Hpn & Hpt & Hhist & Hthr & Hmv & Hd & Hp)
         Hlen HlenR HpR' Hk.
  (* the caching step: no history is cleared *)
  assert (Hc : clearHistoryIfFull (scf st) = scf st) by (apply no_clear; lia).
  assert (Hc' : clearHistoryIfFull (scf st') = scf st').
  { apply no_clear; rewrite <- ?Hhist, <- ?Hpn, ?HpR'; simpl; lia. }
  unfold cacheOld. rewrite Hc, Hc'.
  set (c := mkLoop (cacheVariables (scf st)) (hidden st) (E st) (E st) (iterLog st)).
  set (c' := mkLoop (cacheVariables (scf st')) (hidden st') (E st') (E st') (iterLog st')).
  assert (Hcv : pastVariables_n (cacheVariables (scf st))
                = pastVariables_n (cacheVariables (scf st'))
                /\ pastVariables_tau (cacheVariables (scf st))
                   = pastVariables_tau (cacheVariables (scf st'))).
  { unfold cacheVariables. cbn [pastVariables_n pastVariables_tau].
    rewrite Hpn, Hpt, Hmv, Hev, Hke. split; reflexivity. }
  destruct Hcv as (Hcn & Hct).
  (* the solve *)
  assert (Hs : SameButMethod (solveStep X k c) (solveStep X k c')).
  { unfold solveStep, c, c'. cbn [hidden scf Eprev iterLog e cacheVariables].
    rewrite <- Hh, <- Hev, <- HE, <- Hlog.
    destruct (bandMinimize X (hidden st) (eVars (e (scf st)))) as [h1 ev1].
    destruct (elecEnergyAndGrad X h1 ev1) as [E1 [h2 ev2]].
    unfold SameButMethod, rp, with_e, with_eVars. cbn.
    rewrite <- Hpn, <- Hpt, <- Hmv, <- Hev, <- Hke, <- HdV.
    unfold rp in *. repeat split; auto. }
  split; [exact Hs|].
  set (s := solveStep X k c) in *. set (s' := solveStep X k c') in *.
  destruct Hs as (Sh & SE & SEp & Slog & Sev & Ske & SdV & Spn & Spt & Shist & Sthr & Smv
                  & Sd & Sp).
  destruct (solveStep_fields X k c) as (_ & _ & F3 & F4 & F5 & F6 & _).
  fold s in F3, F4, F5, F6.
  assert (Hn1 : length (pastVariables_n (scf s)) = S k).
  { rewrite F3. unfold c, cacheVariables. cbn [scf pastVariables_n].
    rewrite length_app, Hlen. simpl. lia. }
  assert (Hr1 : length (pastResiduals (scf s)) = k).
  { rewrite F5. unfold c, cacheVariables. cbn [scf pastResiduals]. exact HlenR. }
  assert (Hhs : history (rp (scf s)) = history (rp (scf st))).
  { unfold rp. rewrite F6. reflexivity. }
  destruct (mixStep_fields X s) as (M1 & M2 & M3 & M4 & M5 & M6 & M7 & M8).
  destruct (mixStep_fields X s') as (M1' & M2' & M3' & M4' & M5' & M6' & M7' & M8').
  destruct (mixStep_overlap X s) as (_ & MdV).
  destruct (mixStep_overlap X s') as (_ & MdV').
  rewrite Sd in M6. rewrite Sp in M6'.
  assert (Hfall : length (residualsAfterPush (scf s)) <> history (rp (scf s))).
  { unfold residualsAfterPush. rewrite length_app, Hr1, Hhs. simpl. lia. }
  assert (Hmix : eVars (e (scf (mixStep X s))) = eVars (e (scf (mixStep X s')))
                 /\ hidden (mixStep X s) = hidden (mixStep X s')).
  { unfold mixStep. rewrite Sd, Sp.
    rewrite (mixDIIS_fallback _ _ _ Hfall).
    rewrite <- Smv, <- Spn, <- Spt, <- Sh.
    assert (Hmp : eVars (mixPlain (defaultMixFraction X) (mixedVariable (rp (scf s)))
                           (back (pastVariables_n (scf s)))
                           (back (pastVariables_tau (scf s))) (e (scf s)))
                  = eVars (mixPlain (defaultMixFraction X) (mixedVariable (rp (scf s)))
                             (back (pastVariables_n (scf s)))
                             (back (pastVariables_tau (scf s))) (e (scf s'))))
      by (apply mixPlain_eVars_cong; assumption).
    destruct (mixedVariable (rp (scf s))) eqn:Emv.
    - cbn [fst with_e e eVars]. rewrite <- Hmp.
      destruct (EdensityAndVscloc X (hidden s) _) as [h ev]. cbn. auto.
    - cbn [scf hidden]. rewrite (mixDIIS_fallback _ _ _ Hfall), Emv.
      cbn [with_e e]. split; [exact Hmp|reflexivity]. }
  destruct Hmix as (Hmev & Hmh).
  split.
  - unfold SameButMethod, rp in *.
    rewrite M1, M2, M3, M4, M5, M7, M8, MdV, M1', M2', M3', M4', M5', M7', M8', MdV'.
    repeat split; auto.
  - rewrite M4, M6, M6'. unfold residualsAfterPush. rewrite length_app, Hr1.
    split; [exact Hn1|]. split; [simpl; lia|].
    destruct (solveStep_fields X k c') as (_ & _ & _ & _ & F5' & _).
    fold s' in F5'. rewrite F5'. unfold c', cacheVariables. cbn [scf pastResiduals].
    exact HpR'.
Qed.

Lemma short_loop todo :
  forall k (st st' : LoopState Hidden),
  SameButMethod st st' ->
  length (pastVariables_n (scf st)) = k ->
  length (pastResiduals (scf st)) = k ->
  pastResiduals (scf st') = [] ->
  (k + todo < history (rp (scf st)))%nat ->
  converged (scfLoop X todo k st) = converged (scfLoop X todo k st')
  /\ iterationsUsed (scfLoop X todo k st) = iterationsUsed (scfLoop X todo k st')
  /\ SameButMethod (final (scfLoop X todo k st)) (final (scfLoop X todo k st')).
Proof.
  induction todo as [|todo IH]; intros k st st' Hsim Hn Hr Hr' Hk.
  - simpl. auto.
  - cbn [scfLoop].
    destruct (short_pass k st st' Hsim Hn Hr Hr' ltac:(lia)) as (Hs & Hm & Hn1 & Hr1 & Hr1').
    assert (Htest : convergedTest (solveStep X k (cacheOld st))
                    = convergedTest (solveStep X k (cacheOld st'))).
    { unfold convergedTest.
      destruct Hs as (_ & SE & SEp & _ & _ & _ & _ & _ & _ & _ & Sthr & _).
      now rewrite SE, SEp, Sthr. }
    rewrite <- Htest.
    destruct (convergedTest (solveStep X k (cacheOld st))).
    + cbn. auto.
    + apply IH; try assumption.
      assert (Hh : history (rp (scf (mixStep X (solveStep X k (cacheOld st)))))
                   = history (rp (scf st))).
      { unfold rp. destruct (pass_rp X k st) as (_ & P2). now rewrite P2. }
      rewrite Hh. lia.
Qed.
End ShortRun.

(** X13.  A DIIS run that is allowed fewer passes than the history depth
    never fills the history, so every call of [mixDIIS] falls back: the run
    ends with the same verdict, pass count, log, energies and electronic
    variables as the run with plain mixing from the same start. *)
Theorem short_DIIS_run_is_plain {Hidden : Type} (X : External Hidden)
    e0 overlap0 overlap0' (h0 : Hidden) :
  vectorExtrapolationMethod (residualMinimizerParams e0) = DIIS ->
  (Z.to_nat (nIterations (residualMinimizerParams e0))
   < history (residualMinimizerParams e0))%nat ->
  converged (minimize X e0 overlap0 h0)
  = converged (minimize X (withMethod plainMixing e0) overlap0' h0)
  /\ iterationsUsed (minimize X e0 overlap0 h0)
     = iterationsUsed (minimize X (withMethod plainMixing e0) overlap0' h0)
  /\ iterLog (final (minimize X e0 overlap0 h0))
     = iterLog (final (minimize X (withMethod plainMixing e0) overlap0' h0))
  /\ E (final (minimize X e0 overlap0 h0))
     = E (final (minimize X (withMethod plainMixing e0) overlap0' h0))
  /\ hidden (final (minimize X e0 overlap0 h0))
     = hidden (final (minimize X (withMethod plainMixing e0) overlap0' h0))
  /\ eVars (e (scf (final (minimize X e0 overlap0 h0))))
     = eVars (e (scf (final (minimize X (withMethod plainMixing e0) overlap0' h0)))).
Proof.
  intros Hd HN. unfold minimize.
  assert (Hinit : SameButMethod (initialState X e0 overlap0 h0)
                                (initialState X (withMethod plainMixing e0) overlap0' h0)).
  { unfold initialState, withMethod. cbn [eVars].
    destruct (elecEnergyAndGrad X h0 (eVars e0)) as [E0 [h1 ev1]].
    unfold SameButMethod, rp, with_eVars. cbn. repeat split; auto. }
  destruct (initialState_fields X e0 overlap0 h0) as (_ & _ & I3 & _ & I5 & I6 & _).
  destruct (initialState_fields X (withMethod plainMixing e0) overlap0' h0)
    as (_ & _ & _ & _ & I5' & _).
  change (nIterations (residualMinimizerParams (withMethod plainMixing e0)))
    with (nIterations (residualMinimizerParams e0)).
  destruct (short_loop X (Z.to_nat (nIterations (residualMinimizerParams e0))) 0
              (initialState X e0 overlap0 h0)
              (initialState X (withMethod plainMixing e0) overlap0' h0))
    as (R1 & R2 & (Sh & SE & _ & Slog & Sev & _)); try assumption.
  - now rewrite I3.
  - now rewrite I5.
  - unfold rp. rewrite I6. simpl. exact HN.
  - auto 10.
Qed.

(** ** The overlap matrix from the constructor on *)

Lemma run_history_bounded {Hidden : Type} (X : External Hidden) e0 overlap0 (h0 : Hidden) :
  (1 <= history (residualMinimizerParams e0))%nat ->
  Forall (HistoryBounded (history (residualMinimizerParams e0))) (runPoints X e0 overlap0 h0).
Proof.
  intros H1. unfold runPoints.
  destruct (initialState_fields X e0 overlap0 h0) as (_ & _ & I3 & I4 & I5 & I6 & I7).
  assert (Hinv : HistoryInv (residualMinimizerParams e0) (needsKEdensity e0) 0
                   (history (residualMinimizerParams e0))
                   (scf (initialState X e0 overlap0 h0))).
  { unfold HistoryInv. rewrite I3, I4, I5, I6, I7. simpl.
    destruct (needsKEdensity e0), (vectorExtrapolationMethod _); repeat split; lia. }
  constructor.
  - apply (HistoryInv_bounded _ (needsKEdensity e0) 0
             (history (residualMinimizerParams e0))); [lia|exact Hinv].
  - now apply (scfPoints_bounded X _ (needsKEdensity e0)).
Qed.

(** X14.  Starting from the matrix that the constructor allocates on line
    22, [history] x [history] with whatever the memory holds, at every
    program point of every run the stored residuals fit into [overlap], and
    every entry of the block they index is the overlap of the two residuals:
    the block that line 151 hands to [diagonalize] never shows an entry of
    the uninitialised allocation. *)
Theorem constructed_overlap_valid_throughout {Hidden : Type} (X : External Hidden)
    e0 mem (h0 : Hidden) :
  (1 <= history (residualMinimizerParams e0))%nat ->
  Forall (fun st =>
            (length (pastResiduals st) <= nRows (overlap st))%nat
            /\ (length (pastResiduals st) <= nCols (overlap st))%nat
            /\ OverlapExact (dV (e st)) (pastResiduals st) (overlap st))
         (runPoints X e0 (SCF_overlap e0 mem) h0).
Proof.
  intros H1.
  pose proof (run_history_bounded X e0 (SCF_overlap e0 mem) h0 H1) as Hb.
  pose proof (run_overlap_inv X e0 (SCF_overlap e0 mem) h0 H1 (le_n _) (le_n _)) as Ho.
  rewrite Forall_forall in *. intros st Hin.
  destruct (Hb st Hin) as (_ & _ & Hr). destruct (Ho st Hin) as (Hex & Hrow & Hcol).
  split; [lia|]. split; [lia|exact Hex].
Qed.

(** * Properties of WannierMinimizer.cpp *)

(** ** The order of k-points *)

Lemma Kpoint_lt_cases V a b :
  WannierMinimizer.Vector3Ordered V ->
  WannierMinimizer.Kpoint_lt V a b = true <->
  (WannierMinimizer.q a < WannierMinimizer.q b)%Z
  \/ (WannierMinimizer.q a = WannierMinimizer.q b
      /\ ((WannierMinimizer.iRot a < WannierMinimizer.iRot b)%Z
          \/ (WannierMinimizer.iRot a = WannierMinimizer.iRot b
              /\ ((WannierMinimizer.invert a < WannierMinimizer.invert b)%Z
                  \/ (WannierMinimizer.invert a = WannierMinimizer.invert b
                      /\ WannierMinimizer.v3_lt V (WannierMinimizer.offset a)
                                                (WannierMinimizer.offset b) = true))))).
Proof.
  intros (Heq & Hirr & _ & _). unfold WannierMinimizer.Kpoint_lt.
  destruct (Z.eqb_spec (WannierMinimizer.q a) (WannierMinimizer.q b)) as [E1|N1];
    cbn [negb]; [|rewrite Z.ltb_lt; lia].
  destruct (Z.eqb_spec (WannierMinimizer.iRot a) (WannierMinimizer.iRot b)) as [E2|N2];
    cbn [negb]; [|rewrite Z.ltb_lt; lia].
  destruct (Z.eqb_spec (WannierMinimizer.invert a) (WannierMinimizer.invert b)) as [E3|N3];
    cbn [negb]; [|rewrite Z.ltb_lt; lia].
  destruct (WannierMinimizer.v3_eq V (WannierMinimizer.offset a) (WannierMinimizer.offset b))
    eqn:E4; cbn [negb].
  - apply Heq in E4. rewrite E4, Hirr. split; [discriminate|].
    intros [H|(_ & [H|(_ & [H|(_ & H)])])]; try lia; discriminate.
  - split; [intros H; right; split; [exact E1|]; right; split; [exact E2|];
            right; split; [exact E3 | exact H]|].
    intros [H|(_ & [H|(_ & [H|(_ & H)])])]; try lia; exact H.
Qed.

Lemma Kpoint_eq_cases V a b :
  WannierMinimizer.Vector3Ordered V ->
  WannierMinimizer.Kpoint_eq V a b = true <->
  WannierMinimizer.q a = WannierMinimizer.q b
  /\ WannierMinimizer.iRot a = WannierMinimizer.iRot b
  /\ WannierMinimizer.invert a = WannierMinimizer.invert b
  /\ WannierMinimizer.offset a = WannierMinimizer.offset b.
Proof.
  intros (Heq & _). unfold WannierMinimizer.Kpoint_eq.
  destruct (Z.eqb_spec (WannierMinimizer.q a) (WannierMinimizer.q b)) as [E1|N1];
    cbn [negb]; [|split; [discriminate | intros (H & _); contradiction]].
  destruct (Z.eqb_spec (WannierMinimizer.iRot a) (WannierMinimizer.iRot b)) as [E2|N2];
    cbn [negb]; [|split; [discriminate | intros (_ & H & _); contradiction]].
  destruct (Z.eqb_spec (WannierMinimizer.invert a) (WannierMinimizer.invert b)) as [E3|N3];
    cbn [negb]; [|split; [discriminate | intros (_ & _ & H & _); contradiction]].
  destruct (WannierMinimizer.v3_eq V (WannierMinimizer.offset a) (WannierMinimizer.offset b))
    eqn:E4; cbn [negb].
  - apply Heq in E4. split; auto.
  - split; [discriminate|]. intros (_ & _ & _ & H). apply Heq in H. congruence.
Qed.

(** X15.  [Kpoint::operator<] is a strict order on the members it
    compares, and [Kpoint::operator==] is its equivalence: [<] is
    irreflexive and transitive, [a == b] holds exactly when neither [a < b]
    nor [b < a], and exactly when the four members are equal (the member
    [k] is not looked at); so a [std::map] keyed by k-points finds a key
    exactly when an [==] key is stored.  The operators of [vector3<int>] are assumed to decide equality
    and to be a strict total order. *)
Theorem Kpoint_strict_total_order V :
  WannierMinimizer.Vector3Ordered V ->
  (forall a, WannierMinimizer.Kpoint_lt V a a = false)
  /\ (forall a b c, WannierMinimizer.Kpoint_lt V a b = true ->
        WannierMinimizer.Kpoint_lt V b c = true ->
        WannierMinimizer.Kpoint_lt V a c = true)
  /\ (forall a b, WannierMinimizer.Kpoint_eq V a b = true <->
        WannierMinimizer.Kpoint_lt V a b = false /\ WannierMinimizer.Kpoint_lt V b a = false)
  /\ (forall a b, WannierMinimizer.Kpoint_eq V a b = true <->
        WannierMinimizer.q a = WannierMinimizer.q b
        /\ WannierMinimizer.iRot a = WannierMinimizer.iRot b
        /\ WannierMinimizer.invert a = WannierMinimizer.invert b
        /\ WannierMinimizer.offset a = WannierMinimizer.offset b).
Proof.
  intros HV. pose proof HV as (Heq & Hirr & Htr & Htot).
  split; [|split; [|split]].
  - intros a. destruct (WannierMinimizer.Kpoint_lt V a a) eqn:H; [|reflexivity].
    apply (Kpoint_lt_cases V a a HV) in H.
    destruct H as [H|(_ & [H|(_ & [H|(_ & H)])])]; try lia.
    rewrite Hirr in H. discriminate.
  - intros a b c Hab Hbc.
    apply (Kpoint_lt_cases V a b HV) in Hab. apply (Kpoint_lt_cases V b c HV) in Hbc.
    apply (Kpoint_lt_cases V a c HV).
    destruct Hab as [H|(E1 & [H|(E2 & [H|(E3 & H)])])];
      destruct Hbc as [H'|(F1 & [H'|(F2 & [H'|(F3 & H')])])];
      try (left; lia);
      try (right; split; [lia|]; left; lia);
      try (right; split; [lia|]; right; split; [lia|]; left; lia).
    right; split; [lia|]; right; split; [lia|]; right; split; [lia|].
    exact (Htr _ _ _ H H').
  - intros a b. rewrite (Kpoint_eq_cases V a b HV). split.
    + intros (E1 & E2 & E3 & E4). split.
      * destruct (WannierMinimizer.Kpoint_lt V a b) eqn:H; [|reflexivity].
        apply (Kpoint_lt_cases V a b HV) in H.
        destruct H as [H|(_ & [H|(_ & [H|(_ & H)])])]; try lia.
        rewrite E4, Hirr in H. discriminate.
      * destruct (WannierMinimizer.Kpoint_lt V b a) eqn:H; [|reflexivity].
        apply (Kpoint_lt_cases V b a HV) in H.
        destruct H as [H|(_ & [H|(_ & [H|(_ & H)])])]; try lia.
        rewrite E4, Hirr in H. discriminate.
    + intros (Hab & Hba).
      assert (Nab : ~ WannierMinimizer.Kpoint_lt V a b = true) by congruence.
      assert (Nba : ~ WannierMinimizer.Kpoint_lt V b a = true) by congruence.
      rewrite (Kpoint_lt_cases V a b HV) in Nab. rewrite (Kpoint_lt_cases V b a HV) in Nba.
      assert (E1 : WannierMinimizer.q a = WannierMinimizer.q b).
      { destruct (Z.lt_trichotomy (WannierMinimizer.q a) (WannierMinimizer.q b))
          as [L|[E|L]]; [exfalso; apply Nab; now left | exact E |
                         exfalso; apply Nba; now left]. }
      assert (E2 : WannierMinimizer.iRot a = WannierMinimizer.iRot b).
      { destruct (Z.lt_trichotomy (WannierMinimizer.iRot a) (WannierMinimizer.iRot b))
          as [L|[E|L]]; [exfalso; apply Nab; right; split; [exact E1|]; now left | exact E |
                         exfalso; apply Nba; right; split; [now symmetry|]; now left]. }
      assert (E3 : WannierMinimizer.invert a = WannierMinimizer.invert b).
      { destruct (Z.lt_trichotomy (WannierMinimizer.invert a) (WannierMinimizer.invert b))
          as [L|[E|L]];
          [exfalso; apply Nab; right; split; [exact E1|]; right; split; [exact E2|]; now left
          | exact E
          | exfalso; apply Nba; right; split; [now symmetry|]; right;
            split; [now symmetry|]; now left]. }
      repeat split; try assumption.
      destruct (WannierMinimizer.v3_eq V (WannierMinimizer.offset a)
                  (WannierMinimizer.offset b)) eqn:E4; [now apply Heq|].
      assert (Hne : WannierMinimizer.offset a <> WannierMinimizer.offset b).
      { intros H. apply Heq in H. congruence. }
      destruct (Htot _ _ Hne) as [L|L]; exfalso.
      * apply Nab. right; split; [exact E1|]; right; split; [exact E2|];
          right; split; [exact E3 | exact L].
      * apply Nba. right; split; [now symmetry|]; right; split; [now symmetry|];
          right; split; [now symmetry | exact L].
  - intros a b. apply (Kpoint_eq_cases V a b HV).
Qed.

(** ** hydrogenicTilde *)

Example hydrogenicTilde_1s : WannierMinimizer.hydrogenicTilde 1 1 0 0 4 == 1.
Proof. vm_compute. reflexivity. Qed.

(** Case analysis on the integers that a [switch] inspects. *)
Ltac switch_cases :=
  repeat match goal with
         | |- context [match ?x with _ => _ end] => is_var x; destruct x
         end.

Lemma hydrogenicTilde_table G a nIn l normPrefac :
  WannierMinimizer.hydrogenicTilde G a nIn l normPrefac
  = WannierMinimizer.hydrogenicTable
      (inject_Z (nIn + 1 + l) * G * a / inject_Z (l + 1))
      (normPrefac
       / Qpower (1 + inject_Z (nIn + 1 + l) * G * a / inject_Z (l + 1)
                     * (inject_Z (nIn + 1 + l) * G * a / inject_Z (l + 1)))
                (nIn + 1 + l + 1))
      l (nIn + 1 + l).
Proof.
  unfold WannierMinimizer.hydrogenicTilde, WannierMinimizer.hydrogenicTable. cbv zeta.
  generalize (inject_Z (nIn + 1 + l) * G * a / inject_Z (l + 1)) as nG.
  generalize (nIn + 1 + l + 1)%Z as m.
  generalize (nIn + 1 + l)%Z as n.
  intros n m nG. generalize (normPrefac / (1 + nG * nG) ^ m) as prefac. intros prefac.
  clear. switch_cases; reflexivity.
Qed.

Lemma hydrogenicTable_unsupported nG prefac l n :
  ~ (0 <= l <= 3 /\ l < n <= 4)%Z ->
  WannierMinimizer.hydrogenicTable nG prefac l n = 0.
Proof.
  intros Hno. unfold WannierMinimizer.hydrogenicTable. cbv zeta.
  switch_cases; try reflexivity; exfalso; apply Hno; lia.
Qed.

(** X16.  The missing [break]s in [hydrogenicTilde] never change its result:
    for all arguments it is the entry of the table for [l] and [n = nIn + 1 +
    l]; and outside [0 <= l <= 3], [0 <= nIn], [nIn + l <= 3] (orbitals up
    to [n = 4]) it is zero, without any error. *)
Theorem hydrogenicTilde_is_table G a nIn l normPrefac :
  WannierMinimizer.hydrogenicTilde G a nIn l normPrefac
  = WannierMinimizer.hydrogenicTable
      (inject_Z (nIn + 1 + l) * G * a / inject_Z (l + 1))
      (normPrefac
       / Qpower (1 + inject_Z (nIn + 1 + l) * G * a / inject_Z (l + 1)
                     * (inject_Z (nIn + 1 + l) * G * a / inject_Z (l + 1)))
                (nIn + 1 + l + 1))
      l (nIn + 1 + l)
  /\ (~ (0 <= l <= 3 /\ 0 <= nIn /\ nIn + l <= 3)%Z ->
      WannierMinimizer.hydrogenicTilde G a nIn l normPrefac = 0).
Proof.
  split; [apply hydrogenicTilde_table|].
  intros Hno. rewrite hydrogenicTilde_table.
  apply hydrogenicTable_unsupported. lia.
Qed.

Lemma hydrogenicTable_Qeq x x' p p' l n :
  x == x' -> p == p' ->
  WannierMinimizer.hydrogenicTable x p l n == WannierMinimizer.hydrogenicTable x' p' l n.
Proof.
  intros Hx Hp. unfold WannierMinimizer.hydrogenicTable. cbv zeta.
  switch_cases; try reflexivity; try rewrite Hx; try rewrite Hp; reflexivity.
Qed.

Lemma hydrogenicTable_parity x p l n :
  WannierMinimizer.hydrogenicTable (- x) p l n
  == (if Z.even l then 1 else -1) * WannierMinimizer.hydrogenicTable x p l n.
Proof.
  unfold WannierMinimizer.hydrogenicTable. cbv zeta.
  switch_cases; cbn [Z.even]; ring.
Qed.

(** X17.  [hydrogenicTilde] has the parity of the angular momentum in [G]:
    it is even in [G] for even [l] and odd for odd [l]. *)
Theorem hydrogenicTilde_parity G a nIn l normPrefac :
  WannierMinimizer.hydrogenicTilde (- G) a nIn l normPrefac
  == (if Z.even l then 1 else -1) * WannierMinimizer.hydrogenicTilde G a nIn l normPrefac.
Proof.
  rewrite !hydrogenicTilde_table.
  set (n := (nIn + 1 + l)%Z). set (d := inject_Z (l + 1)).
  assert (HnG : inject_Z n * - G * a / d == - (inject_Z n * G * a / d))
    by (unfold Qdiv; ring).
  rewrite <- hydrogenicTable_parity.
  apply hydrogenicTable_Qeq; [exact HnG|].
  apply Qdiv_comp; [reflexivity|].
  apply Qpower_comp; [|reflexivity]. rewrite HnG. ring.
Qed.


(** * Properties of Coulomb_internal.h *)

Lemma int_wrap_id x : Coulomb_internal.is_int x -> Coulomb_internal.int_wrap x = x.
Proof.
  unfold Coulomb_internal.is_int, Coulomb_internal.int_wrap. intros H.
  rewrite Z.mod_small; lia.
Qed.

Lemma size_t_wrap_id x : (0 <= x < 2 ^ 64)%Z -> Coulomb_internal.size_t_wrap x = x.
Proof. unfold Coulomb_internal.size_t_wrap. intros H. now apply Z.mod_small. Qed.

Lemma rem_bound_nonpos x s : (x <= 0)%Z -> (0 < s)%Z -> (- s < Z.rem x s <= 0)%Z.
Proof.
  intros Hx Hs.
  pose proof (Z.rem_bound_pos (- x) s ltac:(lia) Hs) as H.
  rewrite Z.rem_opp_l in H by lia. lia.
Qed.

Lemma reduce_mod x s :
  (0 < s < 2 ^ 31)%Z -> Coulomb_internal.reduce x s = (x mod s)%Z.
Proof.
  intros Hs. unfold Coulomb_internal.reduce. cbv zeta.
  pose proof (Z.quot_rem' x s) as Hqr.
  destruct (Z.ltb_spec (Z.rem x s) 0) as [Hneg|Hpos].
  - assert (Hb : (- s < Z.rem x s <= 0)%Z).
    { destruct (Z.le_gt_cases x 0) as [Hx|Hx].
      - pose proof (rem_bound_nonpos x s Hx ltac:(lia)). lia.
      - pose proof (Z.rem_bound_pos x s ltac:(lia) ltac:(lia)). lia. }
    rewrite int_wrap_id by (unfold Coulomb_internal.is_int; lia).
    apply (Z.mod_unique x s (Z.quot x s - 1)); lia.
  - assert (Hb : (0 <= Z.rem x s < s)%Z).
    { destruct (Z.le_gt_cases 0 x) as [Hx|Hx].
      - apply Z.rem_bound_pos; lia.
      - pose proof (rem_bound_nonpos x s ltac:(lia) ltac:(lia)). lia. }
    apply (Z.mod_unique x s (Z.quot x s)); lia.
Qed.

Lemma row_major_bound a b A B :
  (0 <= a < A)%Z -> (0 <= b < B)%Z -> (0 <= b + B * a < A * B)%Z.
Proof. intros Ha Hb. nia. Qed.

(** X19.  For sample counts that are positive and small enough that an [int]
    holds [S0 * S1] and a [size_t] the total [S0 * S1 * S2], the index that
    [multTransformedKernel_calc] computes is the row-major index of the
    vector reduced modulo [S] in each direction (the mathematical modulus,
    never negative), whatever [int]s the vector has; so it lies within the
    [S0 * S1 * S2] samples of the kernel, and vectors that differ by
    multiples of the sample counts get the same index. *)
Theorem multTransformedKernel_index_in_range v0 v1 v2 S0 S1 S2 :
  (0 < S0)%Z -> (0 < S1)%Z -> (0 < S2 < 2 ^ 31)%Z ->
  (S0 * S1 < 2 ^ 31)%Z -> (S0 * S1 * S2 < 2 ^ 64)%Z ->
  Coulomb_internal.multTransformedKernel_index (v0, v1, v2) (S0, S1, S2)
  = (v2 mod S2 + S2 * (v1 mod S1 + S1 * (v0 mod S0)))%Z
  /\ (0 <= Coulomb_internal.multTransformedKernel_index (v0, v1, v2) (S0, S1, S2)
      < S0 * S1 * S2)%Z
  /\ (forall m0 m1 m2,
        Coulomb_internal.multTransformedKernel_index
          (v0 + m0 * S0, v1 + m1 * S1, v2 + m2 * S2)%Z (S0, S1, S2)
        = Coulomb_internal.multTransformedKernel_index (v0, v1, v2) (S0, S1, S2)).
Proof.
  intros H0 H1 H2 H01 H012.
  assert (HS0 : (S0 < 2 ^ 31)%Z) by nia.
  assert (HS1 : (S1 < 2 ^ 31)%Z) by nia.
  assert (Hform : forall w0 w1 w2,
            Coulomb_internal.multTransformedKernel_index (w0, w1, w2) (S0, S1, S2)
            = (w2 mod S2 + S2 * (w1 mod S1 + S1 * (w0 mod S0)))%Z
            /\ (0 <= w2 mod S2 + S2 * (w1 mod S1 + S1 * (w0 mod S0)) < S0 * S1 * S2)%Z).
  { intros w0 w1 w2. unfold Coulomb_internal.multTransformedKernel_index. cbv zeta.
    rewrite !reduce_mod by lia.
    pose proof (Z.mod_pos_bound w0 S0 H0) as B0.
    pose proof (Z.mod_pos_bound w1 S1 H1) as B1.
    pose proof (Z.mod_pos_bound w2 S2 ltac:(lia)) as B2.
    pose proof (row_major_bound _ _ _ _ B0 B1) as B01.
    pose proof (row_major_bound _ _ _ _ B01 B2) as B012.
    assert (Hm : (0 <= S1 * (w0 mod S0) < 2 ^ 31)%Z) by nia.
    rewrite (int_wrap_id (S1 * (w0 mod S0))) by (unfold Coulomb_internal.is_int; lia).
    rewrite int_wrap_id by (unfold Coulomb_internal.is_int; lia).
    rewrite (size_t_wrap_id (w2 mod S2)) by lia.
    rewrite (size_t_wrap_id S2) by lia.
    rewrite (size_t_wrap_id (w1 mod S1 + S1 * (w0 mod S0))) by lia.
    assert (Hp : (0 <= S2 * (w1 mod S1 + S1 * (w0 mod S0)) < 2 ^ 64)%Z) by nia.
    rewrite (size_t_wrap_id (S2 * _)) by lia.
    rewrite size_t_wrap_id by lia.
    split; [reflexivity|]. lia. }
  split; [apply Hform|]. split.
  - rewrite (proj1 (Hform v0 v1 v2)). apply Hform.
  - intros m0 m1 m2.
    rewrite (proj1 (Hform _ _ _)), (proj1 (Hform v0 v1 v2)).
    now rewrite !Z.mod_add by lia.
Qed.

Lemma fold_negative x s :
  (0 < s < 2 ^ 31)%Z -> (- s < x < s)%Z ->
  (if (x <? 0)%Z then Coulomb_internal.int_wrap (x + s) else x) = (x mod s)%Z.
Proof.
  intros Hs Hx. destruct (Z.ltb_spec x 0) as [Hneg|Hpos].
  - rewrite int_wrap_id by (unfold Coulomb_internal.is_int; lia).
    apply (Z.mod_unique x s (-1)); lia.
  - symmetry. apply Z.mod_small. lia.
Qed.

Lemma multRealKernel_index_form i0 i1 i2 S0 S1 S2 :
  (0 < S0)%Z -> (0 < S1)%Z -> (0 < S2 < 2 ^ 31)%Z ->
  (S0 * S1 < 2 ^ 31)%Z -> (S0 * S1 * (1 + Z.quot S2 2) < 2 ^ 64)%Z ->
  (- S0 < i0 < S0)%Z -> (- S1 < i1 < S1)%Z ->
  (- Z.quot S2 2 <= i2 <= Z.quot S2 2)%Z ->
  Coulomb_internal.multRealKernel_index (i0, i1, i2) (S0, S1, S2)
  = (Z.abs i2
     + (1 + Z.quot S2 2)
       * ((if (i2 <? 0)%Z then - i1 else i1) mod S1
          + S1 * ((if (i2 <? 0)%Z then - i0 else i0) mod S0)))%Z
  /\ (0 <= Coulomb_internal.multRealKernel_index (i0, i1, i2) (S0, S1, S2)
      < S0 * S1 * (1 + Z.quot S2 2))%Z.
Proof.
  intros H0 H1 H2 H01 H012 B0 B1 B2.
  assert (HS0 : (S0 < 2 ^ 31)%Z) by nia.
  assert (HS1 : (S1 < 2 ^ 31)%Z) by nia.
  assert (Hq : (0 <= Z.quot S2 2 < 2 ^ 31 - 1)%Z).
  { pose proof (Z.quot_rem' S2 2). pose proof (Z.rem_bound_pos S2 2 ltac:(lia) ltac:(lia)).
    lia. }
  unfold Coulomb_internal.multRealKernel_index.
  set (t0 := if (i2 <? 0)%Z then (- i0)%Z else i0).
  set (t1 := if (i2 <? 0)%Z then (- i1)%Z else i1).
  assert (Hsplit :
    (if (i2 <? 0)%Z
     then (Coulomb_internal.int_wrap (- i0), Coulomb_internal.int_wrap (- i1),
           Coulomb_internal.int_wrap (- i2))
     else (i0, i1, i2)) = (t0, t1, Z.abs i2)).
  { unfold t0, t1. destruct (Z.ltb_spec i2 0).
    - rewrite !int_wrap_id by (unfold Coulomb_internal.is_int; lia).
      f_equal. lia.
    - f_equal. lia. }
  rewrite Hsplit. cbv zeta iota beta.
  assert (T0 : (- S0 < t0 < S0)%Z) by (unfold t0; destruct (i2 <? 0)%Z; lia).
  assert (T1 : (- S1 < t1 < S1)%Z) by (unfold t1; destruct (i2 <? 0)%Z; lia).
  rewrite (fold_negative t1 S1) by lia.
  rewrite (fold_negative t0 S0) by lia.
  pose proof (Z.mod_pos_bound t0 S0 H0) as M0.
  pose proof (Z.mod_pos_bound t1 S1 H1) as M1.
  pose proof (row_major_bound _ _ _ _ M0 M1) as M01.
  assert (Hm : (0 <= S1 * (t0 mod S0) < 2 ^ 31)%Z) by nia.
  rewrite (int_wrap_id (S1 * (t0 mod S0))) by (unfold Coulomb_internal.is_int; lia).
  rewrite (int_wrap_id (t1 mod S1 + _)) by (unfold Coulomb_internal.is_int; lia).
  rewrite (int_wrap_id (1 + _)) by (unfold Coulomb_internal.is_int; lia).
  rewrite (size_t_wrap_id (Z.abs i2)) by lia.
  rewrite (size_t_wrap_id (1 + _)) by lia.
  rewrite (size_t_wrap_id (t1 mod S1 + _)) by lia.
  assert (Hp : (0 <= (1 + Z.quot S2 2) * (t1 mod S1 + S1 * (t0 mod S0))
                <= (1 + Z.quot S2 2) * (S0 * S1 - 1))%Z) by nia.
  assert (Hp2 : ((1 + Z.quot S2 2) * (S0 * S1 - 1) + Z.quot S2 2
                 < S0 * S1 * (1 + Z.quot S2 2))%Z) by nia.
  rewrite (size_t_wrap_id ((1 + _) * _)) by lia.
  rewrite size_t_wrap_id by lia.
  split; [reflexivity | lia].
Qed.

(** X20.  For a grid vector within the transform's range ([|iG0| < S0],
    [|iG1| < S1], [|iG2| <= S2/2]; sample counts positive and small enough
    that an [int] holds [S0 * S1] and a [size_t] the size of the kernel) the
    index that [multRealKernel_calc] computes lies within the [S0 * S1 * (1 +
    S2/2)] samples of the half-space kernel, and a vector with [iG2 <> 0] and
    its inverse get the same sample (inversion symmetry). *)
Theorem multRealKernel_index_in_range i0 i1 i2 S0 S1 S2 :
  (0 < S0)%Z -> (0 < S1)%Z -> (0 < S2 < 2 ^ 31)%Z ->
  (S0 * S1 < 2 ^ 31)%Z -> (S0 * S1 * (1 + Z.quot S2 2) < 2 ^ 64)%Z ->
  (- S0 < i0 < S0)%Z -> (- S1 < i1 < S1)%Z ->
  (- Z.quot S2 2 <= i2 <= Z.quot S2 2)%Z ->
  (0 <= Coulomb_internal.multRealKernel_index (i0, i1, i2) (S0, S1, S2)
   < S0 * S1 * (1 + Z.quot S2 2))%Z
  /\ (i2 <> 0%Z ->
      Coulomb_internal.multRealKernel_index (- i0, - i1, - i2)%Z (S0, S1, S2)
      = Coulomb_internal.multRealKernel_index (i0, i1, i2) (S0, S1, S2)).
Proof.
  intros H0 H1 H2 H01 H012 B0 B1 B2.
  destruct (multRealKernel_index_form i0 i1 i2 S0 S1 S2) as (F & R); try assumption.
  split; [exact R|]. intros Hnz.
  destruct (multRealKernel_index_form (- i0) (- i1) (- i2) S0 S1 S2) as (F' & _);
    try assumption; try lia.
  rewrite F, F'. rewrite Z.abs_opp.
  destruct (Z.ltb_spec i2 0); destruct (Z.ltb_spec (- i2) 0); try lia;
    rewrite ?Z.opp_involutive; reflexivity.
Qed.

(** * The further properties at concrete inputs *)

Example plain_run_of_two_passes :
  map (fun st => (length (pastVariables_n st), length (pastResiduals st)))
      (runPoints ex9_X (withMethod plainMixing ex13_e) ex2_overlap 0%nat)
  = [(0, 0); (0, 0); (1, 0); (1, 0); (1, 0);
     (1, 0); (2, 0); (2, 0); (2, 0)]%nat.
Proof. vm_compute. reflexivity. Qed.

Lemma mixPlain_between_old_and_new_witness :
  1 <= nth 0 (at_ (variable_n potential
                     (eVars (mixPlain (1 # 2) potential [[1; 1]] [[0; 0]] ex4_e))) 0) 0
  <= 3.
Proof.
  refine (proj2 (mixPlain_between_old_and_new (1 # 2) potential [[1; 1]] [[0; 0]] ex4_e
                   0 0 ex4_shapes _ _ _ _) _).
  - vm_compute. discriminate.
  - vm_compute. discriminate.
  - simpl. lia.
  - simpl. lia.
  - vm_compute. discriminate.
Defined.

Lemma mixPlain_leaves_rest_untouched_witness :
  mixPlain_untouched potential ex4_e (mixPlain (1 # 2) potential [[1; 1]] [[0; 0]] ex4_e).
Proof.
  exact (proj1 (mixPlain_leaves_rest_untouched (1 # 2) potential [[1; 1]] [[0; 0]] ex4_e
                  ex4_shapes)).
Defined.

Example mixPlain_fixed_point_rounds :
  Double.mix 0x1.999999999999ap-4 0x1.3333333333333p-2 0x1.3333333333333p-2
  = 0x1.3333333333334p-2%float
  /\ Double.to_Q 0x1.3333333333334p-2 <> Double.to_Q 0x1.3333333333333p-2.
Proof. split; [vm_compute; reflexivity | vm_compute; discriminate]. Qed.

Lemma mixPlain_fixed_point_witness :
  Ceq (variable_n potential (eVars (mixPlain (1 # 2) potential [[3; 4]] [[7; 8]] ex4_e)))
      [[3; 4]].
Proof.
  refine (proj1 (mixPlain_fixed_point (1 # 2) potential [[3; 4]] [[7; 8]] ex4_e
                   eq_refl _ _)).
  - repeat constructor.
  - intros _. split; [reflexivity|]. split; [reflexivity|]. repeat constructor.
Defined.

Lemma minimize_nonpositive_threshold_witness :
  converged (minimize ex3_X ex10_e ex2_overlap tt) = false
  /\ iterationsUsed (minimize ex3_X ex10_e ex2_overlap tt) = 5%nat.
Proof.
  apply (minimize_nonpositive_threshold ex3_X ex10_e ex2_overlap tt).
  vm_compute. discriminate.
Defined.

Lemma plain_run_never_uses_residuals_witness :
  Forall (ResidualsUnused ex2_overlap) (runPoints ex3_X ex3_e ex2_overlap tt).
Proof.
  exact (plain_run_never_uses_residuals ex3_X ex3_e ex2_overlap tt eq_refl).
Defined.

Lemma ex9_passReached : passReached ex9_X ex9_e ex2_overlap 0%nat 4.
Proof.
  split; [simpl; lia|].
  intros j Hj. destruct j as [|[|[|[|j]]]]; try lia; vm_compute; reflexivity.
Defined.

Lemma history_is_periodic_witness :
  length (pastVariables_n (scf (solvedState ex9_X ex9_e ex2_overlap 0%nat 4))) = 2%nat
  /\ length (pastResiduals (scf (solvedState ex9_X ex9_e ex2_overlap 0%nat 4))) = 1%nat.
Proof.
  destruct (history_is_periodic ex9_X ex9_e ex2_overlap 0%nat 4) as (_ & H1 & _ & H2 & _).
  - simpl. lia.
  - exact ex9_passReached.
  - split; [exact H1 | exact H2].
Defined.

Lemma mixDIIS_accesses_in_pass_witness :
  pastVariables_n (scf (solvedState ex9_X ex9_e ex2_overlap 0%nat 4)) <> []
  /\ (length (residualsAfterPush (scf (solvedState ex9_X ex9_e ex2_overlap 0%nat 4)))
      <= 3)%nat
  /\ pastVariables_tau (scf (solvedState ex9_X ex9_e ex2_overlap 0%nat 4)) = [].
Proof.
  destruct (mixDIIS_accesses_in_pass ex9_X ex9_e ex2_overlap 0%nat 4)
    as (H1 & _ & H3 & _ & _ & _ & H7).
  - simpl. lia.
  - simpl. lia.
  - simpl. lia.
  - reflexivity.
  - exact ex9_passReached.
  - split; [exact H1|]. split; [exact H3|]. exact (proj1 (H7 eq_refl)).
Defined.

Lemma mixDIIS_pushes_difference_witness :
  pastResiduals (fst (mixDIIS (1 # 2) ex6_diagonalize ex6_st))
  = pastResiduals ex6_st ++ [newResidual ex6_st]
  /\ nth 0 (at_ (newResidual ex6_st) 0) 0 == 3 - 1.
Proof.
  destruct (mixDIIS_pushes_difference (1 # 2) ex6_diagonalize ex6_st 1 1 ex6_shapes)
    as (H1 & _ & _ & H4).
  - simpl. lia.
  - split; [exact H1 | exact (H4 0%nat 0%nat (le_n 1) (le_n 1))].
Defined.

Lemma ex2_shapes : diis_shapes 1 1 ex2_st.
Proof.
  assert (Hone : forall c : list (list Q), length c = 1%nat ->
                   length (at_ c 0) = 1%nat -> shaped 1 1 c).
  { intros c H1 H2. split; [exact H1|].
    intros s Hs. assert (s = 0%nat) as -> by lia. exact H2. }
  unfold diis_shapes. simpl.
  split; [reflexivity|]. split; [now apply Hone|].
  split; [intros j Hj; destruct j as [|[|[|j]]]; try lia; now apply Hone|].
  split; [intros j Hj; destruct j as [|[|j]]; try lia; now apply Hone|].
  discriminate.
Defined.

Lemma mixDIIS_reproduces_constant_history_witness :
  nth 0 (at_ (variable_n density
                (eVars (e (fst (mixDIIS (1 # 2) ex11_diagonalize ex2_st))))) 0) 0
  == 5.
Proof.
  refine (mixDIIS_reproduces_constant_history (1 # 2) ex11_diagonalize ex2_st 1 1 [[5]]
            ex2_shapes eq_refl eq_refl _ _ 0%nat 0%nat (le_n 1) (le_n 1)).
  - vm_compute. discriminate.
  - intros j s i Hj Hs Hi. change (j < 3)%nat in Hj.
    destruct s as [|s]; [|lia]. destruct i as [|i]; [|lia].
    destruct j as [|[|[|j]]]; try lia; reflexivity.
Defined.

Lemma mixDIIS_eigenvector_scale_irrelevant_witness :
  diisWeight ex12_diagonalize ex6_st 0 == diisWeight ex6_diagonalize ex6_st 0.
Proof.
  refine (proj1 (mixDIIS_eigenvector_scale_irrelevant (1 # 2) ex6_diagonalize
                   ex12_diagonalize ex6_st 1 1 (-2 # 1) ex6_shapes eq_refl eq_refl _ _ _)
                0%nat _).
  - vm_compute. discriminate.
  - vm_compute. discriminate.
  - intros j Hj. change (j < 2)%nat in Hj.
    destruct j as [|[|j]]; try lia; vm_compute; reflexivity.
  - simpl. lia.
Defined.

Lemma mixDIIS_identical_residuals_zero_norm_witness :
  diisNorm ex2_diagonalize ex2_st == 0.
Proof.
  refine (proj2 (mixDIIS_identical_residuals_zero_norm ex2_diagonalize ex2_st [[1]] 0
                   _ _ _ _ _ _)).
  - simpl. lia.
  - simpl. lia.
  - intros i j Hi Hj. change (i < 2)%nat in Hi. change (j < 2)%nat in Hj.
    destruct i as [|[|i]]; try lia; destruct j as [|[|j]]; try lia; vm_compute; reflexivity.
  - intros j Hj. change (j < 3)%nat in Hj.
    destruct j as [|[|[|j]]]; try lia; vm_compute; reflexivity.
  - intros i Hi. change (i < 3)%nat in Hi.
    destruct i as [|[|[|i]]]; try lia; vm_compute; reflexivity.
  - vm_compute. discriminate.
Defined.

Lemma short_DIIS_run_is_plain_witness :
  iterationsUsed (minimize ex9_X ex13_e ex2_overlap 0%nat)
  = iterationsUsed (minimize ex9_X (withMethod plainMixing ex13_e) ex5_overlap 0%nat)
  /\ eVars (e (scf (final (minimize ex9_X ex13_e ex2_overlap 0%nat))))
     = eVars (e (scf (final (minimize ex9_X (withMethod plainMixing ex13_e)
                               ex5_overlap 0%nat)))).
Proof.
  destruct (short_DIIS_run_is_plain ex9_X ex13_e ex2_overlap ex5_overlap 0%nat eq_refl)
    as (_ & H2 & _ & _ & _ & H6).
  - simpl. lia.
  - split; [exact H2 | exact H6].
Defined.

Lemma constructed_overlap_valid_throughout_witness :
  Forall (fun st =>
            (length (pastResiduals st) <= nRows (overlap st))%nat
            /\ (length (pastResiduals st) <= nCols (overlap st))%nat
            /\ OverlapExact (dV (e st)) (pastResiduals st) (overlap st))
         (runPoints ex9_X ex9_e (SCF_overlap ex9_e (fun _ _ => (7, 0))) 0%nat).
Proof.
  apply (constructed_overlap_valid_throughout ex9_X ex9_e (fun _ _ => (7, 0)) 0%nat).
  simpl. lia.
Defined.

Lemma lex3_ordered : WannierMinimizer.Vector3Ordered WannierMinimizer.lex3.
Proof.
  unfold WannierMinimizer.Vector3Ordered, WannierMinimizer.lex3.
  cbn [WannierMinimizer.v3_eq WannierMinimizer.v3_lt].
  split; [|split; [|split]].
  - intros [[a0 a1] a2] [[b0 b1] b2].
    rewrite !andb_true_iff, !Z.eqb_eq. split.
    + intros ((-> & ->) & ->). reflexivity.
    + intros H. injection H as -> -> ->. auto.
  - intros [[a0 a1] a2]. rewrite !Z.eqb_refl. cbn [negb]. apply Z.ltb_irrefl.
  - intros [[a0 a1] a2] [[b0 b1] b2] [[c0 c1] c2].
    destruct (Z.eqb_spec a0 b0), (Z.eqb_spec a1 b1), (Z.eqb_spec b0 c0),
      (Z.eqb_spec b1 c1), (Z.eqb_spec a0 c0), (Z.eqb_spec a1 c1);
      cbn [negb]; rewrite ?Z.ltb_lt; lia.
  - intros [[a0 a1] a2] [[b0 b1] b2] Hne.
    destruct (Z.eqb_spec a0 b0), (Z.eqb_spec a1 b1), (Z.eqb_spec b0 a0),
      (Z.eqb_spec b1 a1); cbn [negb]; rewrite ?Z.ltb_lt; try lia.
    assert (a2 <> b2) by congruence. lia.
Defined.

Lemma Kpoint_strict_total_order_witness :
  WannierMinimizer.Kpoint_eq WannierMinimizer.lex3 ex14_a ex14_b = true <->
  WannierMinimizer.Kpoint_lt WannierMinimizer.lex3 ex14_a ex14_b = false
  /\ WannierMinimizer.Kpoint_lt WannierMinimizer.lex3 ex14_b ex14_a = false.
Proof.
  destruct (Kpoint_strict_total_order WannierMinimizer.lex3 lex3_ordered)
    as (_ & _ & H3 & _).
  exact (H3 ex14_a ex14_b).
Defined.

Lemma multTransformedKernel_index_in_range_witness :
  Coulomb_internal.multTransformedKernel_index (-1, 5, 2)%Z (4, 4, 4)%Z
  = (2 + 4 * (1 + 4 * 3))%Z.
Proof.
  refine (proj1 (multTransformedKernel_index_in_range (-1) 5 2 4 4 4 _ _ _ _ _));
    vm_compute; intuition discriminate.
Defined.

Lemma multRealKernel_index_in_range_witness :
  Coulomb_internal.multRealKernel_index (1, -1, -2)%Z (4, 4, 4)%Z
  = Coulomb_internal.multRealKernel_index (-1, 1, 2)%Z (4, 4, 4)%Z.
Proof.
  refine (proj2 (multRealKernel_index_in_range (-1) 1 2 4 4 4 _ _ _ _ _ _ _ _) _);
    vm_compute; intuition discriminate.
Defined.
